(** * The naming phase of the template pipeline

    A shallow embedding of
    [packages/compiler/src/template/pipeline/src/phases/naming.ts]:
    [phaseNaming], [addNamesToView], [getVariableName],
    [normalizeStylePropName] and [stripImportant], together with the
    properties of the phase: the names it allocates, the errors it raises
    and what it leaves untouched.

    JavaScript strings are modelled as [string] (ASCII code units), JavaScript
    numbers that hold slots and the naming counter as [N], objects that the
    phase mutates in place (units, ops, semantic variables) as entries of
    finite maps keyed by their identity, and the phase itself as a function in
    a state-and-exception monad over that heap. *)

From Stdlib Require Import Ascii NArith ZArith DecimalString DecimalN.
From stdpp Require Import base option list gmap strings relations.

Local Open Scope N_scope.

(** ** JavaScript string primitives used by the phase *)

Module JS.

(** [String(n)] / a template-literal hole, for a non-negative integer. *)
Definition toString (n : N) : string :=
  NilEmpty.string_of_uint (N.to_uint n).

(** A template-literal hole filled with a [string | null] value. *)
Definition showNullable (s : option string) : string :=
  match s with
  | Some s => s
  | None => "null"
  end.

(** A template-literal hole filled with a [number | null] value. *)
Definition showNullableNumber (n : option N) : string :=
  match n with
  | Some n => toString n
  | None => "null"
  end.

(** [s.startsWith(p)] *)
Definition startsWith (s p : string) : bool := String.prefix p s.

(** [s.substring(0, n)] *)
Fixpoint substring0 (n : nat) (s : string) : string :=
  match n, s with
  | S n', String c s' => String c (substring0 n' s')
  | _, _ => ""
  end.

(** [s.substring(n)] *)
Fixpoint dropChars (n : nat) (s : string) : string :=
  match n, s with
  | S n', String _ s' => dropChars n' s'
  | _, _ => s
  end.

(** [s.indexOf(needle)]: the first position at which [needle] occurs in
    [s], or [-1]. *)
Fixpoint indexOf (s needle : string) : Z :=
  if String.prefix needle s then 0%Z
  else match s with
       | "" => (-1)%Z
       | String _ s' =>
           let i := indexOf s' needle in
           if (i <? 0)%Z then (-1)%Z else (i + 1)%Z
       end.

(** [s.replace(pat, repl)] with a string pattern: only the first occurrence
    of [pat] is replaced. *)
Fixpoint replace (pat repl s : string) : string :=
  if String.prefix pat s then repl +:+ dropChars (String.length pat) s
  else match s with
       | "" => ""
       | String c s' => String c (replace pat repl s')
       end.

Definition isLower (c : ascii) : bool :=
  let n := N_of_ascii c in (97 <=? n) && (n <=? 122).

Definition isUpper (c : ascii) : bool :=
  let n := N_of_ascii c in (65 <=? n) && (n <=? 90).

Definition isDigit (c : ascii) : bool :=
  let n := N_of_ascii c in (48 <=? n) && (n <=? 57).

(** The regular-expression class [\w]. *)
Definition isWord (c : ascii) : bool :=
  isLower c || isUpper c || isDigit c || (N_of_ascii c =? 95).

Fixpoint mapChars (f : ascii → ascii) (s : string) : string :=
  match s with
  | "" => ""
  | String c s' => String (f c) (mapChars f s')
  end.

(** [s.toLowerCase()] on ASCII text. *)
Definition toLowerCase (s : string) : string :=
  mapChars (λ c, if isUpper c then ascii_of_N (N_of_ascii c + 32) else c) s.

End JS.

(** ** Helpers imported by naming.ts from elsewhere in the compiler *)

(** Modelled from the spec: [sanitizeIdentifier] of [parse_util], which is not
    part of the sources at hand. The spec asks that the result be sanitized
    "into a valid identifier"; the model replaces every character outside
    [\w] by an underscore, character by character. *)
Definition sanitizeIdentifier (name : string) : string :=
  JS.mapChars (λ c, if JS.isWord c then c else "_"%char) name.

(** Modelled from the spec: [hyphenate] of [render3/view/style_parser], which
    is not part of the sources at hand. The spec asks to "convert a
    camelCase-like property name into kebab-case": a hyphen is inserted
    between a lower-case letter and the upper-case letter that follows it, and
    the result is lower-cased. *)
Fixpoint hyphenatePairs (value : string) : string :=
  match value with
  | "" => ""
  | String a rest =>
      match rest with
      | "" => String a ""
      | String b rest' =>
          if JS.isLower a && JS.isUpper b
          then String a (String "-" (String b (hyphenatePairs rest')))
          else String a (hyphenatePairs rest)
      end
  end.

Definition hyphenate (value : string) : string :=
  JS.toLowerCase (hyphenatePairs value).

(** ** The style and class normalizer *)

(** Normalizes a style prop name by hyphenating it (unless it is a CSS
    variable). *)
Definition normalizeStylePropName (name : string) : string :=
  if JS.startsWith name "--" then name else hyphenate name.

(** Strips [!important] out of the given style or class name. *)
Definition stripImportant (name : string) : string :=
  let importantIndex := JS.indexOf name "!important" in
  if (importantIndex >? -1)%Z
  then JS.substring0 (Z.to_nat importantIndex) name
  else name.

(** ** The intermediate representation (the parts the phase reads or writes) *)

Abbreviation XrefId := N (only parsing).

(** The identity of a [SemanticVariable] object. Several [Variable] ops may
    hold the same object; the phase relies on that to name it once. *)
Abbreviation VarRef := N (only parsing).

Inductive SemanticVariableKind :=
  | Context
  | Identifier (identifier : string)
  | OtherVariable.

Module SemanticVariable.
Record t := mk { kind : SemanticVariableKind; name : option string }.
End SemanticVariable.

(** Modelled from the spec: [ir.visitExpressionsInOp], which is not part of
    the sources at hand, visits "every expression in every instruction"; an op
    carries the expressions it contains in the order they are visited, and an
    expression is either a variable read or something the phase ignores. *)
Inductive Expression :=
  | ReadVariableExpr (xref : XrefId) (name : option string)
  | OtherExpr.

Module ListenerOp.
Record t := mk {
  name : string;
  tag : option string;
  hostListener : bool;
  handlerFnName : option string;
  isAnimationListener : bool;
  animationPhase : option string;
  targetSlot : option N
}.

Definition withName (op : t) (n : string) : t :=
  mk n (tag op) (hostListener op) (handlerFnName op)
     (isAnimationListener op) (animationPhase op) (targetSlot op).

Definition withHandlerFnName (op : t) (h : string) : t :=
  mk (name op) (tag op) (hostListener op) (Some h)
     (isAnimationListener op) (animationPhase op) (targetSlot op).
End ListenerOp.

Inductive OpVariant :=
  | Property (name : string) (isAnimationTrigger : bool)
  | HostProperty (name : string) (isAnimationTrigger : bool)
  | Listener (op : ListenerOp.t)
  | VariableOp (xref : XrefId) (variable : VarRef)
  | RepeaterCreate (xref : XrefId) (emptyView : option XrefId)
      (functionNameSuffix : string) (slot : option N)
  | Template (xref : XrefId) (functionNameSuffix : string) (slot : option N)
  | StyleProp (name : string)
  | ClassProp (name : string)
  | OtherOp.

Module Op.
Record t := mk { variant : OpVariant; expressions : list Expression }.
End Op.

(** Modelled from the spec: [CompilationUnit] of [../compilation], which is
    not part of the sources at hand: "an ordered sequence of instructions; a
    nullable generated-function name". [isView] records whether the unit is
    an instance of [ViewCompilationUnit]; [ops] is the sequence that
    [unit.ops()] yields. *)
Module CompilationUnit.
Record t := mk { isView : bool; fnName : option string; ops : list Op.t }.
End CompilationUnit.

Inductive CompatibilityMode := Normal | TemplateDefinitionBuilder.

Definition isTemplateDefinitionBuilder (m : CompatibilityMode) : bool :=
  match m with TemplateDefinitionBuilder => true | Normal => false end.

(** The heap the phase works on: every unit of the job by xref (the root and
    the views; [job.views] is the part of [units] that are views), every
    semantic variable by identity, and the [{index: number}] counter that
    [phaseNaming] creates and threads through the traversal. *)
Record World := mkWorld {
  units : gmap N CompilationUnit.t;
  variables : gmap N SemanticVariable.t;
  index : N
}.

(** Modelled from the spec: [CompilationJob] of [../compilation]: "owns the
    root unit, a mapping xref -> compilation unit for all nested units, a
    component base name, a compatibility flag". *)
Record CompilationJob := mkJob {
  root : XrefId;
  componentName : string;
  fnSuffix : string;
  compatibility : CompatibilityMode;
  jobUnits : gmap N CompilationUnit.t;
  jobVariables : gmap N SemanticVariable.t
}.

(** ** Errors and the monad *)

Inductive Error :=
  | ExpectedASlotToBeAssigned      (* "Expected a slot to be assigned" *)
  | MustBeCompilingAComponent      (* "AssertionError: must be compiling a component" *)
  | ExpectedSlotToBeAssigned       (* "Expected slot to be assigned" *)
  | VariableNotYetNamed (xref : XrefId) (* "Variable ${expr.xref} not yet named" *)
  | TypeError                      (* a property read on undefined or null *)
  | OutOfFuel.                     (* the recursion is deeper than the fuel *)

Inductive Result (A : Type) :=
  | Ok (a : A)
  | Throw (e : Error).
Arguments Ok {A} a.
Arguments Throw {A} e.

(** A computation returns or throws, and in both cases leaves a heap behind:
    what was written before a throw stays written. *)
Definition M (A : Type) : Type := World → Result A * World.

Definition ret {A} (a : A) : M A := λ w, (Ok a, w).

Definition throw {A} (e : Error) : M A := λ w, (Throw e, w).

Definition bind {A B} (m : M A) (k : A → M B) : M B :=
  λ w, match m w with
       | (Ok a, w') => k a w'
       | (Throw e, w') => (Throw e, w')
       end.

Notation "x <- c1 ;; c2" := (bind c1 (λ x, c2))
  (at level 100, c1 at next level, right associativity).
Notation "c1 ;; c2" := (bind c1 (λ _, c2))
  (at level 100, right associativity).

(** [for (const x of xs) acc = body(acc, x)] *)
Fixpoint foldM {A B} (f : A → B → M A) (a : A) (xs : list B) : M A :=
  match xs with
  | [] => ret a
  | x :: xs' => a' <- f a x ;; foldM f a' xs'
  end.

(** *** Heap accesses *)

Definition getUnit (unit : XrefId) : M CompilationUnit.t :=
  λ w, match units w !! unit with
       | Some u => (Ok u, w)
       | None => (Throw TypeError, w)
       end.

Definition setUnit (unit : XrefId) (u : CompilationUnit.t) : M () :=
  λ w, (Ok (), mkWorld (<[unit := u]> (units w)) (variables w) (index w)).

Definition setFnName (unit : XrefId) (fnName : string) : M () :=
  u <- getUnit unit ;;
  setUnit unit (CompilationUnit.mk (CompilationUnit.isView u) (Some fnName)
                                   (CompilationUnit.ops u)).

Definition setOps (unit : XrefId) (ops : list Op.t) : M () :=
  u <- getUnit unit ;;
  setUnit unit (CompilationUnit.mk (CompilationUnit.isView u)
                                   (CompilationUnit.fnName u) ops).

(** The op at position [i] of [unit.ops()]. The loops only ask for positions
    below the length of the sequence. *)
Definition getOp (unit : XrefId) (i : nat) : M Op.t :=
  u <- getUnit unit ;;
  match CompilationUnit.ops u !! i with
  | Some op => ret op
  | None => throw TypeError
  end.

(** Overwrites the fields of the op at position [i], keeping its expressions. *)
Definition setOpVariant (unit : XrefId) (i : nat) (v : OpVariant) : M () :=
  u <- getUnit unit ;;
  op <- getOp unit i ;;
  setOps unit (<[i := Op.mk v (Op.expressions op)]> (CompilationUnit.ops u)).

(** [unit.job.views.get(xref)!]: the map holds view units only. The phase
    passes the result on without looking at it; reading [fnName] off
    [undefined] is what fails, at the start of the callee. *)
Definition viewsGet (xref : XrefId) : M XrefId :=
  λ w, match units w !! xref with
       | Some u => if CompilationUnit.isView u then (Ok xref, w)
                   else (Throw TypeError, w)
       | None => (Throw TypeError, w)
       end.

(** The object behind a reference. A reference of the source always has one;
    the [None] case only arises on a heap with a dangling reference. *)
Definition getVariable (variable : VarRef) : M SemanticVariable.t :=
  λ w, match variables w !! variable with
       | Some v => (Ok v, w)
       | None => (Throw TypeError, w)
       end.

Definition setVariableName (variable : VarRef) (name : string) : M () :=
  v <- getVariable variable ;;
  λ w, (Ok (), mkWorld (units w)
                 (<[variable := SemanticVariable.mk (SemanticVariable.kind v) (Some name)]>
                    (variables w))
                 (index w)).

(** [state.index++] *)
Definition postIncrement : M N :=
  λ w, (Ok (index w), mkWorld (units w) (variables w) (index w + 1)).

(** [++state.index] *)
Definition preIncrement : M N :=
  λ w, (Ok (index w + 1), mkWorld (units w) (variables w) (index w + 1)).

(** ** The variable name allocator *)

Definition getVariableName (variable : VarRef) : M string :=
  v <- getVariable variable ;;
  match SemanticVariable.name v with
  | Some name => ret name
  | None =>
      name <- match SemanticVariable.kind v with
              | Context =>
                  i <- postIncrement ;; ret ("ctx_r" +:+ JS.toString i)
              | Identifier identifier =>
                  i <- preIncrement ;; ret (identifier +:+ "_r" +:+ JS.toString i)
              | OtherVariable =>
                  i <- preIncrement ;; ret ("_r" +:+ JS.toString i)
              end ;;
      setVariableName variable name ;;
      ret name
  end.

(** ** The backfill of variable reads *)

(** The visitor of the second loop run over the expressions of one op, in
    visiting order. It returns the expressions as the visit leaves them and,
    if the visitor threw, the xref it threw on; what precedes the throw is
    already written, what follows it is not visited. *)
Fixpoint backfillExpressions (varNames : gmap N string) (es : list Expression)
  : list Expression * option XrefId :=
  match es with
  | [] => ([], None)
  | ReadVariableExpr xref None :: es' =>
      match varNames !! xref with
      | None => (es, Some xref)
      | Some name =>
          let '(es'', err) := backfillExpressions varNames es' in
          (ReadVariableExpr xref (Some name) :: es'', err)
      end
  | e :: es' =>
      let '(es'', err) := backfillExpressions varNames es' in
      (e :: es'', err)
  end.

(** [for (const op of unit.ops()) ir.visitExpressionsInOp(op, ...)] *)
Fixpoint backfillOps (varNames : gmap N string) (ops : list Op.t)
  : list Op.t * option XrefId :=
  match ops with
  | [] => ([], None)
  | op :: ops' =>
      match backfillExpressions varNames (Op.expressions op) with
      | (es, Some xref) => (Op.mk (Op.variant op) es :: ops', Some xref)
      | (es, None) =>
          let '(ops'', err) := backfillOps varNames ops' in
          (Op.mk (Op.variant op) es :: ops'', err)
      end
  end.

Definition backfill (unit : XrefId) (varNames : gmap N string) : M () :=
  u <- getUnit unit ;;
  let '(ops, err) := backfillOps varNames (CompilationUnit.ops u) in
  setOps unit ops ;;
  match err with
  | Some xref => throw (VariableNotYetNamed xref)
  | None => ret ()
  end.

(** ** The view namer *)

(** The [Listener] case of the switch. The two assignments to
    [op.handlerFnName] (the raw name, then its sanitization) are one write
    here: nothing can throw between them. *)
Definition nameListener (unit : XrefId) (baseName : string) (i : nat)
    (op : ListenerOp.t) : M () :=
  match ListenerOp.handlerFnName op with
  | Some _ => ret ()
  | None =>
      if negb (ListenerOp.hostListener op)
         && bool_decide (ListenerOp.targetSlot op = None)
      then throw ExpectedASlotToBeAssigned
      else
        let animation := if ListenerOp.isAnimationListener op then "animation" else "" in
        let renamed :=
          ListenerOp.withName op
            ("@" +:+ ListenerOp.name op +:+ "." +:+
             JS.showNullable (ListenerOp.animationPhase op)) in
        let op := if ListenerOp.isAnimationListener op then renamed else op in
        (if ListenerOp.isAnimationListener op
         then setOpVariant unit i (Listener op)
         else ret ()) ;;
        handlerFnName <-
          (if ListenerOp.hostListener op
           then ret (baseName +:+ "_" +:+ animation +:+ ListenerOp.name op +:+
                     "_HostBindingHandler")
           else
             u <- getUnit unit ;;
             match ListenerOp.tag op with
             | None => throw TypeError
             | Some tag =>
                 ret (JS.showNullable (CompilationUnit.fnName u) +:+ "_" +:+
                      JS.replace "-" "_" tag +:+ "_" +:+ animation +:+
                      ListenerOp.name op +:+ "_" +:+
                      JS.showNullableNumber (ListenerOp.targetSlot op) +:+
                      "_listener")
             end) ;;
        setOpVariant unit i
          (Listener (ListenerOp.withHandlerFnName op (sanitizeIdentifier handlerFnName)))
  end.

(** The body of the first loop of [addNamesToView] for the op at position
    [i]; [recurse] is [addNamesToView] itself with the shared state and the
    compatibility flag passed on. *)
Definition nameOp (recurse : XrefId → string → M ())
    (unit : XrefId) (baseName : string) (compatibility : bool)
    (varNames : gmap N string) (i : nat) : M (gmap N string) :=
  op <- getOp unit i ;;
  match Op.variant op with
  | Property name isAnimationTrigger =>
      (if isAnimationTrigger
       then setOpVariant unit i (Property ("@" +:+ name) isAnimationTrigger)
       else ret ()) ;;
      ret varNames
  | HostProperty name isAnimationTrigger =>
      (if isAnimationTrigger
       then setOpVariant unit i (HostProperty ("@" +:+ name) isAnimationTrigger)
       else ret ()) ;;
      ret varNames
  | Listener l =>
      nameListener unit baseName i l ;; ret varNames
  | VariableOp xref variable =>
      name <- getVariableName variable ;;
      ret (<[xref := name]> varNames)
  | RepeaterCreate xref emptyView functionNameSuffix slot =>
      u <- getUnit unit ;;
      if negb (CompilationUnit.isView u) then throw MustBeCompilingAComponent
      else
        match slot with
        | None => throw ExpectedSlotToBeAssigned
        | Some slot =>
            match emptyView with
            | Some emptyView =>
                emptyView <- viewsGet emptyView ;;
                (* Repeater empty view function is at slot +2. *)
                recurse emptyView
                  (baseName +:+ "_" +:+ (functionNameSuffix +:+ "Empty") +:+ "_" +:+
                   JS.toString (slot + 2))
            | None => ret ()
            end ;;
            (* Repeater primary view function is at slot +1. *)
            primary <- viewsGet xref ;;
            recurse primary
              (baseName +:+ "_" +:+ functionNameSuffix +:+ "_" +:+
               JS.toString (slot + 1)) ;;
            ret varNames
        end
  | Template xref functionNameSuffix slot =>
      u <- getUnit unit ;;
      if negb (CompilationUnit.isView u) then throw MustBeCompilingAComponent
      else
        match slot with
        | None => throw ExpectedSlotToBeAssigned
        | Some slot =>
            let suffix :=
              if bool_decide (String.length functionNameSuffix = 0%nat) then ""
              else "_" +:+ functionNameSuffix in
            childView <- viewsGet xref ;;
            recurse childView (baseName +:+ suffix +:+ "_" +:+ JS.toString slot) ;;
            ret varNames
        end
  | StyleProp name =>
      let name := normalizeStylePropName name in
      let name := if compatibility then stripImportant name else name in
      setOpVariant unit i (StyleProp name) ;;
      ret varNames
  | ClassProp name =>
      (if compatibility
       then setOpVariant unit i (ClassProp (stripImportant name))
       else ret ()) ;;
      ret varNames
  | OtherOp => ret varNames
  end.

(** [addNamesToView(unit, baseName, state, compatibility)]. The unit is given
    by its xref; [state] is the [index] of the heap. The recursion follows
    the xrefs of [Template] and [RepeaterCreate] ops through the heap, so it
    is bounded by [fuel]: on a unit graph with a cycle the source recurses
    until the stack is exhausted. *)
Fixpoint addNamesToView (cpl : CompilationJob) (fuel : nat) (unit : XrefId)
    (baseName : string) (compatibility : bool) : M () :=
  match fuel with
  | O => throw OutOfFuel
  | S fuel' =>
      u <- getUnit unit ;;
      match CompilationUnit.fnName u with
      | None => setFnName unit (sanitizeIdentifier (baseName +:+ "_" +:+ fnSuffix cpl))
      | Some _ => ret ()
      end ;;
      (* Keep track of the names we assign to variables in the view. *)
      varNames <-
        foldM (nameOp (λ child base, addNamesToView cpl fuel' child base compatibility)
                 unit baseName compatibility)
          ∅ (seq 0 (length (CompilationUnit.ops u))) ;;
      (* Push those names into the reads of those variables. *)
      backfill unit varNames
  end.

(** The heap a job starts the phase with: its units and variables, and a
    fresh [{index: 0}]. *)
Definition initialWorld (cpl : CompilationJob) : World :=
  mkWorld (jobUnits cpl) (jobVariables cpl) 0.

Definition phaseNaming (fuel : nat) (cpl : CompilationJob) : Result () * World :=
  addNamesToView cpl fuel (root cpl) (componentName cpl)
    (isTemplateDefinitionBuilder (compatibility cpl)) (initialWorld cpl).

(** ** Vocabulary of the statements *)

(** The heap [w] after the fields of the op at position [i] of [unit] have
    been overwritten by [v]; every other object is as in [w]. *)
Definition withOpVariant (unit : XrefId) (i : nat) (v : OpVariant) (w : World) : World :=
  match units w !! unit with
  | Some u =>
      match CompilationUnit.ops u !! i with
      | Some op =>
          mkWorld
            (<[unit := CompilationUnit.mk (CompilationUnit.isView u)
                         (CompilationUnit.fnName u)
                         (<[i := Op.mk v (Op.expressions op)]> (CompilationUnit.ops u))]>
               (units w))
            (variables w) (index w)
      | None => w
      end
  | None => w
  end.

(** The variant of the op at position [i] of [unit], if there is one. *)
Definition variantAt (w : World) (unit : XrefId) (i : nat) : option OpVariant :=
  u ← units w !! unit; op ← CompilationUnit.ops u !! i; Some (Op.variant op).

(** The function name of [unit], if the unit exists and has one. *)
Definition fnNameOf (w : World) (unit : XrefId) : option string :=
  u ← units w !! unit; CompilationUnit.fnName u.

(** The name of the semantic variable [variable], if it exists and has one. *)
Definition nameOfVariable (w : World) (variable : VarRef) : option string :=
  v ← variables w !! variable; SemanticVariable.name v.

(** The spec's words for the tag of a view listener: "tag with every hyphen
    replaced by an underscore". *)
Definition replaceAllHyphens (tag : string) : string :=
  JS.mapChars (λ c, if Ascii.eqb c "-" then "_"%char else c) tag.

(** What the backfill makes of an expression: an unnamed read takes the
    entry of the table for its xref. *)
Definition resolveRead (varNames : gmap N string) (e : Expression) : Expression :=
  match e with
  | ReadVariableExpr xref None => ReadVariableExpr xref (varNames !! xref)
  | _ => e
  end.

Definition resolveOp (varNames : gmap N string) (op : Op.t) : Op.t :=
  Op.mk (Op.variant op) (resolveRead varNames <$> Op.expressions op).

(** [unit] has an unnamed read of [xref] among the expressions of its ops. *)
Definition hasUnnamedRead (u : CompilationUnit.t) (xref : XrefId) : Prop :=
  ∃ i op, CompilationUnit.ops u !! i = Some op
          ∧ ReadVariableExpr xref None ∈ Op.expressions op.

(** [unit] has a [Variable] op that declares [xref], and the variable of that
    op has the name [name]. *)
Definition declaredAs (w : World) (unit xref : XrefId) (name : string) : Prop :=
  ∃ u i op variable,
    units w !! unit = Some u ∧ CompilationUnit.ops u !! i = Some op
    ∧ Op.variant op = VariableOp xref variable
    ∧ nameOfVariable w variable = Some name.

(** The expression at position [j] of the op at position [i] of [unit]. *)
Definition expressionAt (w : World) (unit : XrefId) (i j : nat) : option Expression :=
  u ← units w !! unit; op ← CompilationUnit.ops u !! i; Op.expressions op !! j.

(** The run of [addNamesToView] with fuel [S fuel] up to, and not including,
    position [i] of its first loop. *)
Definition scanUpTo (cpl : CompilationJob) (fuel : nat) (unit : XrefId)
    (baseName : string) (compatibility : bool) (i : nat) : M (gmap N string) :=
  u <- getUnit unit ;;
  match CompilationUnit.fnName u with
  | None => setFnName unit (sanitizeIdentifier (baseName +:+ "_" +:+ fnSuffix cpl))
  | Some _ => ret ()
  end ;;
  foldM (nameOp (λ child base, addNamesToView cpl fuel child base compatibility)
           unit baseName compatibility)
    ∅ (seq 0 i).

(** *** What the phase writes *)

(** The part of an op that the phase never writes: its kind and everything
    but the names. *)
Definition skeletonOfListener (l : ListenerOp.t) : ListenerOp.t :=
  ListenerOp.mk "" (ListenerOp.tag l) (ListenerOp.hostListener l) None
    (ListenerOp.isAnimationListener l) (ListenerOp.animationPhase l)
    (ListenerOp.targetSlot l).

Definition skeletonOfVariant (v : OpVariant) : OpVariant :=
  match v with
  | Property _ t => Property "" t
  | HostProperty _ t => HostProperty "" t
  | Listener l => Listener (skeletonOfListener l)
  | StyleProp _ => StyleProp ""
  | ClassProp _ => ClassProp ""
  | VariableOp _ _ | RepeaterCreate _ _ _ _ | Template _ _ _ | OtherOp => v
  end.

Definition skeletonOfExpression (e : Expression) : Expression :=
  match e with
  | ReadVariableExpr xref _ => ReadVariableExpr xref None
  | OtherExpr => OtherExpr
  end.

Definition skeletonOfOp (op : Op.t) : Op.t :=
  Op.mk (skeletonOfVariant (Op.variant op))
        (skeletonOfExpression <$> Op.expressions op).

(** A unit after some writes of the phase: the same ops up to names, and the
    function name it had, if it had one. *)
Definition unitEvolves (u u' : CompilationUnit.t) : Prop :=
  CompilationUnit.isView u' = CompilationUnit.isView u
  ∧ (∀ fn, CompilationUnit.fnName u = Some fn → CompilationUnit.fnName u' = Some fn)
  ∧ skeletonOfOp <$> CompilationUnit.ops u' = skeletonOfOp <$> CompilationUnit.ops u.

(** The name [getVariableName] gives to an unnamed variable of kind [kind]
    when the counter is [index]. *)
Definition allocatedName (kind : SemanticVariableKind) (index : N) : string :=
  match kind with
  | Context => "ctx_r" +:+ JS.toString index
  | Identifier identifier => identifier +:+ "_r" +:+ JS.toString (index + 1)
  | OtherVariable => "_r" +:+ JS.toString (index + 1)
  end.

(** One write of the phase: a unit is replaced by an evolved one, or an
    unnamed variable gets its name and the counter moves on by one. *)
Inductive writes : World → World → Prop :=
  | writes_unit w unit u u' :
      units w !! unit = Some u → unitEvolves u u' →
      writes w (mkWorld (<[unit := u']> (units w)) (variables w) (index w))
  | writes_variable w variable v :
      variables w !! variable = Some v → SemanticVariable.name v = None →
      writes w
        (mkWorld (units w)
           (<[variable := SemanticVariable.mk (SemanticVariable.kind v)
                            (Some (allocatedName (SemanticVariable.kind v) (index w)))]>
              (variables w))
           (index w + 1)).

(** Every heap a computation can leave is reached by writes of the phase. *)
Definition respects {A} (m : M A) : Prop := ∀ w, rtc writes w (m w).2.

(** [m2] does what [m1] does whenever [m1] does not run out of fuel. *)
Definition agrees {A} (m1 m2 : M A) : Prop :=
  ∀ w r w', m1 w = (r, w') → r ≠ Throw OutOfFuel → m2 w = (r, w').

(** *** The unit tree *)

(** The op refers to [child] as the view it creates. *)
Definition refersTo (v : OpVariant) (child : XrefId) : Prop :=
  match v with
  | Template xref _ _ => xref = child
  | RepeaterCreate xref emptyView _ _ => xref = child ∨ emptyView = Some child
  | _ => False
  end.

Definition childOf (w : World) (parent child : XrefId) : Prop :=
  ∃ u i op, units w !! parent = Some u ∧ CompilationUnit.ops u !! i = Some op
            ∧ refersTo (Op.variant op) child.

(** The units the traversal gets to from [unit]. *)
Definition reachableFrom (w : World) (unit : XrefId) : XrefId → Prop :=
  rtc (childOf w) unit.

(** The unit tree below [unit] has no path of more than [n] edges. *)
Fixpoint heightAtMost (w : World) (n : nat) (unit : XrefId) : Prop :=
  match n with
  | O => ∀ child, ¬ childOf w unit child
  | S n' => ∀ child, childOf w unit child → heightAtMost w n' child
  end.

(** The job as the phase left it, to run the phase on it again. *)
Definition jobAfter (cpl : CompilationJob) (w : World) : CompilationJob :=
  mkJob (root cpl) (componentName cpl) (fnSuffix cpl) (compatibility cpl)
        (units w) (variables w).

(** *** The names of variables *)

Definition kindOfVariable (w : World) (variable : VarRef) : option SemanticVariableKind :=
  SemanticVariable.kind <$> variables w !! variable.

(** [variable] had no name in [w0] and has the name [name] in [w]. *)
Definition namedSince (w0 w : World) (variable : VarRef) (name : string) : Prop :=
  is_Some (variables w0 !! variable)
  ∧ nameOfVariable w0 variable = None
  ∧ nameOfVariable w variable = Some name.

(** The only pair of kinds for which the allocator can produce one name
    twice: a context variable and a variable declared as [ctx]. *)
Definition contextAndCtx (k1 k2 : SemanticVariableKind) : Prop :=
  (k1 = Context ∧ k2 = Identifier "ctx") ∨ (k1 = Identifier "ctx" ∧ k2 = Context).

(** Every allocated name is [<prefix>_r<number>]. *)
Definition prefixOfKind (kind : SemanticVariableKind) : string :=
  match kind with
  | Context => "ctx"
  | Identifier identifier => identifier
  | OtherVariable => ""
  end.

Definition isContext (kind : SemanticVariableKind) : bool :=
  match kind with Context => true | _ => false end.

Fixpoint allDigits (s : string) : bool :=
  match s with
  | "" => true
  | String c s' => JS.isDigit c && allDigits s'
  end.

(** The numbers in the names given since [w0] are below the counter: strictly
    for context variables, which take the counter before it moves. *)
Definition numbersBelowCounter (w0 w : World) : Prop :=
  ∀ variable name,
    namedSince w0 w variable name →
    ∃ kind k, kindOfVariable w variable = Some kind
              ∧ name = prefixOfKind kind +:+ "_r" +:+ JS.toString k
              ∧ if isContext kind then k < index w else k ≤ index w.

(** Two variables named since [w0] have one name only if one is the context
    and the other is declared as [ctx]. *)
Definition distinctUpToCtx (w0 w : World) : Prop :=
  ∀ v1 v2 name k1 k2,
    v1 ≠ v2 → namedSince w0 w v1 name → namedSince w0 w v2 name →
    kindOfVariable w v1 = Some k1 → kindOfVariable w v2 = Some k2 →
    contextAndCtx k1 k2.

(** *** Sample heaps *)

Definition sampleListener (tag : option string) (slot : option N) : ListenerOp.t :=
  ListenerOp.mk "click" tag false None false None slot.

(** A view named [Comp_Template] whose only op is a listener. *)
Definition listenerWorld (tag : option string) (slot : option N) : World :=
  mkWorld
    {[ 0 := CompilationUnit.mk true (Some "Comp_Template")
              [Op.mk (Listener (sampleListener tag slot)) []] ]}
    ∅ 0.

(** A view with one binding op. *)
Definition bindingWorld (v : OpVariant) : World :=
  mkWorld {[ 0 := CompilationUnit.mk true (Some "Comp_Template") [Op.mk v []] ]} ∅ 0.

(** A heap with one unnamed semantic variable, the counter at [4]. *)
Definition variableWorld (kind : SemanticVariableKind) (name : option string) : World :=
  mkWorld ∅ {[ 7 := SemanticVariable.mk kind name ]} 4.

(** A job with a unit that no op refers to. *)
Definition orphanJob : CompilationJob :=
  mkJob 0 "Comp" "Template" Normal
    {[ 0 := CompilationUnit.mk true None [];
       1 := CompilationUnit.mk true None [] ]}
    ∅.

(** The root view of [sampleJob]. *)
Definition sampleRoot : CompilationUnit.t :=
  CompilationUnit.mk true None
    [ Op.mk (Property "expanded" true) [];
      Op.mk (Listener (sampleListener (Some "my-el") (Some 3))) [];
      Op.mk (VariableOp 10 100) [ReadVariableExpr 11 None];
      Op.mk (VariableOp 11 101)
        [ReadVariableExpr 10 None; OtherExpr; ReadVariableExpr 10 (Some "preset")];
      Op.mk (Template 1 "ng_template" (Some 4)) [];
      Op.mk (RepeaterCreate 2 (Some 3) "For" (Some 5)) [];
      Op.mk (StyleProp "fontSize!important") [] ].

(** A component with an embedded template and a repeater that has an empty
    branch. *)
Definition sampleJob : CompilationJob :=
  mkJob 0 "Comp" "Template" TemplateDefinitionBuilder
    {[ 0 := sampleRoot;
       1 := CompilationUnit.mk true None
              [ Op.mk (VariableOp 12 100) []; Op.mk (VariableOp 13 102) [] ];
       2 := CompilationUnit.mk true None [];
       3 := CompilationUnit.mk true None [] ]}
    {[ 100 := SemanticVariable.mk (Identifier "item") None;
       101 := SemanticVariable.mk Context None;
       102 := SemanticVariable.mk OtherVariable None ]}.

(** A view that declares a variable called [ctx] and then its context. *)
Definition ctxJob : CompilationJob :=
  mkJob 0 "Comp" "Template" Normal
    {[ 0 := CompilationUnit.mk true None
              [ Op.mk (VariableOp 10 100) []; Op.mk (VariableOp 11 101) [] ] ]}
    {[ 100 := SemanticVariable.mk (Identifier "ctx") None;
       101 := SemanticVariable.mk Context None ]}.

(** A view with three listeners, the second of which has no slot. *)
Definition slotlessJob : CompilationJob :=
  mkJob 0 "Comp" "Template" Normal
    {[ 0 := CompilationUnit.mk true None
              [ Op.mk (Listener (sampleListener (Some "a") (Some 1))) [];
                Op.mk (Listener (sampleListener (Some "b") None)) [];
                Op.mk (Listener (sampleListener (Some "c") (Some 2))) [] ] ]}
    ∅.

(** A view whose op reads a variable of the table and one that has a name. *)
Definition readsWorld : World :=
  mkWorld
    {[ 0 := CompilationUnit.mk true (Some "Comp_Template")
              [ Op.mk (VariableOp 10 100)
                  [ReadVariableExpr 10 None; ReadVariableExpr 11 (Some "preset")] ] ]}
    ∅ 1.

(** *** Further vocabulary and sample heaps *)

(** The variables of the heap that have no name yet. *)
Definition unnamedVariables (w : World) : gmap N SemanticVariable.t :=
  filter (λ kv, SemanticVariable.name kv.2 = None) (variables w).

(** The outcome is the one that stands for a recursion deeper than the fuel. *)
Definition isOutOfFuel {A} (r : Result A) : bool :=
  match r with
  | Throw OutOfFuel => true
  | _ => false
  end.

(** [unit] has a [Variable] op that declares [xref]. *)
Definition declares (u : CompilationUnit.t) (xref : XrefId) : Prop :=
  ∃ i op variable,
    CompilationUnit.ops u !! i = Some op ∧ Op.variant op = VariableOp xref variable.

(** A host listener: neither a slot nor a tag. *)
Definition sampleHostListener (isAnimationListener : bool) : ListenerOp.t :=
  ListenerOp.mk "click" None true None isAnimationListener (Some "done") None.

(** An animation listener of a view. *)
Definition sampleAnimationListener (tag : option string) : ListenerOp.t :=
  ListenerOp.mk "fade" tag false None true (Some "done") (Some 2).

(** A host-binding unit (not a view) with one op. *)
Definition hostWorld (v : OpVariant) : World :=
  mkWorld {[ 0 := CompilationUnit.mk false (Some "Comp_HostBindings") [Op.mk v []] ]} ∅ 0.

(** A view with a template whose child view has a listener without a slot. *)
Definition failingChildJob : CompilationJob :=
  mkJob 0 "Comp" "Template" Normal
    {[ 0 := CompilationUnit.mk true None
              [ Op.mk (Property "expanded" true) [];
                Op.mk (Template 1 "" (Some 4)) [];
                Op.mk (ClassProp "active") [] ];
       1 := CompilationUnit.mk true None
              [ Op.mk (Listener (sampleListener (Some "b") None)) [] ] ]}
    ∅.

(** A view whose repeater has an empty view that can be named and a primary
    view with a listener without a slot. *)
Definition failingPrimaryJob : CompilationJob :=
  mkJob 0 "Comp" "Template" Normal
    {[ 0 := CompilationUnit.mk true None
              [ Op.mk (RepeaterCreate 1 (Some 2) "For" (Some 5)) [] ];
       1 := CompilationUnit.mk true None
              [ Op.mk (Listener (sampleListener (Some "b") None)) [] ];
       2 := CompilationUnit.mk true None [] ]}
    ∅.

(** ** Properties *)

(** *** The monad *)

Lemma bind_Ok {A B} (m : M A) (k : A → M B) w a w' :
  m w = (Ok a, w') → bind m k w = k a w'.
Proof. unfold bind. by intros ->. Qed.

Lemma bind_Throw {A B} (m : M A) (k : A → M B) w e w' :
  m w = (Throw e, w') → bind m k w = (Throw e, w').
Proof. unfold bind. by intros ->. Qed.

Lemma bind_inv_Ok {A B} (m : M A) (k : A → M B) w b w' :
  bind m k w = (Ok b, w') → ∃ a w1, m w = (Ok a, w1) ∧ k a w1 = (Ok b, w').
Proof.
  unfold bind. destruct (m w) as [[a|e] w1]; [eauto | discriminate].
Qed.

Lemma bind_ext_at {A B} (m m' : M A) (k k' : A → M B) w :
  m w = m' w → (∀ a w1, k a w1 = k' a w1) → bind m k w = bind m' k' w.
Proof.
  intros Hm Hk. unfold bind. rewrite Hm. by destruct (m' w) as [[a|e] w1].
Qed.

Lemma bind_assoc_at {A B C} (m : M A) (k1 : A → M B) (k2 : B → M C) w :
  bind (bind m k1) k2 w = bind m (λ a, bind (k1 a) k2) w.
Proof. unfold bind. by destruct (m w) as [[a|e] w1]. Qed.

Lemma foldM_app {A B} (f : A → B → M A) a xs ys w :
  foldM f a (xs ++ ys) w = bind (foldM f a xs) (λ a', foldM f a' ys) w.
Proof.
  revert a w. induction xs as [|x xs IH]; intros a w; simpl; [done|].
  unfold bind. destruct (f a x w) as [[a'|e] w1]; [|done].
  by rewrite IH.
Qed.

(** *** Heap accesses *)

Lemma getUnit_Some w unit u :
  units w !! unit = Some u → getUnit unit w = (Ok u, w).
Proof. unfold getUnit. by intros ->. Qed.

Lemma getOp_Some w unit u i op :
  units w !! unit = Some u → CompilationUnit.ops u !! i = Some op →
  getOp unit i w = (Ok op, w).
Proof.
  intros Hu Hop. unfold getOp. rewrite (bind_Ok _ _ _ _ _ (getUnit_Some _ _ _ Hu)).
  by rewrite Hop.
Qed.

Lemma setOpVariant_Some w unit u i op v :
  units w !! unit = Some u → CompilationUnit.ops u !! i = Some op →
  setOpVariant unit i v w = (Ok (), withOpVariant unit i v w).
Proof.
  intros Hu Hop. unfold setOpVariant, withOpVariant.
  rewrite (bind_Ok _ _ _ _ _ (getUnit_Some _ _ _ Hu)).
  rewrite (bind_Ok _ _ _ _ _ (getOp_Some _ _ _ _ _ Hu Hop)).
  unfold setOps. rewrite (bind_Ok _ _ _ _ _ (getUnit_Some _ _ _ Hu)).
  by rewrite Hu, Hop.
Qed.

Lemma withOpVariant_units_eq w unit u i op v :
  units w !! unit = Some u → CompilationUnit.ops u !! i = Some op →
  units (withOpVariant unit i v w) !! unit
  = Some (CompilationUnit.mk (CompilationUnit.isView u) (CompilationUnit.fnName u)
            (<[i := Op.mk v (Op.expressions op)]> (CompilationUnit.ops u))).
Proof.
  intros Hu Hop. unfold withOpVariant. rewrite Hu, Hop. simpl.
  by rewrite lookup_insert_eq.
Qed.

Lemma variantAt_withOpVariant w unit u i op v :
  units w !! unit = Some u → CompilationUnit.ops u !! i = Some op →
  variantAt (withOpVariant unit i v w) unit i = Some v.
Proof.
  intros Hu Hop. unfold variantAt.
  rewrite (withOpVariant_units_eq _ _ _ _ _ _ Hu Hop). simpl.
  rewrite list_lookup_insert_eq; [done|]. by eapply lookup_lt_Some.
Qed.

Lemma withOpVariant_twice w unit i v1 v2 :
  withOpVariant unit i v2 (withOpVariant unit i v1 w) = withOpVariant unit i v2 w.
Proof.
  destruct (units w !! unit) as [u|] eqn:Hu;
    [|unfold withOpVariant at 2; rewrite Hu; done].
  destruct (CompilationUnit.ops u !! i) as [op|] eqn:Hop;
    [|unfold withOpVariant at 2; rewrite Hu, Hop; done].
  pose proof (lookup_lt_Some _ _ _ Hop) as Hlt.
  unfold withOpVariant. rewrite Hu, Hop. simpl. rewrite lookup_insert_eq. simpl.
  rewrite list_lookup_insert_eq by done. simpl.
  by rewrite insert_insert_eq, list_insert_insert_eq.
Qed.

Lemma viewsGet_returns_xref {A} xref (k : N → M A) w :
  bind (viewsGet xref) k w = bind (viewsGet xref) (λ _, k xref) w.
Proof.
  unfold bind, viewsGet. destruct (units w !! xref) as [u|]; [|done].
  by destruct (CompilationUnit.isView u).
Qed.

(** *** Strings *)

Lemma append_cons c s t : String c s +:+ t = String c (s +:+ t).
Proof. reflexivity. Qed.

Lemma append_empty_l t : "" +:+ t = t.
Proof. reflexivity. Qed.

Lemma append_assoc a b c : (a +:+ b) +:+ c = a +:+ b +:+ c.
Proof. induction a as [|x a IH]; [done|]. by rewrite !append_cons, IH. Qed.

Lemma prefix_true_iff p s : String.prefix p s = true ↔ ∃ r, s = p +:+ r.
Proof.
  revert s. induction p as [|a p IH]; intros s; simpl.
  - destruct s; split; eauto.
  - destruct s as [|b s].
    + split; [done|]. intros [r Hr]. discriminate.
    + simpl. destruct (ascii_dec a b) as [Heq|Hne]; [subst b|].
      * rewrite IH. split; intros [r Hr]; exists r.
        -- by rewrite append_cons, Hr.
        -- rewrite append_cons in Hr. by injection Hr.
      * split; [done|]. intros [r Hr]. rewrite append_cons in Hr.
        injection Hr as ??. congruence.
Qed.

Lemma substring0_append p r : JS.substring0 (String.length p) (p +:+ r) = p.
Proof.
  induction p as [|c p IH]; simpl.
  - by destruct r.
  - by rewrite ?append_cons, IH.
Qed.

Lemma indexOf_unfold s needle :
  JS.indexOf s needle =
  if String.prefix needle s then 0%Z
  else match s with
       | "" => (-1)%Z
       | String _ s' =>
           if (JS.indexOf s' needle <? 0)%Z then (-1)%Z
           else (JS.indexOf s' needle + 1)%Z
       end.
Proof. by destruct s. Qed.

Lemma replace_unfold pat repl s :
  JS.replace pat repl s =
  if String.prefix pat s then repl +:+ JS.dropChars (String.length pat) s
  else match s with
       | "" => ""
       | String c s' => String c (JS.replace pat repl s')
       end.
Proof. by destruct s. Qed.

(** [indexOf] returns the position of the first occurrence. *)
Lemma indexOf_first s needle p r :
  s = p +:+ needle +:+ r →
  (∀ p' r', s = p' +:+ needle +:+ r' → (String.length p ≤ String.length p')%nat) →
  JS.indexOf s needle = Z.of_nat (String.length p).
Proof.
  revert s. induction p as [|c p IH]; intros s Hs Hmin.
  - assert (String.prefix needle s = true) as Hp.
    { apply prefix_true_iff. exists r. by rewrite Hs. }
    by rewrite indexOf_unfold, Hp.
  - rewrite append_cons in Hs. subst s. rewrite indexOf_unfold.
    destruct (String.prefix needle _) eqn:Hp.
    + apply prefix_true_iff in Hp as [r' Hr'].
      specialize (Hmin "" r' Hr'). simpl in Hmin. lia.
    + rewrite (IH (p +:+ needle +:+ r)); [|done|].
      * destruct (Z.ltb_spec (Z.of_nat (String.length p)) 0);
          simpl String.length; lia.
      * intros p' r' Hr'. specialize (Hmin (String c p') r').
        rewrite append_cons, Hr' in Hmin. specialize (Hmin eq_refl).
        simpl in Hmin. lia.
Qed.

(** [indexOf] returns [-1] when there is no occurrence. *)
Lemma indexOf_absent s needle :
  (∀ p r, s ≠ p +:+ needle +:+ r) → JS.indexOf s needle = (-1)%Z.
Proof.
  induction s as [|c s IH]; intros Hno; rewrite indexOf_unfold.
  - destruct (String.prefix needle "") eqn:Hp; [|done].
    apply prefix_true_iff in Hp as [r Hr]. by destruct (Hno "" r).
  - destruct (String.prefix needle (String c s)) eqn:Hp.
    + apply prefix_true_iff in Hp as [r Hr]. by destruct (Hno "" r).
    + rewrite IH; [done|]. intros p r ->. by destruct (Hno (String c p) r).
Qed.

Lemma stripImportant_first name before after :
  name = before +:+ "!important" +:+ after →
  (∀ b a, name = b +:+ "!important" +:+ a →
          (String.length before ≤ String.length b)%nat) →
  stripImportant name = before.
Proof.
  intros Hname Hmin. unfold stripImportant.
  rewrite (indexOf_first _ _ _ _ Hname Hmin).
  destruct (Z.gtb_spec (Z.of_nat (String.length before)) (-1)); [|lia].
  rewrite Nat2Z.id, Hname. apply substring0_append.
Qed.

Lemma stripImportant_absent name :
  (∀ b a, name ≠ b +:+ "!important" +:+ a) → stripImportant name = name.
Proof.
  intros Hno. unfold stripImportant. by rewrite (indexOf_absent _ _ Hno).
Qed.

Lemma normalizeStylePropName_custom name rest :
  name = "--" +:+ rest → normalizeStylePropName name = name.
Proof.
  intros Hname. unfold normalizeStylePropName, JS.startsWith.
  assert (String.prefix "--" name = true) as ->; [|done].
  apply prefix_true_iff. eauto.
Qed.

Lemma normalizeStylePropName_plain name :
  (∀ rest, name ≠ "--" +:+ rest) → normalizeStylePropName name = hyphenate name.
Proof.
  intros Hno. unfold normalizeStylePropName, JS.startsWith.
  destruct (String.prefix "--" name) eqn:Hp; [|done].
  apply prefix_true_iff in Hp as [r Hr]. by destruct (Hno r).
Qed.

Lemma mapChars_append f a b :
  JS.mapChars f (a +:+ b) = JS.mapChars f a +:+ JS.mapChars f b.
Proof. induction a as [|c a IH]; [done|]. simpl. by rewrite IH. Qed.

Lemma sanitizeIdentifier_append a b :
  sanitizeIdentifier (a +:+ b) = sanitizeIdentifier a +:+ sanitizeIdentifier b.
Proof. apply mapChars_append. Qed.

Example replace_stops_at_first_hyphen :
  JS.replace "-" "_" "my-big-el" = "my_big-el".
Proof. reflexivity. Qed.

(** After sanitization it does not show that [replace] with a string pattern
    stops at the first hyphen: the sanitizer turns the others into
    underscores as well. *)
Lemma sanitizeIdentifier_replace_hyphen tag :
  sanitizeIdentifier (JS.replace "-" "_" tag) = sanitizeIdentifier tag.
Proof.
  induction tag as [|c tag IH]; [done|].
  rewrite replace_unfold. destruct (String.prefix "-" (String c tag)) eqn:Hp.
  - apply prefix_true_iff in Hp as [r Hr]. injection Hr as -> ->. done.
  - unfold sanitizeIdentifier in *. simpl. by rewrite IH.
Qed.

Lemma sanitizeIdentifier_replaceAllHyphens tag :
  sanitizeIdentifier (replaceAllHyphens tag) = sanitizeIdentifier tag.
Proof.
  induction tag as [|c tag IH]; [done|].
  unfold sanitizeIdentifier, replaceAllHyphens in *. simpl. rewrite IH. f_equal.
  destruct (Ascii.eqb_spec c "-") as [->|Hne]; done.
Qed.

(** *** The variable name allocator, case by case *)

Lemma getVariableName_run (w : World) (variable : N) (v : SemanticVariable.t) :
  variables w !! variable = Some v →
  getVariableName variable w =
  match SemanticVariable.name v with
  | Some name => (Ok name, w)
  | None =>
      let name :=
        match SemanticVariable.kind v with
        | Context => "ctx_r" +:+ JS.toString (index w)
        | Identifier identifier => identifier +:+ "_r" +:+ JS.toString (index w + 1)
        | OtherVariable => "_r" +:+ JS.toString (index w + 1)
        end in
      (Ok name,
       mkWorld (units w)
         (<[variable := SemanticVariable.mk (SemanticVariable.kind v) (Some name)]>
            (variables w))
         (index w + 1))
  end.
Proof.
  intros Hv. unfold getVariableName, bind, getVariable. rewrite Hv.
  destruct v as [kind [name|]]; simpl; [done|].
  destruct kind; simpl; unfold setVariableName, bind, getVariable; simpl;
    by rewrite Hv.
Qed.

(** C5. [getVariableName] on a variable without a name: a [Context] variable
    is named [ctx_r<counter>] and the counter is incremented afterwards; an
    [Identifier] variable is named [<identifier>_r<counter + 1>] and any other
    variable [_r<counter + 1>], the counter being incremented first. On a
    variable that has a name it returns the name and changes nothing. *)
Theorem C5_getVariableName_by_kind (w : World) (variable : N) (v : SemanticVariable.t) :
  variables w !! variable = Some v →
  getVariableName variable w =
  match SemanticVariable.name v with
  | Some name => (Ok name, w)
  | None =>
      let name :=
        match SemanticVariable.kind v with
        | Context => "ctx_r" +:+ JS.toString (index w)
        | Identifier identifier => identifier +:+ "_r" +:+ JS.toString (index w + 1)
        | OtherVariable => "_r" +:+ JS.toString (index w + 1)
        end in
      (Ok name,
       mkWorld (units w)
         (<[variable := SemanticVariable.mk (SemanticVariable.kind v) (Some name)]>
            (variables w))
         (index w + 1))
  end.
Proof. apply getVariableName_run. Qed.

Lemma C5_getVariableName_by_kind_witness :
  getVariableName 7 (variableWorld Context None)
  = (Ok "ctx_r4", mkWorld ∅ (<[7 := SemanticVariable.mk Context (Some "ctx_r4")]>
                               {[ 7 := SemanticVariable.mk Context None ]}) 5)
  ∧ getVariableName 7 (variableWorld (Identifier "item") None)
    = (Ok "item_r5",
       mkWorld ∅ (<[7 := SemanticVariable.mk (Identifier "item") (Some "item_r5")]>
                    {[ 7 := SemanticVariable.mk (Identifier "item") None ]}) 5)
  ∧ getVariableName 7 (variableWorld OtherVariable None)
    = (Ok "_r5", mkWorld ∅ (<[7 := SemanticVariable.mk OtherVariable (Some "_r5")]>
                              {[ 7 := SemanticVariable.mk OtherVariable None ]}) 5)
  ∧ getVariableName 7 (variableWorld Context (Some "ctx_r0"))
    = (Ok "ctx_r0", variableWorld Context (Some "ctx_r0")).
Proof.
  split; [|split; [|split]].
  - exact (C5_getVariableName_by_kind (variableWorld Context None) 7 _ eq_refl).
  - exact (C5_getVariableName_by_kind (variableWorld (Identifier "item") None) 7 _ eq_refl).
  - exact (C5_getVariableName_by_kind (variableWorld OtherVariable None) 7 _ eq_refl).
  - exact (C5_getVariableName_by_kind (variableWorld Context (Some "ctx_r0")) 7 _ eq_refl).
Defined.

(** *** The cases of the switch *)

Ltac enter_nameOp Hu Hop Hvariant :=
  unfold nameOp;
  rewrite (bind_Ok _ _ _ _ _ (getOp_Some _ _ _ _ _ Hu Hop));
  rewrite Hvariant.

Lemma nameOp_Property recurse unit baseName compat varNames i w u op name :
  units w !! unit = Some u → CompilationUnit.ops u !! i = Some op →
  Op.variant op = Property name true →
  nameOp recurse unit baseName compat varNames i w
  = (Ok varNames, withOpVariant unit i (Property ("@" +:+ name) true) w).
Proof.
  intros Hu Hop Hvariant. enter_nameOp Hu Hop Hvariant.
  by rewrite (bind_Ok _ _ _ _ _ (setOpVariant_Some _ _ _ _ _ _ Hu Hop)).
Qed.

Lemma nameOp_HostProperty recurse unit baseName compat varNames i w u op name :
  units w !! unit = Some u → CompilationUnit.ops u !! i = Some op →
  Op.variant op = HostProperty name true →
  nameOp recurse unit baseName compat varNames i w
  = (Ok varNames, withOpVariant unit i (HostProperty ("@" +:+ name) true) w).
Proof.
  intros Hu Hop Hvariant. enter_nameOp Hu Hop Hvariant.
  by rewrite (bind_Ok _ _ _ _ _ (setOpVariant_Some _ _ _ _ _ _ Hu Hop)).
Qed.

Lemma nameOp_StyleProp recurse unit baseName compat varNames i w u op name :
  units w !! unit = Some u → CompilationUnit.ops u !! i = Some op →
  Op.variant op = StyleProp name →
  nameOp recurse unit baseName compat varNames i w
  = (Ok varNames,
     withOpVariant unit i
       (StyleProp (if compat then stripImportant (normalizeStylePropName name)
                   else normalizeStylePropName name)) w).
Proof.
  intros Hu Hop Hvariant. enter_nameOp Hu Hop Hvariant.
  by rewrite (bind_Ok _ _ _ _ _ (setOpVariant_Some _ _ _ _ _ _ Hu Hop)).
Qed.

Lemma nameOp_ClassProp recurse unit baseName compat varNames i w u op name :
  units w !! unit = Some u → CompilationUnit.ops u !! i = Some op →
  Op.variant op = ClassProp name →
  nameOp recurse unit baseName compat varNames i w
  = (Ok varNames,
     if compat then withOpVariant unit i (ClassProp (stripImportant name)) w else w).
Proof.
  intros Hu Hop Hvariant. enter_nameOp Hu Hop Hvariant. destruct compat; [|done].
  by rewrite (bind_Ok _ _ _ _ _ (setOpVariant_Some _ _ _ _ _ _ Hu Hop)).
Qed.

(** The op at position [i] after its fields have been overwritten. *)
Lemma withOpVariant_op w unit u i op v :
  units w !! unit = Some u → CompilationUnit.ops u !! i = Some op →
  ∃ u', units (withOpVariant unit i v w) !! unit = Some u'
        ∧ CompilationUnit.fnName u' = CompilationUnit.fnName u
        ∧ CompilationUnit.ops u' !! i = Some (Op.mk v (Op.expressions op)).
Proof.
  intros Hu Hop. eexists. split; [by apply withOpVariant_units_eq|]. simpl.
  split; [done|]. apply list_lookup_insert_eq. by eapply lookup_lt_Some.
Qed.

(** The listener case when the slot check passes and the unit has a name. *)
Lemma nameListener_view unit baseName i w u op l slot :
  units w !! unit = Some u →
  CompilationUnit.ops u !! i = Some op →
  ListenerOp.handlerFnName l = None → ListenerOp.hostListener l = false →
  ListenerOp.targetSlot l = Some slot →
  let animation := if ListenerOp.isAnimationListener l then "animation" else "" in
  let l' :=
    if ListenerOp.isAnimationListener l
    then ListenerOp.withName l
           ("@" +:+ ListenerOp.name l +:+ "." +:+
            JS.showNullable (ListenerOp.animationPhase l))
    else l in
  let w' := if ListenerOp.isAnimationListener l
            then withOpVariant unit i (Listener l') w else w in
  nameListener unit baseName i l w =
  match ListenerOp.tag l with
  | None => (Throw TypeError, w')
  | Some tag =>
      (Ok (),
       withOpVariant unit i
         (Listener
            (ListenerOp.withHandlerFnName l'
               (sanitizeIdentifier
                  (JS.showNullable (CompilationUnit.fnName u) +:+ "_" +:+ JS.replace "-" "_" tag +:+ "_" +:+ animation +:+
                   ListenerOp.name l' +:+ "_" +:+ JS.toString slot +:+ "_listener"))))
         w)
  end.
Proof.
  intros Hu Hop Hh Hhost Hslot. unfold nameListener.
  rewrite Hh, Hhost, Hslot. simpl negb. simpl andb. cbv iota.
  destruct l as [name tag host handler anim phase tslot]; simpl in *. subst.
  destruct anim; simpl.
  - destruct (withOpVariant_op w unit u i op
                (Listener (ListenerOp.withName
                   (ListenerOp.mk name tag false None true phase (Some slot))
                   ("@" +:+ name +:+ "." +:+ JS.showNullable phase))) Hu Hop)
      as (u' & Hu' & Hfn' & Hop').
    rewrite (bind_Ok _ _ _ _ _ (setOpVariant_Some _ _ _ _ _ _ Hu Hop)).
    unfold bind at 1. unfold bind at 1. rewrite (getUnit_Some _ _ _ Hu').
    destruct tag as [tag|]; simpl; [|done].
    rewrite (setOpVariant_Some _ _ _ _ _ _ Hu' Hop').
    by rewrite withOpVariant_twice, Hfn'.
  - unfold bind at 1. unfold ret at 1. unfold bind at 1. unfold bind at 1.
    rewrite (getUnit_Some _ _ _ Hu).
    destruct tag as [tag|]; simpl; [|done].
    by rewrite (setOpVariant_Some _ _ _ _ _ _ Hu Hop).
Qed.

(** C2. A view listener without a handler name, not an animation listener,
    with slot [slot] and tag [tag], in a unit named [fn]: its handler name
    becomes the sanitization of [<fn>_<tag>_<event>_<slot>_listener] where
    every hyphen of the tag is an underscore. *)
Theorem C2_view_listener_handler_name
    recurse unit baseName compat varNames i w u op l fn tag slot :
  units w !! unit = Some u → CompilationUnit.fnName u = Some fn →
  CompilationUnit.ops u !! i = Some op → Op.variant op = Listener l →
  ListenerOp.handlerFnName l = None → ListenerOp.hostListener l = false →
  ListenerOp.isAnimationListener l = false →
  ListenerOp.targetSlot l = Some slot → ListenerOp.tag l = Some tag →
  nameOp recurse unit baseName compat varNames i w
  = (Ok varNames,
     withOpVariant unit i
       (Listener
          (ListenerOp.withHandlerFnName l
             (sanitizeIdentifier
                (fn +:+ "_" +:+ replaceAllHyphens tag +:+ "_" +:+ ListenerOp.name l +:+
                 "_" +:+ JS.toString slot +:+ "_listener"))))
       w).
Proof.
  intros Hu Hfn Hop Hvariant Hh Hhost Hanim Hslot Htag.
  enter_nameOp Hu Hop Hvariant.
  pose proof (nameListener_view unit baseName i w u op l slot
                Hu Hop Hh Hhost Hslot) as Hl.
  rewrite Hanim, Htag, Hfn in Hl. simpl in Hl.
  rewrite (bind_Ok _ _ _ _ _ Hl). unfold ret. do 4 f_equal.
  rewrite !sanitizeIdentifier_append.
  by rewrite sanitizeIdentifier_replace_hyphen, sanitizeIdentifier_replaceAllHyphens.
Qed.

Lemma C2_view_listener_handler_name_witness :
  variantAt
    (nameOp (λ _ _, ret ()) 0 "Comp" false ∅ 0 (listenerWorld (Some "my-el") (Some 3))).2
    0 0
  = Some (Listener (ListenerOp.withHandlerFnName (sampleListener (Some "my-el") (Some 3))
                      "Comp_Template_my_el_click_3_listener"))
  ∧ variantAt
      (nameOp (λ _ _, ret ()) 0 "Comp" false ∅ 0
         (listenerWorld (Some "my-big-el") (Some 3))).2
      0 0
    = Some (Listener (ListenerOp.withHandlerFnName
                        (sampleListener (Some "my-big-el") (Some 3))
                        "Comp_Template_my_big_el_click_3_listener")).
Proof.
  split.
  - rewrite (C2_view_listener_handler_name (λ _ _, ret ()) 0 "Comp" false ∅ 0
               (listenerWorld (Some "my-el") (Some 3)) _ _
               (sampleListener (Some "my-el") (Some 3)) "Comp_Template" "my-el" 3
               eq_refl eq_refl eq_refl eq_refl eq_refl eq_refl eq_refl eq_refl eq_refl).
    reflexivity.
  - rewrite (C2_view_listener_handler_name (λ _ _, ret ()) 0 "Comp" false ∅ 0
               (listenerWorld (Some "my-big-el") (Some 3)) _ _
               (sampleListener (Some "my-big-el") (Some 3)) "Comp_Template" "my-big-el" 3
               eq_refl eq_refl eq_refl eq_refl eq_refl eq_refl eq_refl eq_refl eq_refl).
    reflexivity.
Defined.

(** C10. A view listener without a handler name whose slot is assigned: the
    case throws a [TypeError] exactly when the listener has no tag, and
    returns exactly when it has one. *)
Theorem C10_view_listener_needs_tag
    recurse unit baseName compat varNames i w u op l slot :
  units w !! unit = Some u →
  CompilationUnit.ops u !! i = Some op → Op.variant op = Listener l →
  ListenerOp.handlerFnName l = None → ListenerOp.hostListener l = false →
  ListenerOp.targetSlot l = Some slot →
  ((nameOp recurse unit baseName compat varNames i w).1 = Throw TypeError
   ↔ ListenerOp.tag l = None)
  ∧ ((nameOp recurse unit baseName compat varNames i w).1 = Ok varNames
     ↔ is_Some (ListenerOp.tag l)).
Proof.
  intros Hu Hop Hvariant Hh Hhost Hslot.
  enter_nameOp Hu Hop Hvariant.
  pose proof (nameListener_view unit baseName i w u op l slot
                Hu Hop Hh Hhost Hslot) as Hl.
  simpl in Hl. destruct (ListenerOp.tag l) as [tag|].
  - rewrite (bind_Ok _ _ _ _ _ Hl). simpl.
    split; split; try done; intros [? [=]].
  - rewrite (bind_Throw _ _ _ _ _ Hl). simpl.
    split; split; try done; intros [? [=]].
Qed.

Lemma C10_view_listener_needs_tag_witness :
  (nameOp (λ _ _, ret ()) 0 "Comp" false ∅ 0 (listenerWorld None (Some 3))).1
  = Throw TypeError.
Proof.
  apply (C10_view_listener_needs_tag (λ _ _, ret ()) 0 "Comp" false ∅ 0
           (listenerWorld None (Some 3)) _ _ (sampleListener None (Some 3)) 3
           eq_refl eq_refl eq_refl eq_refl eq_refl eq_refl).
  reflexivity.
Defined.

(** C9. A [Property] or [HostProperty] op flagged as an animation trigger:
    the case puts an [@] in front of whatever name the op has, so a second
    visit puts a second one. *)
Theorem C9_animation_trigger_prefix_repeats
    recurse unit baseName compat varNames i w u op name :
  units w !! unit = Some u → CompilationUnit.ops u !! i = Some op →
  let once := nameOp recurse unit baseName compat varNames i w in
  let twice := nameOp recurse unit baseName compat varNames i once.2 in
  (Op.variant op = Property name true →
   once = (Ok varNames, withOpVariant unit i (Property ("@" +:+ name) true) w)
   ∧ twice = (Ok varNames, withOpVariant unit i (Property ("@@" +:+ name) true) w))
  ∧ (Op.variant op = HostProperty name true →
     once = (Ok varNames, withOpVariant unit i (HostProperty ("@" +:+ name) true) w)
     ∧ twice = (Ok varNames,
                withOpVariant unit i (HostProperty ("@@" +:+ name) true) w)).
Proof.
  intros Hu Hop once twice. subst once twice. split; intros Hvariant.
  - rewrite (nameOp_Property _ _ _ _ _ _ _ _ _ _ Hu Hop Hvariant).
    split; [done|]. simpl.
    destruct (withOpVariant_op w unit u i op (Property ("@" +:+ name) true) Hu Hop)
      as (u' & Hu' & _ & Hop').
    rewrite (nameOp_Property _ _ _ _ _ _ _ _ _ _ Hu' Hop' eq_refl).
    by rewrite withOpVariant_twice.
  - rewrite (nameOp_HostProperty _ _ _ _ _ _ _ _ _ _ Hu Hop Hvariant).
    split; [done|]. simpl.
    destruct (withOpVariant_op w unit u i op (HostProperty ("@" +:+ name) true) Hu Hop)
      as (u' & Hu' & _ & Hop').
    rewrite (nameOp_HostProperty _ _ _ _ _ _ _ _ _ _ Hu' Hop' eq_refl).
    by rewrite withOpVariant_twice.
Qed.

Lemma C9_animation_trigger_prefix_repeats_witness :
  variantAt
    (nameOp (λ _ _, ret ()) 0 "Comp" false ∅ 0
       (nameOp (λ _ _, ret ()) 0 "Comp" false ∅ 0
          (bindingWorld (Property "expanded" true))).2).2 0 0
  = Some (Property "@@expanded" true)
  ∧ variantAt (phaseNaming 2 sampleJob).2 0 0 = Some (Property "@expanded" true)
  ∧ variantAt (phaseNaming 2 (jobAfter sampleJob (phaseNaming 2 sampleJob).2)).2 0 0
    = Some (Property "@@expanded" true).
Proof.
  destruct (C9_animation_trigger_prefix_repeats (λ _ _, ret ()) 0 "Comp" false ∅ 0
              (bindingWorld (Property "expanded" true)) _ _ "expanded"
              eq_refl eq_refl) as [HProperty _].
  destruct (HProperty eq_refl) as [_ Htwice]. simpl in Htwice.
  rewrite Htwice. split; [reflexivity|]. split; by vm_compute.
Defined.

(** *** The style and class normalizer *)

(** C8. [normalizeStylePropName] returns a name that starts with [--] as it
    is and hyphenates any other; [stripImportant] cuts a name at the first
    [!important] and returns a name without one as it is; the pass writes
    the normalized name (in compatibility mode, stripped) to a [StyleProp]
    op and, in compatibility mode only, the stripped name to a [ClassProp]
    op. *)
Theorem C8_style_and_class_names :
  (∀ name rest, name = "--" +:+ rest → normalizeStylePropName name = name)
  ∧ (∀ name, (∀ rest, name ≠ "--" +:+ rest) →
             normalizeStylePropName name = hyphenate name)
  ∧ (∀ name before after,
       name = before +:+ "!important" +:+ after →
       (∀ b a, name = b +:+ "!important" +:+ a →
               (String.length before ≤ String.length b)%nat) →
       stripImportant name = before)
  ∧ (∀ name, (∀ b a, name ≠ b +:+ "!important" +:+ a) → stripImportant name = name)
  ∧ (∀ recurse unit baseName compat varNames i w u op name,
       units w !! unit = Some u → CompilationUnit.ops u !! i = Some op →
       Op.variant op = StyleProp name →
       nameOp recurse unit baseName compat varNames i w
       = (Ok varNames,
          withOpVariant unit i
            (StyleProp (if compat then stripImportant (normalizeStylePropName name)
                        else normalizeStylePropName name)) w))
  ∧ (∀ recurse unit baseName compat varNames i w u op name,
       units w !! unit = Some u → CompilationUnit.ops u !! i = Some op →
       Op.variant op = ClassProp name →
       nameOp recurse unit baseName compat varNames i w
       = (Ok varNames,
          if compat then withOpVariant unit i (ClassProp (stripImportant name)) w
          else w))
  ∧ normalizeStylePropName "fontSize" = "font-size"
  ∧ normalizeStylePropName "--my-var" = "--my-var"
  ∧ stripImportant "color!important" = "color"
  ∧ stripImportant (normalizeStylePropName "color!important") = "color".
Proof.
  split; [exact normalizeStylePropName_custom|].
  split; [exact normalizeStylePropName_plain|].
  split; [exact stripImportant_first|].
  split; [exact stripImportant_absent|].
  split; [exact nameOp_StyleProp|].
  split; [exact nameOp_ClassProp|].
  by repeat split.
Qed.

(** *** A listener without a slot *)

Lemma nameOp_Listener_unassigned recurse unit baseName compat varNames i w u op l :
  units w !! unit = Some u → CompilationUnit.ops u !! i = Some op →
  Op.variant op = Listener l →
  ListenerOp.handlerFnName l = None → ListenerOp.hostListener l = false →
  ListenerOp.targetSlot l = None →
  nameOp recurse unit baseName compat varNames i w
  = (Throw ExpectedASlotToBeAssigned, w).
Proof.
  intros Hu Hop Hvariant Hh Hhost Hslot. enter_nameOp Hu Hop Hvariant.
  unfold nameListener. by rewrite Hh, Hhost, Hslot.
Qed.

Lemma seq_split_at i n :
  (i < n)%nat → seq 0 n = seq 0 i ++ i :: seq (S i) (n - S i).
Proof.
  intros Hlt. replace n with (i + S (n - S i))%nat at 1 by lia.
  by rewrite seq_app.
Qed.

(** C6. When the first loop of [addNamesToView] reaches, in heap [w_i], a
    view listener that has neither a handler name nor a slot, the call throws
    the slot error and the heap it leaves is [w_i]: the failing op has no
    handler name and nothing after it has been visited. *)
Theorem C6_listener_without_slot_aborts
    cpl fuel unit baseName compat w u i varNames w_i u_i op l :
  units w !! unit = Some u → (i < length (CompilationUnit.ops u))%nat →
  scanUpTo cpl fuel unit baseName compat i w = (Ok varNames, w_i) →
  units w_i !! unit = Some u_i → CompilationUnit.ops u_i !! i = Some op →
  Op.variant op = Listener l →
  ListenerOp.handlerFnName l = None → ListenerOp.hostListener l = false →
  ListenerOp.targetSlot l = None →
  addNamesToView cpl (S fuel) unit baseName compat w
  = (Throw ExpectedASlotToBeAssigned, w_i)
  ∧ variantAt w_i unit i = Some (Listener l).
Proof.
  intros Hu Hlt Hscan Hu_i Hop Hvariant Hh Hhost Hslot. split.
  - unfold scanUpTo in Hscan. simpl addNamesToView.
    rewrite (bind_Ok _ _ _ _ _ (getUnit_Some _ _ _ Hu)) in Hscan.
    rewrite (bind_Ok _ _ _ _ _ (getUnit_Some _ _ _ Hu)).
    apply bind_inv_Ok in Hscan as ([] & w1 & Hfn & Hloop).
    rewrite (bind_Ok _ _ _ _ _ Hfn).
    apply bind_Throw. rewrite (seq_split_at _ _ Hlt), foldM_app.
    rewrite (bind_Ok _ _ _ _ _ Hloop). simpl foldM.
    apply bind_Throw. by eapply nameOp_Listener_unassigned.
  - unfold variantAt. rewrite Hu_i. simpl. rewrite Hop. simpl. by rewrite Hvariant.
Qed.

Lemma C6_listener_without_slot_aborts_witness :
  let outcome := phaseNaming 1 slotlessJob in
  outcome.1 = Throw ExpectedASlotToBeAssigned
  ∧ variantAt outcome.2 0 0
    = Some (Listener (ListenerOp.withHandlerFnName (sampleListener (Some "a") (Some 1))
                        "Comp_Template_a_click_1_listener"))
  ∧ variantAt outcome.2 0 1 = Some (Listener (sampleListener (Some "b") None))
  ∧ variantAt outcome.2 0 2 = Some (Listener (sampleListener (Some "c") (Some 2))).
Proof.
  destruct (C6_listener_without_slot_aborts slotlessJob 0 0 "Comp" false
              (initialWorld slotlessJob) _ 1 ∅
              (scanUpTo slotlessJob 0 0 "Comp" false 1 (initialWorld slotlessJob)).2
              _ _ (sampleListener (Some "b") None)
              eq_refl ltac:(simpl; lia) eq_refl eq_refl eq_refl eq_refl eq_refl
              eq_refl eq_refl) as [Hrun Hop].
  intros outcome. subst outcome. unfold phaseNaming.
  change (root slotlessJob) with 0. change (componentName slotlessJob) with "Comp".
  change (isTemplateDefinitionBuilder (compatibility slotlessJob)) with false.
  rewrite Hrun. split; [done|]. split; [by vm_compute|]. split; [exact Hop|].
  by vm_compute.
Defined.

(** *** The backfill *)

Lemma backfillExpressions_None varNames es es' :
  backfillExpressions varNames es = (es', None) →
  es' = resolveRead varNames <$> es
  ∧ ∀ xref, ReadVariableExpr xref None ∈ es → is_Some (varNames !! xref).
Proof.
  revert es'. induction es as [|e es IH]; intros es' Hrun; simpl in Hrun.
  - injection Hrun as <-. split; [done|]. intros x Hx. by apply elem_of_nil in Hx.
  - destruct (backfillExpressions varNames es) as [r err] eqn:Hrest.
    destruct e as [x [n|]|]; simpl.
    + injection Hrun as <- ->. destruct (IH _ eq_refl) as [-> Hall].
      split; [done|]. intros y [[=]|Hy]%elem_of_cons. by apply Hall.
    + destruct (varNames !! x) as [n|] eqn:Hx; [|discriminate].
      injection Hrun as <- ->. destruct (IH _ eq_refl) as [-> Hall].
      split; [done|]. intros y [[= ->]|Hy]%elem_of_cons; [by rewrite Hx|].
      by apply Hall.
    + injection Hrun as <- ->. destruct (IH _ eq_refl) as [-> Hall].
      split; [done|]. intros y [[=]|Hy]%elem_of_cons. by apply Hall.
Qed.

Lemma backfillExpressions_Some varNames es es' xref :
  backfillExpressions varNames es = (es', Some xref) →
  ReadVariableExpr xref None ∈ es ∧ varNames !! xref = None.
Proof.
  revert es'. induction es as [|e es IH]; intros es' Hrun; simpl in Hrun;
    [discriminate|].
  destruct (backfillExpressions varNames es) as [r err] eqn:Hrest.
  destruct e as [x [n|]|].
  - injection Hrun as <- ->. destruct (IH _ eq_refl) as [Hin Hno].
    split; [by apply elem_of_cons; right|done].
  - destruct (varNames !! x) as [n|] eqn:Hx.
    + injection Hrun as <- ->. destruct (IH _ eq_refl) as [Hin Hno].
      split; [by apply elem_of_cons; right|done].
    + injection Hrun as <- <-. split; [by apply elem_of_cons; left|done].
  - injection Hrun as <- ->. destruct (IH _ eq_refl) as [Hin Hno].
    split; [by apply elem_of_cons; right|done].
Qed.

Lemma backfillExpressions_keeps_named varNames es j xref name :
  es !! j = Some (ReadVariableExpr xref (Some name)) →
  (backfillExpressions varNames es).1 !! j = Some (ReadVariableExpr xref (Some name)).
Proof.
  revert j. induction es as [|e es IH]; intros j Hj; [done|]. simpl.
  destruct (backfillExpressions varNames es) as [r err] eqn:Hrest. simpl in IH.
  destruct e as [x [n|]|]; [| destruct (varNames !! x) as [n|] |];
    destruct j as [|j]; simpl in *; try done; by apply IH.
Qed.

Lemma backfillOps_None varNames ops ops' :
  backfillOps varNames ops = (ops', None) →
  ops' = resolveOp varNames <$> ops
  ∧ ∀ i op xref, ops !! i = Some op → ReadVariableExpr xref None ∈ Op.expressions op →
                 is_Some (varNames !! xref).
Proof.
  revert ops'. induction ops as [|op ops IH]; intros ops' Hrun; simpl in Hrun.
  - injection Hrun as <-. split; [done|]. by intros [|i] ???.
  - destruct (backfillExpressions varNames (Op.expressions op)) as [es [x|]] eqn:Hes;
      [discriminate|].
    destruct (backfillOps varNames ops) as [r err] eqn:Hrest.
    injection Hrun as <- ->.
    destruct (backfillExpressions_None _ _ _ Hes) as [-> Hhere].
    destruct (IH _ eq_refl) as [-> Hrest'].
    split; [done|]. intros [|i] op' x Hi Hx; simpl in Hi.
    + injection Hi as <-. by apply Hhere.
    + by eapply Hrest'.
Qed.

Lemma backfillOps_Some varNames ops ops' xref :
  backfillOps varNames ops = (ops', Some xref) →
  (∃ i op, ops !! i = Some op ∧ ReadVariableExpr xref None ∈ Op.expressions op)
  ∧ varNames !! xref = None.
Proof.
  revert ops'. induction ops as [|op ops IH]; intros ops' Hrun; simpl in Hrun;
    [discriminate|].
  destruct (backfillExpressions varNames (Op.expressions op)) as [es [x|]] eqn:Hes.
  - injection Hrun as <- <-.
    destruct (backfillExpressions_Some _ _ _ _ Hes) as [Hin Hno].
    split; [|done]. by exists 0%nat, op.
  - destruct (backfillOps varNames ops) as [r err] eqn:Hrest.
    injection Hrun as <- ->. destruct (IH _ eq_refl) as [(i & op' & Hi & Hin) Hno].
    split; [|done]. by exists (S i), op'.
Qed.

Lemma backfillOps_keeps_named varNames ops i op j xref name :
  ops !! i = Some op →
  Op.expressions op !! j = Some (ReadVariableExpr xref (Some name)) →
  ∃ op', (backfillOps varNames ops).1 !! i = Some op'
         ∧ Op.expressions op' !! j = Some (ReadVariableExpr xref (Some name)).
Proof.
  revert i. induction ops as [|op0 ops IH]; intros i Hi Hj; [done|]. simpl.
  pose proof (backfillExpressions_keeps_named varNames (Op.expressions op0)) as Hhere.
  destruct (backfillExpressions varNames (Op.expressions op0)) as [es [x|]] eqn:Hes.
  - destruct i as [|i]; simpl in *.
    + injection Hi as ->. eexists. split; [done|]. simpl. by apply Hhere.
    + by exists op.
  - destruct (backfillOps varNames ops) as [r err] eqn:Hrest.
    destruct i as [|i]; simpl in *.
    + injection Hi as ->. eexists. split; [done|]. simpl. by apply Hhere.
    + by apply IH.
Qed.

Lemma backfill_run unit varNames w u :
  units w !! unit = Some u →
  backfill unit varNames w
  = (match (backfillOps varNames (CompilationUnit.ops u)).2 with
     | Some xref => Throw (VariableNotYetNamed xref)
     | None => Ok ()
     end,
     mkWorld
       (<[unit := CompilationUnit.mk (CompilationUnit.isView u) (CompilationUnit.fnName u)
                    (backfillOps varNames (CompilationUnit.ops u)).1]> (units w))
       (variables w) (index w)).
Proof.
  intros Hu. unfold backfill. rewrite (bind_Ok _ _ _ _ _ (getUnit_Some _ _ _ Hu)).
  destruct (backfillOps varNames (CompilationUnit.ops u)) as [ops err]. simpl.
  unfold setOps, bind. rewrite (getUnit_Some _ _ _ Hu). simpl. by destruct err.
Qed.

(** *** Every write of the phase is a write of [writes] *)

Lemma unitEvolves_refl u : unitEvolves u u.
Proof. by repeat split. Qed.

Lemma unitEvolves_trans u1 u2 u3 :
  unitEvolves u1 u2 → unitEvolves u2 u3 → unitEvolves u1 u3.
Proof.
  intros (Hv1 & Hf1 & Hs1) (Hv2 & Hf2 & Hs2). repeat split.
  - congruence.
  - auto.
  - congruence.
Qed.

Lemma rtc_writes_bind {A B} (m : M A) (k : A → M B) w :
  rtc writes w (m w).2 →
  (∀ a w1, m w = (Ok a, w1) → rtc writes w1 (k a w1).2) →
  rtc writes w (bind m k w).2.
Proof.
  intros Hm Hk. unfold bind. destruct (m w) as [[a|e] w1] eqn:Hrun; [|done].
  etrans; [exact Hm|]. by apply Hk.
Qed.

Lemma respects_bind {A B} (m : M A) (k : A → M B) :
  respects m → (∀ a, respects (k a)) → respects (bind m k).
Proof. intros Hm Hk w. apply rtc_writes_bind; [apply Hm|]. intros. apply Hk. Qed.

Lemma respects_ret {A} (a : A) : respects (ret a).
Proof. intros w. apply rtc_refl. Qed.

Lemma respects_throw {A} e : respects (@throw A e).
Proof. intros w. apply rtc_refl. Qed.

Lemma respects_foldM {A B} (f : A → B → M A) :
  (∀ a x, respects (f a x)) → ∀ a xs, respects (foldM f a xs).
Proof.
  intros Hf a xs. revert a. induction xs as [|x xs IH]; intros a; simpl.
  - apply respects_ret.
  - apply respects_bind; [apply Hf|]. intros a'. apply IH.
Qed.

Lemma getUnit_inv unit w r w1 :
  getUnit unit w = (r, w1) →
  w1 = w ∧ match r with Ok u => units w !! unit = Some u
                      | Throw e => e = TypeError ∧ units w !! unit = None end.
Proof.
  unfold getUnit. destruct (units w !! unit); intros [= <- <-]; auto.
Qed.

Lemma respects_getUnit unit : respects (getUnit unit).
Proof.
  intros w. destruct (getUnit unit w) as [r w1] eqn:Hrun.
  apply getUnit_inv in Hrun as [-> _]. apply rtc_refl.
Qed.

Lemma getOp_inv unit i w r w1 :
  getOp unit i w = (r, w1) →
  w1 = w ∧ match r with
           | Ok op => ∃ u, units w !! unit = Some u ∧ CompilationUnit.ops u !! i = Some op
           | Throw e => e = TypeError
           end.
Proof.
  unfold getOp, bind, getUnit. destruct (units w !! unit) as [u|] eqn:Hu.
  - destruct (CompilationUnit.ops u !! i) as [op|] eqn:Hop; intros [= <- <-]; eauto.
  - intros [= <- <-]; auto.
Qed.

Lemma viewsGet_inv xref w r w1 :
  viewsGet xref w = (r, w1) →
  w1 = w ∧ match r with
           | Ok x => x = xref ∧ ∃ u, units w !! xref = Some u
                                     ∧ CompilationUnit.isView u = true
           | Throw e => e = TypeError
           end.
Proof.
  unfold viewsGet. destruct (units w !! xref) as [u|] eqn:Hu.
  - destruct (CompilationUnit.isView u) eqn:Hview; intros [= <- <-]; eauto.
  - intros [= <- <-]; auto.
Qed.

Lemma respects_viewsGet xref : respects (viewsGet xref).
Proof.
  intros w. destruct (viewsGet xref w) as [r w1] eqn:Hrun.
  apply viewsGet_inv in Hrun as [-> _]. apply rtc_refl.
Qed.

Lemma skeletonOfOp_insert (ops : list Op.t) (i : nat) op v :
  ops !! i = Some op → skeletonOfVariant v = skeletonOfVariant (Op.variant op) →
  skeletonOfOp <$> <[i := Op.mk v (Op.expressions op)]> ops = skeletonOfOp <$> ops.
Proof.
  intros Hop Hv. rewrite list_fmap_insert. apply list_insert_id.
  rewrite list_lookup_fmap, Hop. simpl. unfold skeletonOfOp. simpl. by rewrite Hv.
Qed.

Lemma withOpVariant_writes w unit u i op v :
  units w !! unit = Some u → CompilationUnit.ops u !! i = Some op →
  skeletonOfVariant v = skeletonOfVariant (Op.variant op) →
  writes w (withOpVariant unit i v w).
Proof.
  intros Hu Hop Hv. unfold withOpVariant. rewrite Hu, Hop.
  apply (writes_unit _ _ _ _ Hu). repeat split; simpl; [done|].
  by apply skeletonOfOp_insert.
Qed.

Lemma setOpVariant_writes w unit u i op v :
  units w !! unit = Some u → CompilationUnit.ops u !! i = Some op →
  skeletonOfVariant v = skeletonOfVariant (Op.variant op) →
  rtc writes w (setOpVariant unit i v w).2.
Proof.
  intros Hu Hop Hv. rewrite (setOpVariant_Some _ _ _ _ _ _ Hu Hop). simpl.
  apply rtc_once. by eapply withOpVariant_writes.
Qed.

Lemma respects_getVariableName variable : respects (getVariableName variable).
Proof.
  intros w. destruct (variables w !! variable) as [v|] eqn:Hv.
  - rewrite (getVariableName_run _ _ _ Hv).
    destruct (SemanticVariable.name v) as [name|] eqn:Hname; [apply rtc_refl|].
    simpl. apply rtc_once. by apply (writes_variable _ _ _ Hv).
  - unfold getVariableName, bind, getVariable. rewrite Hv. apply rtc_refl.
Qed.

Lemma nameListener_writes unit baseName i w u op l :
  units w !! unit = Some u → CompilationUnit.ops u !! i = Some op →
  Op.variant op = Listener l →
  rtc writes w (nameListener unit baseName i l w).2.
Proof.
  intros Hu Hop Hvariant. unfold nameListener.
  destruct (ListenerOp.handlerFnName l) as [h|]; [apply rtc_refl|].
  destruct (negb _ && _); [apply rtc_refl|].
  set (renamed := ListenerOp.withName l _).
  set (l' := if ListenerOp.isAnimationListener l then renamed else l).
  assert (skeletonOfVariant (Listener l') = skeletonOfVariant (Op.variant op)) as Hl'.
  { rewrite Hvariant. subst l' renamed. by destruct (ListenerOp.isAnimationListener l). }
  assert (∃ w1 u1 op1,
            (if ListenerOp.isAnimationListener l
             then setOpVariant unit i (Listener l') else ret ()) w = (Ok (), w1)
            ∧ rtc writes w w1 ∧ units w1 !! unit = Some u1
            ∧ CompilationUnit.ops u1 !! i = Some op1
            ∧ skeletonOfVariant (Op.variant op1) = skeletonOfVariant (Op.variant op))
    as (w1 & u1 & op1 & Hfirst & Hw1 & Hu1 & Hop1 & Hsk1).
  { destruct (ListenerOp.isAnimationListener l).
    - destruct (withOpVariant_op w unit u i op (Listener l') Hu Hop) as (u1 & Hu1 & _ & Hop1).
      exists (withOpVariant unit i (Listener l') w), u1, (Op.mk (Listener l') (Op.expressions op)).
      split; [by eapply setOpVariant_Some|].
      split; [apply rtc_once; by eapply withOpVariant_writes|]. done.
    - exists w, u, op. split; [done|]. split; [apply rtc_refl|done]. }
  assert ((if ListenerOp.isAnimationListener l'
           then setOpVariant unit i (Listener l') else ret ()) w = (Ok (), w1)) as Hfirst'.
  { assert (ListenerOp.isAnimationListener l' = ListenerOp.isAnimationListener l)
      as ->; [|done].
    subst l' renamed. by destruct (ListenerOp.isAnimationListener l) eqn:Hanim. }
  rewrite (bind_Ok _ _ _ _ _ Hfirst'). etrans; [exact Hw1|].
  apply rtc_writes_bind.
  - destruct (ListenerOp.hostListener l'); [apply rtc_refl|].
    unfold bind. rewrite (getUnit_Some _ _ _ Hu1).
    destruct (ListenerOp.tag l'); apply rtc_refl.
  - intros h w2 Hh.
    assert (w2 = w1) as ->.
    { destruct (ListenerOp.hostListener l'); [by injection Hh|].
      unfold bind in Hh. rewrite (getUnit_Some _ _ _ Hu1) in Hh.
      destruct (ListenerOp.tag l'); by injection Hh. }
    apply (setOpVariant_writes _ _ _ _ _ _ Hu1 Hop1).
    rewrite Hsk1, <- Hl'. done.
Qed.

Lemma respects_nameOp recurse unit baseName compat varNames i :
  (∀ child base, respects (recurse child base)) →
  respects (nameOp recurse unit baseName compat varNames i).
Proof.
  intros Hrec w. unfold nameOp. apply rtc_writes_bind.
  { destruct (getOp unit i w) as [r w1] eqn:Hrun.
    apply getOp_inv in Hrun as [-> _]. apply rtc_refl. }
  intros op w1 [-> (u & Hu & Hop)]%getOp_inv.
  destruct (Op.variant op) as [name trig|name trig|l|xref variable
                               |xref emptyView suffix slot|xref suffix slot
                               |name|name|] eqn:Hvariant.
  - apply rtc_writes_bind; [|intros; apply rtc_refl].
    destruct trig; [|apply rtc_refl].
    apply (setOpVariant_writes _ _ _ _ _ _ Hu Hop). by rewrite Hvariant.
  - apply rtc_writes_bind; [|intros; apply rtc_refl].
    destruct trig; [|apply rtc_refl].
    apply (setOpVariant_writes _ _ _ _ _ _ Hu Hop). by rewrite Hvariant.
  - apply rtc_writes_bind; [|intros; apply rtc_refl].
    by eapply nameListener_writes.
  - apply respects_bind; [apply respects_getVariableName|].
    intros name. apply respects_ret.
  - apply respects_bind; [apply respects_getUnit|]. intros u'.
    destruct (negb _); [apply respects_throw|].
    destruct slot as [slot|]; [|apply respects_throw].
    apply respects_bind.
    { destruct emptyView as [emptyView|]; [|apply respects_ret].
      apply respects_bind; [apply respects_viewsGet|]. intros e. apply Hrec. }
    intros _. apply respects_bind; [apply respects_viewsGet|]. intros p.
    apply respects_bind; [apply Hrec|]. intros _. apply respects_ret.
  - apply respects_bind; [apply respects_getUnit|]. intros u'.
    destruct (negb _); [apply respects_throw|].
    destruct slot as [slot|]; [|apply respects_throw].
    apply respects_bind; [apply respects_viewsGet|]. intros c.
    apply respects_bind; [apply Hrec|]. intros _. apply respects_ret.
  - apply rtc_writes_bind; [|intros; apply rtc_refl].
    apply (setOpVariant_writes _ _ _ _ _ _ Hu Hop). by rewrite Hvariant.
  - apply rtc_writes_bind; [|intros; apply rtc_refl].
    destruct compat; [|apply rtc_refl].
    apply (setOpVariant_writes _ _ _ _ _ _ Hu Hop). by rewrite Hvariant.
  - apply rtc_refl.
Qed.

Lemma backfillExpressions_skeleton varNames es :
  skeletonOfExpression <$> (backfillExpressions varNames es).1
  = skeletonOfExpression <$> es.
Proof.
  induction es as [|e es IH]; [done|]. simpl.
  destruct (backfillExpressions varNames es) as [r err]. simpl in IH.
  destruct e as [x [n|]|]; [| destruct (varNames !! x) |]; simpl;
    try done; f_equal; exact IH.
Qed.

Lemma backfillOps_skeleton varNames ops :
  skeletonOfOp <$> (backfillOps varNames ops).1 = skeletonOfOp <$> ops.
Proof.
  induction ops as [|op ops IH]; [done|]. simpl.
  pose proof (backfillExpressions_skeleton varNames (Op.expressions op)) as Hes.
  destruct (backfillExpressions varNames (Op.expressions op)) as [es [x|]];
    simpl in Hes.
  - simpl. f_equal. unfold skeletonOfOp. simpl. f_equal. exact Hes.
  - destruct (backfillOps varNames ops) as [r err]. simpl in IH.
    simpl. f_equal; [|exact IH]. unfold skeletonOfOp. simpl. f_equal. exact Hes.
Qed.

Lemma respects_backfill unit varNames : respects (backfill unit varNames).
Proof.
  intros w. destruct (units w !! unit) as [u|] eqn:Hu.
  - rewrite (backfill_run _ _ _ _ Hu). simpl. apply rtc_once.
    apply (writes_unit _ _ _ _ Hu). repeat split; simpl; [done|].
    apply backfillOps_skeleton.
  - unfold backfill, bind, getUnit. rewrite Hu. apply rtc_refl.
Qed.

Lemma setFnName_writes unit fn w u :
  units w !! unit = Some u → CompilationUnit.fnName u = None →
  rtc writes w (setFnName unit fn w).2.
Proof.
  intros Hu Hfn. unfold setFnName, bind. rewrite (getUnit_Some _ _ _ Hu). simpl.
  apply rtc_once. apply (writes_unit _ _ _ _ Hu).
  split; [done|split; [|done]]. intros fn'. by rewrite Hfn.
Qed.

(** Whatever [addNamesToView] does to the heap, it does by writes of the
    phase. *)
Lemma respects_addNamesToView cpl fuel :
  ∀ unit baseName compat, respects (addNamesToView cpl fuel unit baseName compat).
Proof.
  induction fuel as [|fuel IH]; intros unit baseName compat; simpl.
  - apply respects_throw.
  - intros w. apply rtc_writes_bind; [apply respects_getUnit|].
    intros u w1 [-> Hu]%getUnit_inv.
    apply rtc_writes_bind.
    { destruct (CompilationUnit.fnName u) eqn:Hfn; [apply rtc_refl|].
      by eapply setFnName_writes. }
    intros _ w1 _. apply respects_bind.
    + apply respects_foldM. intros a x. apply respects_nameOp.
      intros child base. apply IH.
    + intros varNames. apply respects_backfill.
Qed.

(** *** What writes of the phase preserve *)

Lemma respects_run {A} (m : M A) w r w' :
  respects m → m w = (r, w') → rtc writes w w'.
Proof. intros Hm Hrun. specialize (Hm w). by rewrite Hrun in Hm. Qed.

Lemma writes_units w w' unit u :
  rtc writes w w' → units w !! unit = Some u →
  ∃ u', units w' !! unit = Some u' ∧ unitEvolves u u'.
Proof.
  intros Hrtc. revert u. induction Hrtc as [w|w w1 w' Hstep _ IH]; intros u Hu.
  - exists u. split; [done|apply unitEvolves_refl].
  - destruct Hstep as [w x ux ux' Hx Hev|w variable v Hv Hname]; simpl in IH.
    + destruct (decide (x = unit)) as [->|Hne].
      * destruct (IH ux') as (u' & Hu' & Hev'); [by rewrite lookup_insert_eq|].
        exists u'. split; [done|]. rewrite Hx in Hu. injection Hu as ->.
        by eapply unitEvolves_trans.
      * apply IH. by rewrite lookup_insert_ne.
    + by apply IH.
Qed.

Lemma writes_variables w w' variable v :
  rtc writes w w' → variables w !! variable = Some v →
  ∃ v', variables w' !! variable = Some v'
        ∧ SemanticVariable.kind v' = SemanticVariable.kind v
        ∧ (∀ name, SemanticVariable.name v = Some name →
                   SemanticVariable.name v' = Some name).
Proof.
  intros Hrtc. revert v. induction Hrtc as [w|w w1 w' Hstep _ IH]; intros v Hv.
  - by exists v.
  - destruct Hstep as [w x ux ux' Hx Hev|w y vy Hy Hname]; simpl in IH.
    + by apply IH.
    + destruct (decide (y = variable)) as [->|Hne].
      * rewrite Hy in Hv. injection Hv as ->.
        destruct (IH (SemanticVariable.mk (SemanticVariable.kind v)
                        (Some (allocatedName (SemanticVariable.kind v) (index w)))))
          as (v' & Hv' & Hkind & Hkeep); [by rewrite lookup_insert_eq|].
        exists v'. split; [done|]. split; [done|]. intros name. by rewrite Hname.
      * apply IH. by rewrite lookup_insert_ne.
Qed.

Lemma writes_index w w' : rtc writes w w' → index w ≤ index w'.
Proof.
  induction 1 as [w|w w1 w' Hstep _ IH]; [done|].
  destruct Hstep; simpl in IH; lia.
Qed.

Lemma writes_fnNameOf w w' unit fn :
  rtc writes w w' → fnNameOf w unit = Some fn → fnNameOf w' unit = Some fn.
Proof.
  intros Hrtc. unfold fnNameOf. destruct (units w !! unit) as [u|] eqn:Hu; [|done].
  simpl. intros Hfn. destruct (writes_units _ _ _ _ Hrtc Hu) as (u' & -> & _ & Hkeep & _).
  simpl. by apply Hkeep.
Qed.

Lemma writes_fnNameOf_is_Some w w' unit :
  rtc writes w w' → is_Some (fnNameOf w unit) → is_Some (fnNameOf w' unit).
Proof. intros Hrtc [fn Hfn]. exists fn. by eapply writes_fnNameOf. Qed.

Lemma skeletonOfVariant_refersTo v v' child :
  skeletonOfVariant v' = skeletonOfVariant v → refersTo v child → refersTo v' child.
Proof. destruct v, v'; simpl; try done; by intros [= -> -> -> ->] || intros [= -> -> ->]. Qed.

Lemma unitEvolves_op u u' i op :
  unitEvolves u u' → CompilationUnit.ops u !! i = Some op →
  ∃ op', CompilationUnit.ops u' !! i = Some op'
         ∧ skeletonOfVariant (Op.variant op') = skeletonOfVariant (Op.variant op).
Proof.
  intros (_ & _ & Hsk) Hop.
  assert ((skeletonOfOp <$> CompilationUnit.ops u') !! i = Some (skeletonOfOp op)) as Hi.
  { by rewrite Hsk, list_lookup_fmap, Hop. }
  rewrite list_lookup_fmap in Hi.
  destruct (CompilationUnit.ops u' !! i) as [op'|]; [|done].
  exists op'. split; [done|]. simpl in Hi. by injection Hi.
Qed.

Lemma writes_childOf w w' parent child :
  rtc writes w w' → childOf w parent child → childOf w' parent child.
Proof.
  intros Hrtc (u & i & op & Hu & Hop & Href).
  destruct (writes_units _ _ _ _ Hrtc Hu) as (u' & Hu' & Hev).
  destruct (unitEvolves_op _ _ _ _ Hev Hop) as (op' & Hop' & Hsk).
  exists u', i, op'. split; [done|]. split; [done|].
  by eapply skeletonOfVariant_refersTo.
Qed.

Lemma writes_reachableFrom w w' unit x :
  rtc writes w w' → reachableFrom w unit x → reachableFrom w' unit x.
Proof.
  intros Hrtc Hreach. induction Hreach as [|a b c Hab _ IH]; [apply rtc_refl|].
  eapply rtc_l; [|exact IH]. by eapply writes_childOf.
Qed.

Lemma writes_units_back w w' unit u' :
  rtc writes w w' → units w' !! unit = Some u' →
  ∃ u, units w !! unit = Some u ∧ unitEvolves u u'.
Proof.
  intros Hrtc. revert u'. induction Hrtc as [w|w w1 w' Hstep _ IH]; intros u' Hu'.
  - exists u'. split; [done|apply unitEvolves_refl].
  - destruct (IH _ Hu') as (u1 & Hu1 & Hev1).
    destruct Hstep as [w x ux ux' Hx Hev|w variable v Hv Hname]; simpl in Hu1.
    + destruct (decide (x = unit)) as [->|Hne].
      * rewrite lookup_insert_eq in Hu1. injection Hu1 as ->.
        exists ux. split; [done|]. by eapply unitEvolves_trans.
      * rewrite lookup_insert_ne in Hu1 by done. by exists u1.
    + by exists u1.
Qed.

Lemma unitEvolves_op_back u u' i op' :
  unitEvolves u u' → CompilationUnit.ops u' !! i = Some op' →
  ∃ op, CompilationUnit.ops u !! i = Some op
        ∧ skeletonOfVariant (Op.variant op) = skeletonOfVariant (Op.variant op').
Proof.
  intros (_ & _ & Hsk) Hop'.
  assert ((skeletonOfOp <$> CompilationUnit.ops u) !! i = Some (skeletonOfOp op')) as Hi.
  { by rewrite <- Hsk, list_lookup_fmap, Hop'. }
  rewrite list_lookup_fmap in Hi.
  destruct (CompilationUnit.ops u !! i) as [op|]; [|done].
  exists op. split; [done|]. simpl in Hi. by injection Hi.
Qed.

Lemma writes_childOf_back w w' parent child :
  rtc writes w w' → childOf w' parent child → childOf w parent child.
Proof.
  intros Hrtc (u' & i & op' & Hu' & Hop' & Href).
  destruct (writes_units_back _ _ _ _ Hrtc Hu') as (u & Hu & Hev).
  destruct (unitEvolves_op_back _ _ _ _ Hev Hop') as (op & Hop & Hsk).
  exists u, i, op. split; [done|]. split; [done|].
  by eapply skeletonOfVariant_refersTo.
Qed.

Lemma foldM_Ok_at {A B} (f : A → B → M A) a xs x ys w r w' :
  foldM f a (xs ++ x :: ys) w = (Ok r, w') →
  ∃ a1 w1 a2 w2, foldM f a xs w = (Ok a1, w1) ∧ f a1 x w1 = (Ok a2, w2)
                 ∧ foldM f a2 ys w2 = (Ok r, w').
Proof.
  rewrite foldM_app. intros (a1 & w1 & Hpre & Hrest)%bind_inv_Ok.
  simpl in Hrest. apply bind_inv_Ok in Hrest as (a2 & w2 & Hx & Hsuf).
  by exists a1, w1, a2, w2.
Qed.

(** A case that returns has made, and returned from, the recursive call for
    every view its op refers to. *)
Lemma nameOp_child_visited recurse unit baseName compat varNames i w a w' u op child :
  (∀ x b, respects (recurse x b)) →
  units w !! unit = Some u → CompilationUnit.ops u !! i = Some op →
  refersTo (Op.variant op) child →
  nameOp recurse unit baseName compat varNames i w = (Ok a, w') →
  ∃ base w1 w2, rtc writes w w1 ∧ recurse child base w1 = (Ok (), w2)
                ∧ rtc writes w2 w'.
Proof.
  intros Hrec Hu Hop Href. unfold nameOp.
  rewrite (bind_Ok _ _ _ _ _ (getOp_Some _ _ _ _ _ Hu Hop)).
  destruct (Op.variant op) as [| | | |xref emptyView suffix slot|xref suffix slot| | |];
    try done; simpl in Href.
  - rewrite (bind_Ok _ _ _ _ _ (getUnit_Some _ _ _ Hu)).
    destruct (negb _); [done|]. destruct slot as [slot|]; [|done].
    intros ([] & w1 & Hempty & Hprimary)%bind_inv_Ok.
    apply bind_inv_Ok in Hprimary as (p & w1' & [-> [-> _]]%viewsGet_inv & Hprimary).
    apply bind_inv_Ok in Hprimary as ([] & w2 & Hprimary & [= <- <-]).
    destruct Href as [-> | ->].
    + eexists _, w1, w2. split; [|split; [exact Hprimary|apply rtc_refl]].
      destruct emptyView as [e|]; [|injection Hempty as <-; apply rtc_refl].
      apply bind_inv_Ok in Hempty as (e' & w0 & [-> [-> _]]%viewsGet_inv & Hempty).
      by eapply respects_run.
    + apply bind_inv_Ok in Hempty as (e' & w0 & [-> [-> _]]%viewsGet_inv & Hempty).
      eexists _, w, w1. split; [apply rtc_refl|]. split; [exact Hempty|].
      by eapply respects_run.
  - rewrite (bind_Ok _ _ _ _ _ (getUnit_Some _ _ _ Hu)).
    destruct (negb _); [done|]. destruct slot as [slot|]; [|done]. subst xref.
    intros (c & w1 & [-> [-> _]]%viewsGet_inv & Hcall)%bind_inv_Ok.
    apply bind_inv_Ok in Hcall as ([] & w2 & Hcall & [= <- <-]).
    eexists _, w, w2. split; [apply rtc_refl|]. split; [exact Hcall|apply rtc_refl].
Qed.

(** *** Function names *)

(** The first statement of [addNamesToView]. *)
Lemma nameFunction_run unit fn w u r w1 :
  units w !! unit = Some u →
  match CompilationUnit.fnName u with
  | None => setFnName unit fn
  | Some _ => ret ()
  end w = (r, w1) →
  rtc writes w w1
  ∧ fnNameOf w1 unit = Some (default fn (CompilationUnit.fnName u)).
Proof.
  intros Hu. destruct (CompilationUnit.fnName u) as [fn0|] eqn:Hfn.
  - intros [= <- <-]. split; [apply rtc_refl|]. unfold fnNameOf. by rewrite Hu.
  - intros Hset. pose proof (setFnName_writes unit fn w u Hu Hfn) as Hw.
    rewrite Hset in Hw. split; [done|].
    unfold setFnName, bind in Hset. rewrite (getUnit_Some _ _ _ Hu) in Hset.
    injection Hset as <- <-. unfold fnNameOf. simpl. by rewrite lookup_insert_eq.
Qed.

(** A unit without a function name gets [sanitize(base_fnSuffix)] when it is
    visited, whatever happens afterwards. *)
Lemma addNamesToView_names_unit cpl fuel unit baseName compat w u :
  units w !! unit = Some u →
  fnNameOf (addNamesToView cpl (S fuel) unit baseName compat w).2 unit
  = Some (default (sanitizeIdentifier (baseName +:+ "_" +:+ fnSuffix cpl))
            (CompilationUnit.fnName u)).
Proof.
  intros Hu. simpl. rewrite (bind_Ok _ _ _ _ _ (getUnit_Some _ _ _ Hu)).
  match goal with
  | |- context [bind ?m _ w] => destruct (m w) as [r w1] eqn:Hfn
  end.
  unfold bind at 1. rewrite Hfn.
  destruct (nameFunction_run _ _ _ _ _ _ Hu Hfn) as [_ Hname].
  destruct r as [[]|e]; [|done].
  eapply writes_fnNameOf; [|exact Hname].
  apply (respects_bind
           (foldM (nameOp (λ child base, addNamesToView cpl fuel child base compat)
                     unit baseName compat) ∅ (seq 0 (length (CompilationUnit.ops u))))
           (λ varNames, backfill unit varNames)).
  - apply respects_foldM. intros a x. apply respects_nameOp.
    intros child base. apply respects_addNamesToView.
  - intros varNames. apply respects_backfill.
Qed.

(** When [addNamesToView] returns, every unit it could get to has a function
    name. *)
Lemma addNamesToView_names_reachable cpl fuel :
  ∀ unit baseName compat w w',
    addNamesToView cpl fuel unit baseName compat w = (Ok (), w') →
    ∀ x, reachableFrom w unit x → is_Some (fnNameOf w' x).
Proof.
  induction fuel as [|fuel IH]; intros unit baseName compat w w' Hrun; [done|].
  simpl in Hrun.
  apply bind_inv_Ok in Hrun as (u & w0 & [-> Hu]%getUnit_inv & Hrun).
  apply bind_inv_Ok in Hrun as ([] & w1 & Hfn & Hrun).
  apply bind_inv_Ok in Hrun as (varNames & w2 & Hloop & Hback).
  destruct (nameFunction_run _ _ _ _ _ _ Hu Hfn) as [Hw1 Hname].
  assert (∀ child base,
            respects (addNamesToView cpl fuel child base compat)) as Hrec.
  { intros child base. apply respects_addNamesToView. }
  pose proof (respects_run _ _ _ _ (respects_backfill unit varNames) Hback) as Hw'.
  intros x Hreach. apply rtc_inv in Hreach as [<-|(c & Hchild & Hrest)].
  - eapply writes_fnNameOf_is_Some; [exact Hw'|].
    eapply writes_fnNameOf_is_Some; [|by eexists].
    eapply respects_run; [|exact Hloop].
    apply respects_foldM. intros a y. by apply respects_nameOp.
  - destruct Hchild as (u0 & i & op & Hu0 & Hop & Href).
    rewrite Hu in Hu0. injection Hu0 as <-.
    rewrite (seq_split_at i _ (lookup_lt_Some _ _ _ Hop)) in Hloop.
    apply foldM_Ok_at in Hloop as (a1 & w_i & a2 & w_i' & Hpre & Hop_i & Hsuf).
    assert (rtc writes w w_i) as Hw_i.
    { etrans; [exact Hw1|]. eapply respects_run; [|exact Hpre].
      apply respects_foldM. intros a y. by apply respects_nameOp. }
    destruct (writes_units _ _ _ _ Hw_i Hu) as (u_i & Hu_i & Hev).
    destruct (unitEvolves_op _ _ _ _ Hev Hop) as (op_i & Hop_i' & Hsk).
    destruct (nameOp_child_visited _ _ _ _ _ _ _ _ _ _ _ c Hrec Hu_i Hop_i'
                (skeletonOfVariant_refersTo _ _ _ Hsk Href) Hop_i)
      as (base & wa & wb & Hwa & Hcall & Hwb).
    eapply writes_fnNameOf_is_Some; [exact Hw'|].
    eapply writes_fnNameOf_is_Some.
    { eapply respects_run; [|exact Hsuf].
      apply respects_foldM. intros a y. by apply respects_nameOp. }
    eapply writes_fnNameOf_is_Some; [exact Hwb|].
    eapply IH; [exact Hcall|].
    eapply writes_reachableFrom; [|exact Hrest]. by etrans.
Qed.

(** *** The units the traversal does not get to *)

Lemma writes_reachableFrom_back w w' unit x :
  rtc writes w w' → reachableFrom w' unit x → reachableFrom w unit x.
Proof.
  intros Hrtc Hreach. induction Hreach as [|a b c Hab _ IH]; [apply rtc_refl|].
  eapply rtc_l; [|exact IH]. by eapply writes_childOf_back.
Qed.

Lemma bind_keeps_unit {A B} (m : M A) (k : A → M B) w x :
  units (m w).2 !! x = units w !! x →
  (∀ a w1, m w = (Ok a, w1) → units (k a w1).2 !! x = units w1 !! x) →
  units (bind m k w).2 !! x = units w !! x.
Proof.
  intros Hm Hk. unfold bind. destruct (m w) as [[a|e] w1] eqn:Hrun; simpl in *.
  - by rewrite (Hk _ _ eq_refl).
  - done.
Qed.

Lemma setOpVariant_keeps_unit unit i v w x :
  unit ≠ x → units (setOpVariant unit i v w).2 !! x = units w !! x.
Proof.
  intros Hne. destruct (units w !! unit) as [u|] eqn:Hu.
  - destruct (CompilationUnit.ops u !! i) as [op|] eqn:Hop.
    + rewrite (setOpVariant_Some _ _ _ _ _ _ Hu Hop). unfold withOpVariant.
      rewrite Hu, Hop. simpl. by rewrite lookup_insert_ne.
    + unfold setOpVariant. rewrite (bind_Ok _ _ _ _ _ (getUnit_Some _ _ _ Hu)).
      unfold bind at 1. unfold getOp.
      rewrite (bind_Ok _ _ _ _ _ (getUnit_Some _ _ _ Hu)). by rewrite Hop.
  - unfold setOpVariant, bind, getUnit. by rewrite Hu.
Qed.

Lemma nameListener_keeps_unit unit baseName i l w x :
  unit ≠ x → units (nameListener unit baseName i l w).2 !! x = units w !! x.
Proof.
  intros Hne. unfold nameListener. destruct (ListenerOp.handlerFnName l); [done|].
  destruct (negb _ && _); [done|].
  apply bind_keeps_unit.
  { destruct (ListenerOp.isAnimationListener _); [|done].
    by apply setOpVariant_keeps_unit. }
  intros _ w1 _. apply bind_keeps_unit.
  { destruct (ListenerOp.hostListener _); [done|].
    unfold bind, getUnit. destruct (units w1 !! unit); [|done].
    by destruct (ListenerOp.tag _). }
  intros h w2 _. by apply setOpVariant_keeps_unit.
Qed.

Lemma getVariableName_keeps_units variable w :
  units (getVariableName variable w).2 = units w.
Proof.
  destruct (variables w !! variable) as [v|] eqn:Hv.
  - rewrite (getVariableName_run _ _ _ Hv). by destruct (SemanticVariable.name v).
  - unfold getVariableName, bind, getVariable. by rewrite Hv.
Qed.

Lemma viewsGet_keeps_units xref w : (viewsGet xref w).2 = w.
Proof.
  unfold viewsGet. destruct (units w !! xref) as [u|]; [|done].
  by destruct (CompilationUnit.isView u).
Qed.

(** A case of the switch writes to the unit of the op and, through the
    recursive calls, to what these write to. *)
Lemma nameOp_keeps_unit recurse unit baseName compat varNames i w x :
  unit ≠ x →
  (∀ c b, respects (recurse c b)) →
  (∀ child base w1, rtc writes w w1 → childOf w unit child →
                    units (recurse child base w1).2 !! x = units w1 !! x) →
  units (nameOp recurse unit baseName compat varNames i w).2 !! x = units w !! x.
Proof.
  intros Hne Hresp Hrec. unfold nameOp. apply bind_keeps_unit.
  { unfold getOp, bind, getUnit. destruct (units w !! unit) as [u|]; [|done].
    by destruct (CompilationUnit.ops u !! i). }
  intros op w1 [-> (u & Hu & Hop)]%getOp_inv.
  pose proof (λ v, setOpVariant_keeps_unit unit i v w x Hne) as Hset.
  destruct (Op.variant op) as [n trig|n trig|l|xref variable
                               |xref emptyView suffix slot|xref suffix slot
                               |n|n|] eqn:Hvariant.
  - apply bind_keeps_unit; [|done]. destruct trig; [apply Hset|done].
  - apply bind_keeps_unit; [|done]. destruct trig; [apply Hset|done].
  - apply bind_keeps_unit; [|done]. by apply nameListener_keeps_unit.
  - apply bind_keeps_unit; [|done]. by rewrite getVariableName_keeps_units.
  - rewrite (bind_Ok _ _ _ _ _ (getUnit_Some _ _ _ Hu)).
    destruct (negb _); [done|]. destruct slot as [slot|]; [|done].
    apply bind_keeps_unit.
    { destruct emptyView as [e|]; [|done].
      apply bind_keeps_unit; [by rewrite viewsGet_keeps_units|].
      intros e' w1 [-> [-> _]]%viewsGet_inv.
      apply Hrec; [apply rtc_refl|]. exists u, i, op. rewrite Hvariant. simpl. auto. }
    intros [] w1 Hempty.
    assert (rtc writes w w1) as Hw1.
    { destruct emptyView as [e|]; [|injection Hempty as <-; apply rtc_refl].
      eapply respects_run; [|exact Hempty].
      apply respects_bind; [apply respects_viewsGet|]. intros e'. apply Hresp. }
    apply bind_keeps_unit; [by rewrite viewsGet_keeps_units|].
    intros p w2 [-> [-> _]]%viewsGet_inv.
    apply bind_keeps_unit; [|done].
    apply Hrec; [done|]. exists u, i, op. rewrite Hvariant. simpl. auto.
  - rewrite (bind_Ok _ _ _ _ _ (getUnit_Some _ _ _ Hu)).
    destruct (negb _); [done|]. destruct slot as [slot|]; [|done].
    apply bind_keeps_unit; [by rewrite viewsGet_keeps_units|].
    intros p w2 [-> [-> _]]%viewsGet_inv.
    apply bind_keeps_unit; [|done].
    apply Hrec; [apply rtc_refl|]. exists u, i, op. rewrite Hvariant. by simpl.
  - apply bind_keeps_unit; [|done]. apply Hset.
  - apply bind_keeps_unit; [|done]. destruct compat; [apply Hset|done].
  - done.
Qed.

Lemma foldM_nameOp_keeps_unit recurse unit baseName compat w x :
  unit ≠ x →
  (∀ c b, respects (recurse c b)) →
  (∀ child base w1, rtc writes w w1 → childOf w unit child →
                    units (recurse child base w1).2 !! x = units w1 !! x) →
  ∀ indices varNames w1,
    rtc writes w w1 →
    units (foldM (nameOp recurse unit baseName compat) varNames indices w1).2 !! x
    = units w1 !! x.
Proof.
  intros Hne Hresp Hrec indices.
  induction indices as [|i indices IH]; intros varNames w1 Hw1; [done|]. simpl.
  apply bind_keeps_unit.
  - apply nameOp_keeps_unit; [done|done|]. intros child base w2 Hw2 Hchild.
    apply Hrec; [by etrans|]. by eapply writes_childOf_back.
  - intros varNames' w2 Hop. apply IH. etrans; [exact Hw1|].
    eapply respects_run; [|exact Hop]. by apply respects_nameOp.
Qed.

Lemma backfill_keeps_unit unit varNames w x :
  unit ≠ x → units (backfill unit varNames w).2 !! x = units w !! x.
Proof.
  intros Hne. destruct (units w !! unit) as [u|] eqn:Hu.
  - rewrite (backfill_run _ _ _ _ Hu). simpl. by rewrite lookup_insert_ne.
  - unfold backfill, bind, getUnit. by rewrite Hu.
Qed.

(** Whatever its outcome, [addNamesToView] leaves a unit that the traversal
    cannot get to from [unit] as it is. *)
Lemma addNamesToView_keeps_unreachable cpl fuel :
  ∀ unit baseName compat w x,
    ¬ reachableFrom w unit x →
    units (addNamesToView cpl fuel unit baseName compat w).2 !! x = units w !! x.
Proof.
  induction fuel as [|fuel IH]; intros unit baseName compat w x Hfar; [done|].
  assert (unit ≠ x) as Hne.
  { intros ->. apply Hfar, rtc_refl. }
  simpl. apply bind_keeps_unit.
  { unfold getUnit. by destruct (units w !! unit). }
  intros u w0 [-> Hu]%getUnit_inv. apply bind_keeps_unit.
  { destruct (CompilationUnit.fnName u); [done|].
    unfold setFnName, bind. rewrite (getUnit_Some _ _ _ Hu). simpl.
    by rewrite lookup_insert_ne. }
  intros [] w1 Hfn. destruct (nameFunction_run _ _ _ _ _ _ Hu Hfn) as [Hw1 _].
  apply bind_keeps_unit.
  - apply (foldM_nameOp_keeps_unit _ _ _ _ w); [done| | |done].
    + intros c b. apply respects_addNamesToView.
    + intros child base w2 Hw2 Hchild. apply IH. intros Hreach. apply Hfar.
      eapply rtc_l; [exact Hchild|]. by eapply writes_reachableFrom_back.
  - intros varNames w2 _. by apply backfill_keeps_unit.
Qed.

(** C7 as stated fails: in [orphanJob] the pass completes and the unit that no
    op refers to still has no function name. *)
Lemma C7_counterexample_unreferenced_unit :
  ¬ (∀ cpl fuel w',
       phaseNaming fuel cpl = (Ok (), w') →
       ∀ x, is_Some (jobUnits cpl !! x) → is_Some (fnNameOf w' x)).
Proof.
  intros Hall.
  destruct (Hall orphanJob 1%nat (phaseNaming 1 orphanJob).2 eq_refl 1) as [fn Hfn].
  - by eexists.
  - vm_compute in Hfn. discriminate.
Qed.

(** C7, amended. When the pass completes, every unit that the traversal gets
    to from the root through [Template] and [RepeaterCreate] ops has a
    function name; a function name that was there is still there; a unit
    visited without a name gets [sanitize(base_fnSuffix)]; a second run
    keeps every function name of the first; and a unit that the traversal
    does not get to from the root is the unit it was, so it keeps the
    function name it had, a null one too. *)
Theorem C7_visited_units_get_function_names cpl fuel w' :
  phaseNaming fuel cpl = (Ok (), w') →
  (∀ x, reachableFrom (initialWorld cpl) (root cpl) x → is_Some (fnNameOf w' x))
  ∧ (∀ x fn, fnNameOf (initialWorld cpl) x = Some fn → fnNameOf w' x = Some fn)
  ∧ (∀ fuel1 unit baseName compat w u,
       units w !! unit = Some u →
       fnNameOf (addNamesToView cpl (S fuel1) unit baseName compat w).2 unit
       = Some (default (sanitizeIdentifier (baseName +:+ "_" +:+ fnSuffix cpl))
                 (CompilationUnit.fnName u)))
  ∧ (∀ fuel2 x fn,
       fnNameOf w' x = Some fn →
       fnNameOf (phaseNaming fuel2 (jobAfter cpl w')).2 x = Some fn)
  ∧ (∀ x, ¬ reachableFrom (initialWorld cpl) (root cpl) x →
          units w' !! x = jobUnits cpl !! x
          ∧ fnNameOf w' x = fnNameOf (initialWorld cpl) x).
Proof.
  intros Hrun. split; [|split; [|split; [|split]]].
  - by eapply addNamesToView_names_reachable.
  - intros x fn. apply writes_fnNameOf.
    eapply respects_run; [apply respects_addNamesToView|exact Hrun].
  - intros fuel1 unit baseName compat w u. apply addNamesToView_names_unit.
  - intros fuel2 x fn Hfn. unfold phaseNaming.
    eapply writes_fnNameOf; [apply respects_addNamesToView|exact Hfn].
  - intros x Hfar.
    pose proof (addNamesToView_keeps_unreachable cpl fuel (root cpl) (componentName cpl)
                  (isTemplateDefinitionBuilder (compatibility cpl)) _ x Hfar) as Hkept.
    fold (phaseNaming fuel cpl) in Hkept. rewrite Hrun in Hkept. simpl in Hkept.
    split; [exact Hkept|]. unfold fnNameOf. simpl. by rewrite Hkept.
Qed.

Lemma C7_visited_units_get_function_names_witness :
  fnNameOf (phaseNaming 2 sampleJob).2 0 = Some "Comp_Template"
  ∧ fnNameOf (phaseNaming 2 sampleJob).2 1 = Some "Comp_ng_template_4_Template"
  ∧ is_Some (fnNameOf (phaseNaming 2 sampleJob).2 2)
  ∧ is_Some (fnNameOf (phaseNaming 2 sampleJob).2 3)
  ∧ fnNameOf (phaseNaming 2 (jobAfter sampleJob (phaseNaming 2 sampleJob).2)).2 1
    = Some "Comp_ng_template_4_Template"
  ∧ fnNameOf (phaseNaming 1 orphanJob).2 0 = Some "Comp_Template"
  ∧ fnNameOf (phaseNaming 1 orphanJob).2 1 = None.
Proof.
  assert (fnNameOf (phaseNaming 1 orphanJob).2 1 = None) as Horphan.
  { destruct (C7_visited_units_get_function_names orphanJob 1 (phaseNaming 1 orphanJob).2)
      as (_ & _ & _ & _ & Hfar); [by vm_compute|].
    destruct (Hfar 1) as [_ ->]; [|done].
    intros [[=]|(c & (u & i & op & Hu & Hop & _) & _)]%rtc_inv.
    vm_compute in Hu. injection Hu as <-. by destruct i. }
  destruct (C7_visited_units_get_function_names sampleJob 2 (phaseNaming 2 sampleJob).2)
    as (Hreach & Hkeep & Hvisit & Hagain & _); [by vm_compute|].
  split; [by vm_compute|]. split; [by vm_compute|].
  split.
  { apply Hreach. eapply rtc_l; [|apply rtc_refl].
    exists sampleRoot, 5%nat, (Op.mk (RepeaterCreate 2 (Some 3) "For" (Some 5)) []).
    split; [done|]. split; [done|]. by left. }
  split.
  { apply Hreach. eapply rtc_l; [|apply rtc_refl].
    exists sampleRoot, 5%nat, (Op.mk (RepeaterCreate 2 (Some 3) "For" (Some 5)) []).
    split; [done|]. split; [done|]. by right. }
  split; [apply Hagain; by vm_compute|].
  split; [by vm_compute|exact Horphan].
Defined.

(** *** Names of variables *)

Lemma string_of_uint_allDigits d : allDigits (NilEmpty.string_of_uint d) = true.
Proof. induction d; simpl; auto. Qed.

Lemma toString_allDigits n : allDigits (JS.toString n) = true.
Proof. apply string_of_uint_allDigits. Qed.

Lemma toString_inj n m : JS.toString n = JS.toString m → n = m.
Proof.
  unfold JS.toString. intros Heq. apply DecimalN.Unsigned.to_uint_inj.
  assert (Some (N.to_uint n) = Some (N.to_uint m)) as Hsome; [|by injection Hsome].
  by rewrite <- !NilEmpty.usu, Heq.
Qed.

Lemma allDigits_append x c y :
  allDigits (x +:+ String c y) = true → JS.isDigit c = true.
Proof.
  induction x as [|a x IH]; simpl.
  - by intros [? _]%andb_true_iff.
  - intros [_ ?]%andb_true_iff. auto.
Qed.

Ltac normalize_append_in H :=
  repeat (progress (rewrite ?append_cons, ?append_empty_l in H)).

(** A name [<prefix>_r<number>] determines its prefix and its number. *)
Lemma allocated_name_decompose a b d1 d2 :
  allDigits d1 = true → allDigits d2 = true →
  a +:+ "_r" +:+ d1 = b +:+ "_r" +:+ d2 → a = b ∧ d1 = d2.
Proof.
  intros Hd1 Hd2. revert b.
  induction a as [|x a IH]; intros [|y b] Heq; normalize_append_in Heq.
  - injection Heq as ->. done.
  - injection Heq as <- Heq.
    destruct b as [|z b]; normalize_append_in Heq; [discriminate|].
    injection Heq as <- ->. by apply allDigits_append in Hd1.
  - injection Heq as -> Heq.
    destruct a as [|z a]; normalize_append_in Heq; [discriminate|].
    injection Heq as -> <-. by apply allDigits_append in Hd2.
  - injection Heq as -> Heq. destruct (IH _ Heq) as [-> ->]. done.
Qed.

Lemma allocatedName_format kind idx :
  allocatedName kind idx
  = prefixOfKind kind +:+ "_r" +:+ JS.toString (if isContext kind then idx else idx + 1).
Proof. by destruct kind. Qed.

Lemma prefixOfKind_ctx kind :
  isContext kind = false → prefixOfKind kind = "ctx" → kind = Identifier "ctx".
Proof. destruct kind; simpl; try done. by intros _ ->. Qed.

Lemma names_clash_only_with_ctx k1 n1 k2 n2 :
  prefixOfKind k1 +:+ "_r" +:+ JS.toString n1
  = prefixOfKind k2 +:+ "_r" +:+ JS.toString n2 →
  (isContext k1 = isContext k2 ∧ n1 = n2) ∨ contextAndCtx k1 k2.
Proof.
  intros [Hprefix Hn%toString_inj]%allocated_name_decompose;
    [|apply toString_allDigits..].
  destruct (isContext k1) eqn:H1, (isContext k2) eqn:H2; auto.
  - right. left. destruct k1; try done. split; [done|].
    by apply prefixOfKind_ctx.
  - right. right. destruct k2; try done. split; [|done].
    by apply prefixOfKind_ctx.
Qed.

Lemma namedSince_writes_unit w0 w unit u' variable name :
  namedSince w0 (mkWorld (<[unit := u']> (units w)) (variables w) (index w)) variable name
  ↔ namedSince w0 w variable name.
Proof. done. Qed.

(** Naming [variable] leaves every other variable as it was. *)
Lemma namedSince_other w0 w variable v' idx other name :
  other ≠ variable →
  namedSince w0 (mkWorld (units w) (<[variable := v']> (variables w)) idx) other name
  ↔ namedSince w0 w other name.
Proof.
  intros Hne. unfold namedSince, nameOfVariable. simpl.
  by rewrite lookup_insert_ne.
Qed.

Lemma names_invariant_step w0 w w1 :
  numbersBelowCounter w0 w ∧ distinctUpToCtx w0 w → writes w w1 →
  numbersBelowCounter w0 w1 ∧ distinctUpToCtx w0 w1.
Proof.
  intros Hinv Hstep.
  destruct Hstep as [w' unit u u' Hu Hev|w' y vy Hy Hunnamed]; [exact Hinv|].
  destruct Hinv as [Hbelow Hdistinct].
  set (kind := SemanticVariable.kind vy).
  set (w1 := mkWorld _ _ _).
  assert (∀ other name, other ≠ y →
            namedSince w0 w1 other name ↔ namedSince w0 w' other name) as Hother.
  { intros other name Hne. by apply namedSince_other. }
  assert (∀ other, other ≠ y → kindOfVariable w1 other = kindOfVariable w' other)
    as Hkind_other.
  { intros other Hne. unfold kindOfVariable. simpl. by rewrite lookup_insert_ne. }
  assert (kindOfVariable w1 y = Some kind) as Hkind_y.
  { unfold kindOfVariable. simpl. by rewrite lookup_insert_eq. }
  assert (∀ name, namedSince w0 w1 y name → name = allocatedName kind (index w'))
    as Hname_y.
  { intros name (_ & _ & Hname). unfold nameOfVariable in Hname. simpl in Hname.
    rewrite lookup_insert_eq in Hname. simpl in Hname. by injection Hname. }
  assert (∀ other name kind',
            other ≠ y → namedSince w0 w1 other name → namedSince w0 w1 y name →
            kindOfVariable w1 other = Some kind' →
            contextAndCtx kind' kind ∧ contextAndCtx kind kind') as Hfresh.
  { intros other name kind' Hne Hnamed Hnamed_y Hkind'.
    apply Hname_y in Hnamed_y. apply Hother in Hnamed; [|done].
    rewrite Hkind_other in Hkind' by done.
    destruct (Hbelow _ _ Hnamed) as (kind'' & k & Hkind'' & Hname & Hrange).
    rewrite Hkind' in Hkind''. injection Hkind'' as <-.
    rewrite Hnamed_y, allocatedName_format in Hname.
    apply names_clash_only_with_ctx in Hname as [[Hclass <-]|Hclash].
    - rewrite <- Hclass in Hrange. destruct (isContext kind); lia.
    - split; [|done]. destruct Hclash as [[??]|[??]]; [by right|by left]. }
  split.
  - intros variable name Hnamed. destruct (decide (variable = y)) as [->|Hne].
    + exists kind, (if isContext kind then index w' else index w' + 1).
      split; [done|]. split.
      * rewrite (Hname_y _ Hnamed). apply allocatedName_format.
      * simpl. destruct (isContext kind); lia.
    + apply Hother in Hnamed; [|done].
      destruct (Hbelow _ _ Hnamed) as (kind' & k & Hkind' & Hname & Hrange).
      exists kind', k. rewrite Hkind_other by done. split; [done|]. split; [done|].
      simpl. destruct (isContext kind'); lia.
  - intros v1 v2 name k1 k2 Hne H1 H2 Hk1 Hk2.
    destruct (decide (v1 = y)) as [->|Hne1]; [|destruct (decide (v2 = y)) as [->|Hne2]].
    + rewrite Hkind_y in Hk1. injection Hk1 as <-.
      by apply (Hfresh v2 name k2).
    + rewrite Hkind_y in Hk2. injection Hk2 as <-.
      by apply (Hfresh v1 name k1).
    + apply (Hdistinct v1 v2 name); [done|by apply Hother|by apply Hother|..].
      * by rewrite <- Hkind_other.
      * by rewrite <- Hkind_other.
Qed.

Lemma names_invariant w0 w :
  rtc writes w0 w → numbersBelowCounter w0 w ∧ distinctUpToCtx w0 w.
Proof.
  revert w. apply rtc_ind_r.
  - split.
    + intros variable name (_ & Hnone & Hsome). congruence.
    + intros v1 v2 name k1 k2 _ (_ & Hnone & Hsome). congruence.
  - intros w w1 _ Hstep IH. by eapply names_invariant_step.
Qed.

(** C1 as stated fails: in [ctxJob] the variable declared as [ctx] and the
    context variable that follows it are both named [ctx_r1]. *)
Lemma C1_counterexample_ctx_identifier :
  ¬ (∀ cpl fuel v1 v2 n1 n2,
       v1 ≠ v2 →
       namedSince (initialWorld cpl) (phaseNaming fuel cpl).2 v1 n1 →
       namedSince (initialWorld cpl) (phaseNaming fuel cpl).2 v2 n2 →
       n1 ≠ n2).
Proof.
  intros Hall.
  apply (Hall ctxJob 1%nat 100 101 "ctx_r1" "ctx_r1");
    [done| | |done]; (split; [by eexists|by vm_compute]).
Qed.

(** C1. The allocator breaks the uniqueness of names on [ctxJob], a view that
    declares an identifier variable called [ctx] and then its context
    variable: the pass returns, both variables get their names during the
    run, and both names are [ctx_r1], the first from the counter after its
    increment and the second from the counter before its increment. *)
Lemma C1_ctx_identifier_collides :
  let w' := (phaseNaming 1 ctxJob).2 in
  (phaseNaming 1 ctxJob).1 = Ok ()
  ∧ kindOfVariable (initialWorld ctxJob) 100 = Some (Identifier "ctx")
  ∧ kindOfVariable (initialWorld ctxJob) 101 = Some Context
  ∧ namedSince (initialWorld ctxJob) w' 100 "ctx_r1"
  ∧ namedSince (initialWorld ctxJob) w' 101 "ctx_r1"
  ∧ index w' = 2.
Proof.
  intros w'. subst w'.
  split; [by vm_compute|]. split; [reflexivity|]. split; [reflexivity|].
  split; [|split].
  - split; [by eexists|]. by vm_compute.
  - split; [by eexists|]. by vm_compute.
  - by vm_compute.
Qed.

(** X21. The extent of the collision: two distinct semantic variables that
    get their names during one run of the pass get the same name only if one
    of them is a context variable and the other an identifier variable whose
    identifier is [ctx]; any other two get distinct names. *)
Theorem X21_names_distinct_up_to_ctx cpl fuel v1 v2 name k1 k2 :
  v1 ≠ v2 →
  namedSince (initialWorld cpl) (phaseNaming fuel cpl).2 v1 name →
  namedSince (initialWorld cpl) (phaseNaming fuel cpl).2 v2 name →
  kindOfVariable (initialWorld cpl) v1 = Some k1 →
  kindOfVariable (initialWorld cpl) v2 = Some k2 →
  contextAndCtx k1 k2.
Proof.
  intros Hne H1 H2 Hk1 Hk2.
  assert (rtc writes (initialWorld cpl) (phaseNaming fuel cpl).2) as Hrtc.
  { apply respects_addNamesToView. }
  destruct (names_invariant _ _ Hrtc) as [_ Hdistinct].
  assert (∀ v k, kindOfVariable (initialWorld cpl) v = Some k →
                 kindOfVariable (phaseNaming fuel cpl).2 v = Some k) as Hkind.
  { intros v k. unfold kindOfVariable.
    destruct (variables (initialWorld cpl) !! v) as [sv|] eqn:Hv; [|done].
    destruct (writes_variables _ _ _ _ Hrtc Hv) as (sv' & -> & Hkind & _).
    simpl. by rewrite Hkind. }
  by apply (Hdistinct v1 v2 name k1 k2); auto.
Qed.

Lemma X21_names_distinct_up_to_ctx_witness :
  contextAndCtx (Identifier "ctx") Context.
Proof.
  apply (X21_names_distinct_up_to_ctx ctxJob 1 100 101 "ctx_r1").
  - done.
  - split; [by eexists|]. by vm_compute.
  - split; [by eexists|]. by vm_compute.
  - reflexivity.
  - reflexivity.
Defined.

(** *** Recursion into the branches of a repeater *)

Lemma nameOp_RepeaterCreate
    recurse unit baseName compat varNames i w u op xref emptyView suffix slot :
  units w !! unit = Some u → CompilationUnit.isView u = true →
  CompilationUnit.ops u !! i = Some op →
  Op.variant op = RepeaterCreate xref emptyView suffix (Some slot) →
  nameOp recurse unit baseName compat varNames i w
  = (match emptyView with
     | Some emptyView =>
         viewsGet emptyView ;;
         recurse emptyView
           (baseName +:+ "_" +:+ suffix +:+ "Empty" +:+ "_" +:+ JS.toString (slot + 2))
     | None => ret ()
     end ;;
     viewsGet xref ;;
     recurse xref (baseName +:+ "_" +:+ suffix +:+ "_" +:+ JS.toString (slot + 1)) ;;
     ret varNames) w.
Proof.
  intros Hu Hview Hop Hvariant. enter_nameOp Hu Hop Hvariant.
  rewrite (bind_Ok _ _ _ _ _ (getUnit_Some _ _ _ Hu)). rewrite Hview.
  change (negb true) with false. cbv iota. rewrite append_assoc.
  apply bind_ext_at.
  - destruct emptyView as [emptyView|]; [|done].
    apply (viewsGet_returns_xref emptyView (λ e, recurse e _)).
  - intros _ w1.
    apply (viewsGet_returns_xref xref (λ p, recurse p _ ;; ret varNames)).
Qed.

Lemma viewsGet_Some w xref u :
  units w !! xref = Some u → CompilationUnit.isView u = true →
  viewsGet xref w = (Ok xref, w).
Proof. intros Hu Hview. unfold viewsGet. by rewrite Hu, Hview. Qed.

(** A view without a function name that is visited first gets the name made
    from the base name it is visited with. *)
Lemma visit_first_names_view {A} cpl fuel compat child base (rest : M A) w u :
  units w !! child = Some u → CompilationUnit.isView u = true →
  CompilationUnit.fnName u = None → respects rest →
  fnNameOf ((viewsGet child ;; addNamesToView cpl (S fuel) child base compat ;; rest) w).2
    child
  = Some (sanitizeIdentifier (base +:+ "_" +:+ fnSuffix cpl)).
Proof.
  intros Hu Hview Hfn Hrest.
  rewrite (bind_Ok _ _ _ _ _ (viewsGet_Some _ _ _ Hu Hview)).
  pose proof (addNamesToView_names_unit cpl fuel child base compat w u Hu) as Hname.
  rewrite Hfn in Hname. simpl default in Hname. unfold bind.
  destruct (addNamesToView cpl (S fuel) child base compat w) as [[[]|e] w1]; [|done].
  eapply writes_fnNameOf; [apply Hrest|exact Hname].
Qed.

(** C3. A [RepeaterCreate] op with slot [slot] in a view: the case is the
    recursion into the empty view, if the op has one, with base name
    [<base>_<suffix>Empty_<slot + 2>], followed by the recursion into the
    primary view with base name [<base>_<suffix>_<slot + 1>]. An empty view
    without a function name is named from the first base name, and without an
    empty view a primary view without a function name is named from the
    second. *)
Theorem C3_repeater_recursion
    recurse unit baseName compat varNames i w u op xref emptyView suffix slot :
  units w !! unit = Some u → CompilationUnit.isView u = true →
  CompilationUnit.ops u !! i = Some op →
  Op.variant op = RepeaterCreate xref emptyView suffix (Some slot) →
  let emptyBase :=
    baseName +:+ "_" +:+ suffix +:+ "Empty" +:+ "_" +:+ JS.toString (slot + 2) in
  let primaryBase := baseName +:+ "_" +:+ suffix +:+ "_" +:+ JS.toString (slot + 1) in
  nameOp recurse unit baseName compat varNames i w
  = (match emptyView with
     | Some emptyView => viewsGet emptyView ;; recurse emptyView emptyBase
     | None => ret ()
     end ;;
     viewsGet xref ;;
     recurse xref primaryBase ;;
     ret varNames) w
  ∧ (slot = 5 →
     (∃ front, emptyBase = front +:+ "_7") ∧ (∃ front, primaryBase = front +:+ "_6"))
  ∧ (∀ cpl fuel child uc,
       recurse = (λ child base, addNamesToView cpl (S fuel) child base compat) →
       units w !! child = Some uc → CompilationUnit.isView uc = true →
       CompilationUnit.fnName uc = None →
       (emptyView = Some child →
        fnNameOf (nameOp recurse unit baseName compat varNames i w).2 child
        = Some (sanitizeIdentifier (emptyBase +:+ "_" +:+ fnSuffix cpl)))
       ∧ (emptyView = None → xref = child →
          fnNameOf (nameOp recurse unit baseName compat varNames i w).2 child
          = Some (sanitizeIdentifier (primaryBase +:+ "_" +:+ fnSuffix cpl)))).
Proof.
  intros Hu Hview Hop Hvariant emptyBase primaryBase.
  pose proof (nameOp_RepeaterCreate recurse unit baseName compat varNames i w u op
                xref emptyView suffix slot Hu Hview Hop Hvariant) as Heq.
  fold emptyBase primaryBase in Heq.
  split; [exact Heq|]. split.
  - intros ->. split.
    + exists (baseName +:+ "_" +:+ suffix +:+ "Empty"). subst emptyBase.
      by rewrite !append_assoc.
    + exists (baseName +:+ "_" +:+ suffix). subst primaryBase.
      by rewrite !append_assoc.
  - intros cpl fuel child uc -> Huc Hviewc Hfnc. rewrite Heq.
    assert (∀ x b, respects (addNamesToView cpl (S fuel) x b compat)) as Hrec.
    { intros x b. apply respects_addNamesToView. }
    split.
    + intros ->. rewrite bind_assoc_at.
      eapply visit_first_names_view; [done..|].
      apply respects_bind; [apply respects_viewsGet|]. intros _.
      apply respects_bind; [apply Hrec|]. intros _. apply respects_ret.
    + intros -> ->. rewrite (bind_Ok _ _ _ _ _ (eq_refl : ret () w = (Ok (), w))).
      eapply visit_first_names_view; [done..|]. apply respects_ret.
Qed.

Lemma C3_repeater_recursion_witness :
  let outcome :=
    nameOp (λ child base, addNamesToView sampleJob 1 child base true)
      0 "Comp" true ∅ 5 (initialWorld sampleJob) in
  outcome.1 = Ok ∅
  ∧ fnNameOf outcome.2 3 = Some "Comp_ForEmpty_7_Template"
  ∧ fnNameOf outcome.2 2 = Some "Comp_For_6_Template".
Proof.
  destruct (C3_repeater_recursion
              (λ child base, addNamesToView sampleJob 1 child base true)
              0 "Comp" true ∅ 5 (initialWorld sampleJob) _ _ 2 (Some 3) "For" 5
              eq_refl eq_refl eq_refl eq_refl) as (Heq & Hslot & Hnames).
  destruct (Hnames sampleJob 0%nat 3 _ eq_refl eq_refl eq_refl eq_refl) as [Hempty _].
  intros outcome. subst outcome. split; [|split].
  - rewrite Heq. by vm_compute.
  - exact (Hempty eq_refl).
  - by vm_compute.
Defined.

(** *** The table of the first loop *)

Lemma writes_declaredAs w w' unit xref name :
  rtc writes w w' → declaredAs w unit xref name → declaredAs w' unit xref name.
Proof.
  intros Hrtc (u & i & op & variable & Hu & Hop & Hvariant & Hname).
  destruct (writes_units _ _ _ _ Hrtc Hu) as (u' & Hu' & Hev).
  destruct (unitEvolves_op _ _ _ _ Hev Hop) as (op' & Hop' & Hsk).
  exists u', i, op', variable. split; [done|]. split; [done|]. split.
  - rewrite Hvariant in Hsk. by destruct (Op.variant op').
  - unfold nameOfVariable in *.
    destruct (variables w !! variable) as [v|] eqn:Hv; [|done].
    destruct (writes_variables _ _ _ _ Hrtc Hv) as (v' & -> & _ & Hkeep).
    simpl in *. by apply Hkeep.
Qed.

Lemma getVariableName_names variable w name w' :
  getVariableName variable w = (Ok name, w') →
  units w' = units w ∧ nameOfVariable w' variable = Some name.
Proof.
  destruct (variables w !! variable) as [v|] eqn:Hv.
  - rewrite (getVariableName_run _ _ _ Hv). unfold nameOfVariable.
    destruct (SemanticVariable.name v) as [n|] eqn:Hn; intros [= <- <-]; simpl.
    + by rewrite Hv.
    + by rewrite lookup_insert_eq.
  - unfold getVariableName, bind, getVariable. by rewrite Hv.
Qed.

(** What a case of the switch makes of the table: nothing, unless the op is
    a [Variable] op, whose xref then maps to the name of its variable. *)
Lemma nameOp_table recurse unit baseName compat varNames i w varNames' w' :
  nameOp recurse unit baseName compat varNames i w = (Ok varNames', w') →
  varNames' = varNames
  ∨ ∃ u op xref variable name,
      units w !! unit = Some u ∧ CompilationUnit.ops u !! i = Some op
      ∧ Op.variant op = VariableOp xref variable
      ∧ getVariableName variable w = (Ok name, w')
      ∧ varNames' = <[xref := name]> varNames.
Proof.
  unfold nameOp.
  intros (op & w1 & [-> (u & Hu & Hop)]%getOp_inv & Hrun)%bind_inv_Ok.
  destruct (Op.variant op) as [n trig|n trig|l|xref variable
                               |xref emptyView suffix slot|xref suffix slot
                               |n|n|] eqn:Hvariant.
  - apply bind_inv_Ok in Hrun as (? & ? & _ & [= <- _]). by left.
  - apply bind_inv_Ok in Hrun as (? & ? & _ & [= <- _]). by left.
  - apply bind_inv_Ok in Hrun as (? & ? & _ & [= <- _]). by left.
  - apply bind_inv_Ok in Hrun as (name & w2 & Hname & [= <- <-]).
    right. by exists u, op, xref, variable, name.
  - apply bind_inv_Ok in Hrun as (? & ? & _ & Hrun).
    destruct (negb _); [done|]. destruct slot; [|done].
    apply bind_inv_Ok in Hrun as (? & ? & _ & Hrun).
    apply bind_inv_Ok in Hrun as (? & ? & _ & Hrun).
    apply bind_inv_Ok in Hrun as (? & ? & _ & [= <- _]). by left.
  - apply bind_inv_Ok in Hrun as (? & ? & _ & Hrun).
    destruct (negb _); [done|]. destruct slot; [|done].
    apply bind_inv_Ok in Hrun as (? & ? & _ & Hrun).
    apply bind_inv_Ok in Hrun as (? & ? & _ & [= <- _]). by left.
  - apply bind_inv_Ok in Hrun as (? & ? & _ & [= <- _]). by left.
  - apply bind_inv_Ok in Hrun as (? & ? & _ & [= <- _]). by left.
  - injection Hrun as <- _. by left.
Qed.

Lemma foldM_nameOp_table recurse unit baseName compat indices :
  (∀ x b, respects (recurse x b)) →
  ∀ varNames w varNames' w',
    foldM (nameOp recurse unit baseName compat) varNames indices w
    = (Ok varNames', w') →
    (∀ xref name, varNames !! xref = Some name → declaredAs w unit xref name) →
    ∀ xref name, varNames' !! xref = Some name → declaredAs w' unit xref name.
Proof.
  intros Hrec. induction indices as [|i indices IH];
    intros varNames w varNames' w' Hrun Htable; simpl in Hrun.
  - by injection Hrun as <- <-.
  - apply bind_inv_Ok in Hrun as (varNames1 & w1 & Hop & Hrest).
    apply (IH _ _ _ _ Hrest).
    pose proof (respects_run _ _ _ _
                  (respects_nameOp recurse unit baseName compat varNames i Hrec) Hop)
      as Hw1.
    intros xref name Hlookup.
    destruct (nameOp_table _ _ _ _ _ _ _ _ _ Hop)
      as [->|(u & op & x & variable & n & Hu & Hi & Hvariant & Hname & ->)].
    + eapply writes_declaredAs; [exact Hw1|]. by apply Htable.
    + destruct (decide (x = xref)) as [->|Hne].
      * rewrite lookup_insert_eq in Hlookup. injection Hlookup as ->.
        destruct (getVariableName_names _ _ _ _ Hname) as [Hunits Hnamed].
        exists u, i, op, variable. by rewrite Hunits.
      * rewrite lookup_insert_ne in Hlookup by done.
        eapply writes_declaredAs; [exact Hw1|]. by apply Htable.
Qed.

Lemma backfill_of_reads unit varNames w u :
  units w !! unit = Some u →
  let outcome := backfill unit varNames w in
  ((∃ xref, outcome.1 = Throw (VariableNotYetNamed xref))
   ↔ (∃ xref, hasUnnamedRead u xref ∧ varNames !! xref = None))
  ∧ (outcome.1 = Ok () ∨ ∃ xref, outcome.1 = Throw (VariableNotYetNamed xref))
  ∧ (outcome.1 = Ok () →
     outcome.2
     = mkWorld
         (<[unit := CompilationUnit.mk (CompilationUnit.isView u)
                      (CompilationUnit.fnName u)
                      (resolveOp varNames <$> CompilationUnit.ops u)]> (units w))
         (variables w) (index w)
     ∧ ∀ xref, hasUnnamedRead u xref → is_Some (varNames !! xref))
  ∧ (∀ i j xref name,
       expressionAt w unit i j = Some (ReadVariableExpr xref (Some name)) →
       expressionAt outcome.2 unit i j = Some (ReadVariableExpr xref (Some name))).
Proof.
  intros Hu outcome. subst outcome.
  rewrite (backfill_run _ _ _ _ Hu). simpl.
  destruct (backfillOps varNames (CompilationUnit.ops u)) as [ops [x|]] eqn:Hrun; simpl.
  - destruct (backfillOps_Some _ _ _ _ Hrun) as [Hread Hno].
    split; [split; eauto|]. split; [eauto|]. split; [done|].
    intros i j y n. unfold expressionAt. rewrite Hu. simpl. rewrite lookup_insert_eq. simpl.
    destruct (CompilationUnit.ops u !! i) as [op|] eqn:Hi; [|done]. simpl. intros Hj.
    destruct (backfillOps_keeps_named varNames _ _ _ _ _ _ Hi Hj) as (op' & Hi' & Hj').
    rewrite Hrun in Hi'. simpl in Hi'. by rewrite Hi'.
  - destruct (backfillOps_None _ _ _ Hrun) as [-> Hall].
    assert (∀ xref, hasUnnamedRead u xref → is_Some (varNames !! xref)) as Hall'.
    { intros y (i & op & Hi & Hy). by eapply Hall. }
    split.
    { split; [by intros [? [=]]|]. intros (y & Hy & Hno).
      apply Hall' in Hy as [? Hy]. congruence. }
    split; [by left|]. split; [done|].
    intros i j y n. unfold expressionAt. rewrite Hu. simpl. rewrite lookup_insert_eq. simpl.
    rewrite list_lookup_fmap.
    destruct (CompilationUnit.ops u !! i) as [op|] eqn:Hi; [|done]. simpl.
    rewrite list_lookup_fmap. by intros ->.
Qed.

(** When [addNamesToView] returns, it has run its first loop through all ops
    and then the backfill with the table of that loop: each read that the
    loop left without a name carries the entry of that table for its xref,
    which is the name of a variable that the unit declares with that xref. *)
Lemma addNamesToView_backfills_scan cpl fuel unit baseName compat w0 w' :
  addNamesToView cpl (S fuel) unit baseName compat w0 = (Ok (), w') →
  ∃ u0 table w2,
    units w0 !! unit = Some u0
    ∧ scanUpTo cpl fuel unit baseName compat (length (CompilationUnit.ops u0)) w0
      = (Ok table, w2)
    ∧ backfill unit table w2 = (Ok (), w')
    ∧ (∀ xref name, table !! xref = Some name → declaredAs w' unit xref name)
    ∧ (∀ i j xref,
         expressionAt w2 unit i j = Some (ReadVariableExpr xref None) →
         ∃ name, table !! xref = Some name
                 ∧ expressionAt w' unit i j = Some (ReadVariableExpr xref (Some name))
                 ∧ declaredAs w' unit xref name)
    ∧ (∀ i j xref name,
         expressionAt w2 unit i j = Some (ReadVariableExpr xref (Some name)) →
         expressionAt w' unit i j = Some (ReadVariableExpr xref (Some name))).
Proof.
  intros Hrun. simpl in Hrun.
  apply bind_inv_Ok in Hrun as (u & w0' & [-> Hu]%getUnit_inv & Hrun).
  apply bind_inv_Ok in Hrun as ([] & w1 & Hfn & Hrun).
  apply bind_inv_Ok in Hrun as (table & w2 & Hloop & Hback).
  assert (∀ xref name, table !! xref = Some name → declaredAs w' unit xref name) as Hdecl.
  { intros xref name Hlookup. eapply writes_declaredAs.
    { eapply respects_run; [apply respects_backfill|exact Hback]. }
    eapply foldM_nameOp_table; [|exact Hloop| |exact Hlookup].
    - intros x b. apply respects_addNamesToView.
    - intros x n. by rewrite lookup_empty. }
  exists u, table, w2. split; [done|]. split.
  { unfold scanUpTo. rewrite (bind_Ok _ _ _ _ _ (getUnit_Some _ _ _ Hu)).
    by rewrite (bind_Ok _ _ _ _ _ Hfn). }
  split; [done|]. split; [done|].
  destruct (nameFunction_run _ _ _ _ _ _ Hu Hfn) as [Hw1 _].
  assert (rtc writes w0 w2) as Hw2.
  { etrans; [exact Hw1|]. eapply respects_run; [|exact Hloop].
    apply respects_foldM. intros a y. apply respects_nameOp.
    intros x b. apply respects_addNamesToView. }
  destruct (writes_units _ _ _ _ Hw2 Hu) as (u2 & Hu2 & _).
  pose proof (backfill_of_reads unit table w2 u2 Hu2) as Hreads.
  cbv zeta in Hreads. rewrite Hback in Hreads. simpl in Hreads.
  destruct Hreads as (_ & _ & Hok & Hkept). destruct (Hok eq_refl) as [Hw' Hall].
  split; [|exact Hkept].
  intros i j xref Hread. unfold expressionAt in Hread. rewrite Hu2 in Hread.
  simpl in Hread.
  destruct (CompilationUnit.ops u2 !! i) as [op|] eqn:Hi; [|done]. simpl in Hread.
  destruct (Hall xref) as [name Hname].
  { exists i, op. split; [done|]. apply list_elem_of_lookup. by exists j. }
  exists name. split; [done|]. split; [|by apply Hdecl].
  rewrite Hw'. unfold expressionAt. simpl. rewrite lookup_insert_eq. simpl.
  rewrite list_lookup_fmap, Hi. simpl. rewrite list_lookup_fmap, Hread. simpl.
  by rewrite Hname.
Qed.

(** C4. The backfill of a unit with the table [varNames]: it throws exactly
    when some unnamed read has an xref that the table lacks; when it returns,
    every unnamed read carries the table's entry for its xref and nothing
    else has changed; in either case a read that had a name keeps it. And
    when [addNamesToView] returns, it has handed to the backfill the table
    and the heap of its own first loop: every read that this loop left
    without a name then carries the table's entry for its xref, which is the
    name of a variable that a [Variable] op of the unit declares with that
    xref, and a read that had a name has kept it. *)
Theorem C4_backfill_of_reads unit varNames w u :
  units w !! unit = Some u →
  let outcome := backfill unit varNames w in
  ((∃ xref, outcome.1 = Throw (VariableNotYetNamed xref))
   ↔ (∃ xref, hasUnnamedRead u xref ∧ varNames !! xref = None))
  ∧ (outcome.1 = Ok () ∨ ∃ xref, outcome.1 = Throw (VariableNotYetNamed xref))
  ∧ (outcome.1 = Ok () →
     outcome.2
     = mkWorld
         (<[unit := CompilationUnit.mk (CompilationUnit.isView u)
                      (CompilationUnit.fnName u)
                      (resolveOp varNames <$> CompilationUnit.ops u)]> (units w))
         (variables w) (index w)
     ∧ ∀ xref, hasUnnamedRead u xref → is_Some (varNames !! xref))
  ∧ (∀ i j xref name,
       expressionAt w unit i j = Some (ReadVariableExpr xref (Some name)) →
       expressionAt outcome.2 unit i j = Some (ReadVariableExpr xref (Some name)))
  ∧ (∀ cpl fuel baseName compat w0 w',
       addNamesToView cpl (S fuel) unit baseName compat w0 = (Ok (), w') →
       ∃ u0 table w2,
         units w0 !! unit = Some u0
         ∧ scanUpTo cpl fuel unit baseName compat (length (CompilationUnit.ops u0)) w0
           = (Ok table, w2)
         ∧ backfill unit table w2 = (Ok (), w')
         ∧ (∀ xref name, table !! xref = Some name → declaredAs w' unit xref name)
         ∧ (∀ i j xref,
              expressionAt w2 unit i j = Some (ReadVariableExpr xref None) →
              ∃ name, table !! xref = Some name
                      ∧ expressionAt w' unit i j
                        = Some (ReadVariableExpr xref (Some name))
                      ∧ declaredAs w' unit xref name)
         ∧ (∀ i j xref name,
              expressionAt w2 unit i j = Some (ReadVariableExpr xref (Some name)) →
              expressionAt w' unit i j = Some (ReadVariableExpr xref (Some name)))).
Proof.
  intros Hu outcome.
  destruct (backfill_of_reads unit varNames w u Hu) as (Hiff & Hcases & Hok & Hkept).
  split; [exact Hiff|]. split; [exact Hcases|]. split; [exact Hok|].
  split; [exact Hkept|]. intros. by eapply addNamesToView_backfills_scan.
Qed.

Lemma C4_backfill_of_reads_witness :
  let outcome := backfill 0 {[ 10 := "item_r1" ]} readsWorld in
  let w' := (phaseNaming 2 sampleJob).2 in
  expressionAt outcome.2 0 0 0 = Some (ReadVariableExpr 10 (Some "item_r1"))
  ∧ expressionAt outcome.2 0 0 1 = Some (ReadVariableExpr 11 (Some "preset"))
  ∧ expressionAt w' 0 2 0 = Some (ReadVariableExpr 11 (Some "ctx_r1"))
  ∧ declaredAs w' 0 11 "ctx_r1"
  ∧ expressionAt w' 0 3 2 = Some (ReadVariableExpr 10 (Some "preset")).
Proof.
  destruct (C4_backfill_of_reads 0 {[ 10 := "item_r1" ]} readsWorld _ eq_refl)
    as (_ & _ & Hresolved & Hkept & Hpass).
  intros outcome w'. subst outcome w'. split; [|split].
  - destruct (Hresolved eq_refl) as [-> _]. reflexivity.
  - apply Hkept. reflexivity.
  - destruct (Hpass sampleJob 1%nat "Comp" true (initialWorld sampleJob)
                (phaseNaming 2 sampleJob).2)
      as (u0 & table & w2 & Hu0 & Hscan & _ & _ & Hreads & Hnamed); [by vm_compute|].
    vm_compute in Hu0. injection Hu0 as <-.
    assert (w2 = (scanUpTo sampleJob 1 0 "Comp" true 7 (initialWorld sampleJob)).2)
      as Hw2 by exact (eq_sym (f_equal snd Hscan)).
    clear Hscan. subst w2.
    destruct (Hreads 2%nat 0%nat 11) as (name & _ & Hread & Hdecl);
      [by vm_compute|].
    assert (name = "ctx_r1") as ->.
    { pose proof Hread as Hname. vm_compute in Hname. by injection Hname. }
    split; [exact Hread|]. split; [exact Hdecl|].
    apply Hnamed. by vm_compute.
Defined.


(** *** Fuel *)

Lemma agrees_refl {A} (m : M A) : agrees m m.
Proof. by intros w r w' Hrun _. Qed.

Lemma agrees_bind {A B} (m1 m2 : M A) (k1 k2 : A → M B) :
  agrees m1 m2 → (∀ a, agrees (k1 a) (k2 a)) → agrees (bind m1 k1) (bind m2 k2).
Proof.
  intros Hm Hk w r w'. unfold bind.
  destruct (m1 w) as [[a|e] w1] eqn:Hrun.
  - rewrite (Hm _ _ _ Hrun); [|done]. apply Hk.
  - intros [= <- <-] Hfuel. rewrite (Hm _ _ _ Hrun); [done|].
    intros [= ->]. by apply Hfuel.
Qed.

Lemma agrees_foldM {A B} (f1 f2 : A → B → M A) :
  (∀ a x, agrees (f1 a x) (f2 a x)) → ∀ xs a, agrees (foldM f1 a xs) (foldM f2 a xs).
Proof.
  intros Hf xs. induction xs as [|x xs IH]; intros a; simpl.
  - apply agrees_refl.
  - apply agrees_bind; [apply Hf|]. intros a'. apply IH.
Qed.

Lemma agrees_nameOp recurse1 recurse2 unit baseName compat varNames i :
  (∀ child base, agrees (recurse1 child base) (recurse2 child base)) →
  agrees (nameOp recurse1 unit baseName compat varNames i)
         (nameOp recurse2 unit baseName compat varNames i).
Proof.
  intros Hrec. unfold nameOp. apply agrees_bind; [apply agrees_refl|]. intros op.
  destruct (Op.variant op) as [| | | |xref emptyView suffix slot|xref suffix slot| | |];
    try apply agrees_refl.
  - apply agrees_bind; [apply agrees_refl|]. intros u.
    destruct (negb _); [apply agrees_refl|].
    destruct slot as [slot|]; [|apply agrees_refl].
    apply agrees_bind.
    { destruct emptyView as [emptyView|]; [|apply agrees_refl].
      apply agrees_bind; [apply agrees_refl|]. intros e. apply Hrec. }
    intros _. apply agrees_bind; [apply agrees_refl|]. intros p.
    apply agrees_bind; [apply Hrec|]. intros _. apply agrees_refl.
  - apply agrees_bind; [apply agrees_refl|]. intros u.
    destruct (negb _); [apply agrees_refl|].
    destruct slot as [slot|]; [|apply agrees_refl].
    apply agrees_bind; [apply agrees_refl|]. intros c.
    apply agrees_bind; [apply Hrec|]. intros _. apply agrees_refl.
Qed.

(** An outcome other than running out of fuel is the outcome with any more
    fuel. *)
Lemma addNamesToView_more_fuel cpl fuel :
  ∀ unit baseName compat,
    agrees (addNamesToView cpl fuel unit baseName compat)
           (addNamesToView cpl (S fuel) unit baseName compat).
Proof.
  induction fuel as [|fuel IH]; intros unit baseName compat.
  - intros w r w' [= <- <-]. done.
  - change (addNamesToView cpl (S (S fuel)) unit baseName compat)
      with (u <- getUnit unit ;;
            match CompilationUnit.fnName u with
            | None =>
                setFnName unit (sanitizeIdentifier (baseName +:+ "_" +:+ fnSuffix cpl))
            | Some _ => ret ()
            end ;;
            varNames <-
              foldM (nameOp (λ child base, addNamesToView cpl (S fuel) child base compat)
                       unit baseName compat)
                ∅ (seq 0 (length (CompilationUnit.ops u))) ;;
            backfill unit varNames).
    simpl. apply agrees_bind; [apply agrees_refl|]. intros u.
    apply agrees_bind; [apply agrees_refl|]. intros _.
    apply agrees_bind; [|intros; apply agrees_refl].
    apply agrees_foldM. intros a x. apply agrees_nameOp.
    intros child base. apply IH.
Qed.

Lemma phaseNaming_more_fuel cpl fuel fuel' r w' :
  (fuel ≤ fuel')%nat → phaseNaming fuel cpl = (r, w') → r ≠ Throw OutOfFuel →
  phaseNaming fuel' cpl = (r, w').
Proof.
  intros Hle Hrun Hfuel. induction Hle as [|fuel' Hle IH]; [done|].
  by apply (addNamesToView_more_fuel cpl fuel').
Qed.

Lemma writes_heightAtMost w w' n unit :
  rtc writes w w' → heightAtMost w n unit → heightAtMost w' n unit.
Proof.
  intros Hrtc. revert unit. induction n as [|n IH]; intros unit Hheight; simpl in *.
  - intros child Hchild. apply (Hheight child). by eapply writes_childOf_back.
  - intros child Hchild. apply IH, Hheight. by eapply writes_childOf_back.
Qed.

Lemma bind_not_out_of_fuel {A B} (m : M A) (k : A → M B) w :
  (m w).1 ≠ Throw OutOfFuel →
  (∀ a w1, m w = (Ok a, w1) → (k a w1).1 ≠ Throw OutOfFuel) →
  (bind m k w).1 ≠ Throw OutOfFuel.
Proof.
  intros Hm Hk. unfold bind. destruct (m w) as [[a|e] w1] eqn:Hrun.
  - by apply Hk.
  - simpl in *. by intros [= ->].
Qed.

Lemma setOpVariant_not_out_of_fuel unit i v w :
  (setOpVariant unit i v w).1 ≠ Throw OutOfFuel.
Proof.
  destruct (units w !! unit) as [u|] eqn:Hu.
  - destruct (CompilationUnit.ops u !! i) as [op|] eqn:Hop.
    + by rewrite (setOpVariant_Some _ _ _ _ _ _ Hu Hop).
    + unfold setOpVariant. rewrite (bind_Ok _ _ _ _ _ (getUnit_Some _ _ _ Hu)).
      unfold bind at 1. unfold getOp.
      rewrite (bind_Ok _ _ _ _ _ (getUnit_Some _ _ _ Hu)). by rewrite Hop.
  - unfold setOpVariant, bind, getUnit. by rewrite Hu.
Qed.

Lemma nameListener_not_out_of_fuel unit baseName i l w :
  (nameListener unit baseName i l w).1 ≠ Throw OutOfFuel.
Proof.
  unfold nameListener. destruct (ListenerOp.handlerFnName l); [done|].
  destruct (negb _ && _); [done|].
  apply bind_not_out_of_fuel.
  { destruct (ListenerOp.isAnimationListener _); [|done].
    apply setOpVariant_not_out_of_fuel. }
  intros _ w1 _. apply bind_not_out_of_fuel.
  { destruct (ListenerOp.hostListener _); [done|].
    unfold bind, getUnit. destruct (units w1 !! unit); [|done].
    by destruct (ListenerOp.tag _). }
  intros h w2 _. apply setOpVariant_not_out_of_fuel.
Qed.

(** A case of the switch runs out of fuel only if a recursive call for a
    child of the unit does. *)
Lemma nameOp_not_out_of_fuel recurse unit baseName compat varNames i w :
  (∀ x b, respects (recurse x b)) →
  (∀ child base w1, rtc writes w w1 → childOf w unit child →
                    (recurse child base w1).1 ≠ Throw OutOfFuel) →
  (nameOp recurse unit baseName compat varNames i w).1 ≠ Throw OutOfFuel.
Proof.
  intros Hresp Hrec. unfold nameOp. apply bind_not_out_of_fuel.
  { unfold getOp, bind, getUnit. destruct (units w !! unit) as [u|]; [|done].
    by destruct (CompilationUnit.ops u !! i). }
  intros op w1 [-> (u & Hu & Hop)]%getOp_inv.
  pose proof (λ v, setOpVariant_not_out_of_fuel unit i v w) as Hset.
  destruct (Op.variant op) as [n trig|n trig|l|xref variable
                               |xref emptyView suffix slot|xref suffix slot
                               |n|n|] eqn:Hvariant.
  - apply bind_not_out_of_fuel; [|done]. by destruct trig.
  - apply bind_not_out_of_fuel; [|done]. by destruct trig.
  - apply bind_not_out_of_fuel; [|done]. apply nameListener_not_out_of_fuel.
  - apply bind_not_out_of_fuel; [|done].
    unfold getVariableName, bind, getVariable.
    destruct (variables w !! variable) as [[kind [name|]]|]; simpl; try done.
    destruct kind; simpl; unfold setVariableName, bind, getVariable; simpl;
      by destruct (variables w !! variable).
  - rewrite (bind_Ok _ _ _ _ _ (getUnit_Some _ _ _ Hu)).
    destruct (negb _); [done|]. destruct slot as [slot|]; [|done].
    apply bind_not_out_of_fuel.
    { destruct emptyView as [e|]; [|done].
      apply bind_not_out_of_fuel.
      { unfold viewsGet. destruct (units w !! e) as [ue|]; [|done].
        by destruct (CompilationUnit.isView ue). }
      intros e' w1 [-> [-> _]]%viewsGet_inv.
      apply Hrec; [apply rtc_refl|]. exists u, i, op. rewrite Hvariant. simpl. auto. }
    intros [] w1 Hempty.
    assert (rtc writes w w1) as Hw1.
    { destruct emptyView as [e|]; [|injection Hempty as <-; apply rtc_refl].
      eapply respects_run; [|exact Hempty].
      apply respects_bind; [apply respects_viewsGet|]. intros e'. apply Hresp. }
    apply bind_not_out_of_fuel.
    { unfold viewsGet. destruct (units w1 !! xref) as [ux|]; [|done].
      by destruct (CompilationUnit.isView ux). }
    intros p w2 [-> [-> _]]%viewsGet_inv.
    apply bind_not_out_of_fuel; [|done].
    apply Hrec; [done|]. exists u, i, op. rewrite Hvariant. simpl. auto.
  - rewrite (bind_Ok _ _ _ _ _ (getUnit_Some _ _ _ Hu)).
    destruct (negb _); [done|]. destruct slot as [slot|]; [|done].
    apply bind_not_out_of_fuel.
    { unfold viewsGet. destruct (units w !! xref) as [ux|]; [|done].
      by destruct (CompilationUnit.isView ux). }
    intros p w2 [-> [-> _]]%viewsGet_inv.
    apply bind_not_out_of_fuel; [|done].
    apply Hrec; [apply rtc_refl|]. exists u, i, op. rewrite Hvariant. by simpl.
  - apply bind_not_out_of_fuel; [|done]. apply Hset.
  - apply bind_not_out_of_fuel; [|done]. destruct compat; [apply Hset|done].
  - done.
Qed.

Lemma foldM_nameOp_not_out_of_fuel recurse unit baseName compat w :
  (∀ x b, respects (recurse x b)) →
  (∀ child base w1, rtc writes w w1 → childOf w unit child →
                    (recurse child base w1).1 ≠ Throw OutOfFuel) →
  ∀ indices varNames w1,
    rtc writes w w1 →
    (foldM (nameOp recurse unit baseName compat) varNames indices w1).1
    ≠ Throw OutOfFuel.
Proof.
  intros Hresp Hrec indices.
  induction indices as [|i indices IH]; intros varNames w1 Hw1; [done|]. simpl.
  apply bind_not_out_of_fuel.
  - apply nameOp_not_out_of_fuel; [done|]. intros child base w2 Hw2 Hchild.
    apply Hrec; [by etrans|]. by eapply writes_childOf_back.
  - intros varNames' w2 Hop. apply IH. etrans; [exact Hw1|].
    eapply respects_run; [|exact Hop]. by apply respects_nameOp.
Qed.

Lemma backfill_not_out_of_fuel unit varNames w :
  (backfill unit varNames w).1 ≠ Throw OutOfFuel.
Proof.
  destruct (units w !! unit) as [u|] eqn:Hu.
  - rewrite (backfill_run _ _ _ _ Hu). simpl.
    by destruct (backfillOps varNames (CompilationUnit.ops u)).2.
  - unfold backfill, bind, getUnit. by rewrite Hu.
Qed.

(** On a unit tree of height at most [n], [addNamesToView] with fuel [S n]
    returns or throws one of the errors of the source: the fuel is enough. *)
Lemma addNamesToView_enough_fuel cpl n :
  ∀ unit baseName compat w,
    heightAtMost w n unit →
    (addNamesToView cpl (S n) unit baseName compat w).1 ≠ Throw OutOfFuel.
Proof.
  induction n as [|n IH]; intros unit baseName compat w Hheight.
  - simpl. apply bind_not_out_of_fuel.
    { unfold getUnit. by destruct (units w !! unit). }
    intros u w0 [-> Hu]%getUnit_inv. apply bind_not_out_of_fuel.
    { destruct (CompilationUnit.fnName u); [done|].
      unfold setFnName, bind. by rewrite (getUnit_Some _ _ _ Hu). }
    intros [] w1 Hfn. destruct (nameFunction_run _ _ _ _ _ _ Hu Hfn) as [Hw1 _].
    apply bind_not_out_of_fuel.
    + apply (foldM_nameOp_not_out_of_fuel _ _ _ _ w); [| |done].
      * intros x b. apply respects_throw.
      * intros child base w2 _ Hchild. by destruct (Hheight child).
    + intros varNames w2 _. apply backfill_not_out_of_fuel.
  - change (addNamesToView cpl (S (S n)) unit baseName compat)
      with (u <- getUnit unit ;;
            match CompilationUnit.fnName u with
            | None =>
                setFnName unit (sanitizeIdentifier (baseName +:+ "_" +:+ fnSuffix cpl))
            | Some _ => ret ()
            end ;;
            varNames <-
              foldM (nameOp (λ child base, addNamesToView cpl (S n) child base compat)
                       unit baseName compat)
                ∅ (seq 0 (length (CompilationUnit.ops u))) ;;
            backfill unit varNames).
    apply bind_not_out_of_fuel.
    { unfold getUnit. by destruct (units w !! unit). }
    intros u w0 [-> Hu]%getUnit_inv. apply bind_not_out_of_fuel.
    { destruct (CompilationUnit.fnName u); [done|].
      unfold setFnName, bind. by rewrite (getUnit_Some _ _ _ Hu). }
    intros [] w1 Hfn. destruct (nameFunction_run _ _ _ _ _ _ Hu Hfn) as [Hw1 _].
    apply bind_not_out_of_fuel.
    + apply (foldM_nameOp_not_out_of_fuel _ _ _ _ w); [| |done].
      * intros x b. apply respects_addNamesToView.
      * intros child base w2 Hw2 Hchild. apply IH.
        eapply writes_heightAtMost; [exact Hw2|]. by apply Hheight.
    + intros varNames w2 _. apply backfill_not_out_of_fuel.
Qed.

(** ** Further properties of the phase *)

(** *** The listener case *)

(** The listener case for a host listener without a handler name. *)
Lemma nameListener_host unit baseName i w u op l :
  units w !! unit = Some u → CompilationUnit.ops u !! i = Some op →
  ListenerOp.handlerFnName l = None → ListenerOp.hostListener l = true →
  let animation := if ListenerOp.isAnimationListener l then "animation" else "" in
  let l' :=
    if ListenerOp.isAnimationListener l
    then ListenerOp.withName l
           ("@" +:+ ListenerOp.name l +:+ "." +:+
            JS.showNullable (ListenerOp.animationPhase l))
    else l in
  nameListener unit baseName i l w
  = (Ok (),
     withOpVariant unit i
       (Listener
          (ListenerOp.withHandlerFnName l'
             (sanitizeIdentifier
                (baseName +:+ "_" +:+ animation +:+ ListenerOp.name l' +:+
                 "_HostBindingHandler"))))
       w).
Proof.
  intros Hu Hop Hh Hhost. unfold nameListener.
  rewrite Hh, Hhost. change (negb true && _) with false. cbv iota.
  destruct l as [name tag host handler anim phase tslot]; simpl in *. subst.
  destruct anim; simpl.
  - destruct (withOpVariant_op w unit u i op
                (Listener (ListenerOp.withName
                   (ListenerOp.mk name tag true None true phase tslot)
                   ("@" +:+ name +:+ "." +:+ JS.showNullable phase))) Hu Hop)
      as (u' & Hu' & Hfn' & Hop').
    rewrite (bind_Ok _ _ _ _ _ (setOpVariant_Some _ _ _ _ _ _ Hu Hop)).
    unfold bind at 1. unfold ret at 1.
    rewrite (setOpVariant_Some _ _ _ _ _ _ Hu' Hop').
    by rewrite withOpVariant_twice.
  - unfold bind at 1. unfold ret at 1. unfold bind at 1. unfold ret at 1.
    by rewrite (setOpVariant_Some _ _ _ _ _ _ Hu Hop).
Qed.

Lemma nameOp_Listener_named recurse unit baseName compat varNames i w u op l h :
  units w !! unit = Some u → CompilationUnit.ops u !! i = Some op →
  Op.variant op = Listener l → ListenerOp.handlerFnName l = Some h →
  nameOp recurse unit baseName compat varNames i w = (Ok varNames, w).
Proof.
  intros Hu Hop Hvariant Hh. enter_nameOp Hu Hop Hvariant.
  unfold nameListener. by rewrite Hh.
Qed.

(** X1. A host listener without a handler name is named
    [sanitize(<base>_<animation><event>_HostBindingHandler)], whether or not it
    has a slot or a tag; an animation listener has its event renamed to
    [@<event>.<phase>] first and [animation] put before it. *)
Theorem X1_host_listener_handler_name
    recurse unit baseName compat varNames i w u op l :
  units w !! unit = Some u → CompilationUnit.ops u !! i = Some op →
  Op.variant op = Listener l →
  ListenerOp.handlerFnName l = None → ListenerOp.hostListener l = true →
  let animation := if ListenerOp.isAnimationListener l then "animation" else "" in
  let l' :=
    if ListenerOp.isAnimationListener l
    then ListenerOp.withName l
           ("@" +:+ ListenerOp.name l +:+ "." +:+
            JS.showNullable (ListenerOp.animationPhase l))
    else l in
  nameOp recurse unit baseName compat varNames i w
  = (Ok varNames,
     withOpVariant unit i
       (Listener
          (ListenerOp.withHandlerFnName l'
             (sanitizeIdentifier
                (baseName +:+ "_" +:+ animation +:+ ListenerOp.name l' +:+
                 "_HostBindingHandler"))))
       w).
Proof.
  intros Hu Hop Hvariant Hh Hhost animation l'. enter_nameOp Hu Hop Hvariant.
  by rewrite (bind_Ok _ _ _ _ _ (nameListener_host unit baseName i w u op l Hu Hop Hh Hhost)).
Qed.

Lemma X1_host_listener_handler_name_witness :
  variantAt
    (nameOp (λ _ _, ret ()) 0 "Comp" false ∅ 0
       (hostWorld (Listener (sampleHostListener false)))).2 0 0
  = Some (Listener (ListenerOp.withHandlerFnName (sampleHostListener false)
                      "Comp_click_HostBindingHandler"))
  ∧ variantAt
      (nameOp (λ _ _, ret ()) 0 "Comp" false ∅ 0
         (hostWorld (Listener (sampleHostListener true)))).2 0 0
    = Some (Listener
              (ListenerOp.mk "@click.done" None true
                 (Some "Comp_animation_click_done_HostBindingHandler")
                 true (Some "done") None)).
Proof.
  split.
  - rewrite (X1_host_listener_handler_name (λ _ _, ret ()) 0 "Comp" false ∅ 0
               (hostWorld (Listener (sampleHostListener false))) _ _
               (sampleHostListener false) eq_refl eq_refl eq_refl eq_refl eq_refl).
    reflexivity.
  - rewrite (X1_host_listener_handler_name (λ _ _, ret ()) 0 "Comp" false ∅ 0
               (hostWorld (Listener (sampleHostListener true))) _ _
               (sampleHostListener true) eq_refl eq_refl eq_refl eq_refl eq_refl).
    reflexivity.
Defined.

(** X2. An animation listener of a view, with a slot and a tag: its event is
    renamed to [@<event>.<phase>] and its handler is named
    [sanitize(<fn>_<tag>_animation@<event>.<phase>_<slot>_listener)]. *)
Theorem X2_view_animation_listener
    recurse unit baseName compat varNames i w u op l fn tag slot :
  units w !! unit = Some u → CompilationUnit.fnName u = Some fn →
  CompilationUnit.ops u !! i = Some op → Op.variant op = Listener l →
  ListenerOp.handlerFnName l = None → ListenerOp.hostListener l = false →
  ListenerOp.isAnimationListener l = true →
  ListenerOp.targetSlot l = Some slot → ListenerOp.tag l = Some tag →
  let event :=
    "@" +:+ ListenerOp.name l +:+ "." +:+ JS.showNullable (ListenerOp.animationPhase l) in
  nameOp recurse unit baseName compat varNames i w
  = (Ok varNames,
     withOpVariant unit i
       (Listener
          (ListenerOp.withHandlerFnName (ListenerOp.withName l event)
             (sanitizeIdentifier
                (fn +:+ "_" +:+ JS.replace "-" "_" tag +:+ "_" +:+ "animation" +:+
                 event +:+ "_" +:+ JS.toString slot +:+ "_listener"))))
       w).
Proof.
  intros Hu Hfn Hop Hvariant Hh Hhost Hanim Hslot Htag event.
  enter_nameOp Hu Hop Hvariant.
  pose proof (nameListener_view unit baseName i w u op l slot
                Hu Hop Hh Hhost Hslot) as Hl.
  rewrite Hanim, Htag, Hfn in Hl. simpl in Hl.
  by rewrite (bind_Ok _ _ _ _ _ Hl).
Qed.

Lemma X2_view_animation_listener_witness :
  variantAt
    (nameOp (λ _ _, ret ()) 0 "Comp" false ∅ 0
       (bindingWorld (Listener (sampleAnimationListener (Some "my-el"))))).2 0 0
  = Some (Listener
            (ListenerOp.mk "@fade.done" (Some "my-el") false
               (Some "Comp_Template_my_el_animation_fade_done_2_listener")
               true (Some "done") (Some 2))).
Proof.
  rewrite (X2_view_animation_listener (λ _ _, ret ()) 0 "Comp" false ∅ 0
             (bindingWorld (Listener (sampleAnimationListener (Some "my-el")))) _ _
             (sampleAnimationListener (Some "my-el")) "Comp_Template" "my-el" 2
             eq_refl eq_refl eq_refl eq_refl eq_refl eq_refl eq_refl eq_refl eq_refl).
  reflexivity.
Defined.

(** X3. The listener case is idempotent: once it has returned, running it
    again on the same op returns without changing anything. *)
Theorem X3_listener_case_idempotent
    recurse unit baseName compat varNames i w u op l varNames' w1 :
  units w !! unit = Some u → CompilationUnit.ops u !! i = Some op →
  Op.variant op = Listener l →
  nameOp recurse unit baseName compat varNames i w = (Ok varNames', w1) →
  varNames' = varNames
  ∧ nameOp recurse unit baseName compat varNames i w1 = (Ok varNames, w1).
Proof.
  intros Hu Hop Hvariant Hrun.
  destruct (ListenerOp.handlerFnName l) as [h|] eqn:Hh.
  { rewrite (nameOp_Listener_named _ _ _ _ _ _ _ _ _ _ _ Hu Hop Hvariant Hh) in Hrun.
    injection Hrun as <- <-. split; [done|]. by eapply nameOp_Listener_named. }
  assert (∃ l', nameListener unit baseName i l w
                = (Ok (), withOpVariant unit i (Listener l') w)
                ∧ is_Some (ListenerOp.handlerFnName l')) as (l' & Hl & [h Hh']).
  { destruct (ListenerOp.hostListener l) eqn:Hhost.
    - eexists. split; [by eapply nameListener_host|]. by eexists.
    - destruct (ListenerOp.targetSlot l) as [slot|] eqn:Hslot.
      + pose proof (nameListener_view unit baseName i w u op l slot
                      Hu Hop Hh Hhost Hslot) as Hview. simpl in Hview.
        destruct (ListenerOp.tag l) as [tag|].
        * eexists. split; [exact Hview|]. by eexists.
        * unfold nameOp in Hrun.
          rewrite (bind_Ok _ _ _ _ _ (getOp_Some _ _ _ _ _ Hu Hop)), Hvariant in Hrun.
          by rewrite (bind_Throw _ _ _ _ _ Hview) in Hrun.
      + by rewrite (nameOp_Listener_unassigned _ _ _ _ _ _ _ _ _ _
                      Hu Hop Hvariant Hh Hhost Hslot) in Hrun. }
  unfold nameOp in Hrun.
  rewrite (bind_Ok _ _ _ _ _ (getOp_Some _ _ _ _ _ Hu Hop)), Hvariant in Hrun.
  rewrite (bind_Ok _ _ _ _ _ Hl) in Hrun. injection Hrun as <- <-.
  split; [done|].
  destruct (withOpVariant_op w unit u i op (Listener l') Hu Hop) as (u' & Hu' & _ & Hop').
  by eapply nameOp_Listener_named.
Qed.

Lemma X3_listener_case_idempotent_witness :
  nameOp (λ _ _, ret ()) 0 "Comp" false ∅ 0
    (nameOp (λ _ _, ret ()) 0 "Comp" false ∅ 0
       (listenerWorld (Some "my-el") (Some 3))).2
  = (Ok ∅, (nameOp (λ _ _, ret ()) 0 "Comp" false ∅ 0
              (listenerWorld (Some "my-el") (Some 3))).2).
Proof.
  apply (X3_listener_case_idempotent (λ _ _, ret ()) 0 "Comp" false ∅ 0
           (listenerWorld (Some "my-el") (Some 3)) _ _
           (sampleListener (Some "my-el") (Some 3)) ∅ _ eq_refl eq_refl eq_refl).
  reflexivity.
Defined.

(** X4. An animation listener of a view that has a slot but no tag: the case
    throws a [TypeError] after it has renamed the event, so the heap it
    leaves has the new event name and still no handler name. *)
Theorem X4_animation_listener_without_tag
    recurse unit baseName compat varNames i w u op l slot :
  units w !! unit = Some u →
  CompilationUnit.ops u !! i = Some op → Op.variant op = Listener l →
  ListenerOp.handlerFnName l = None → ListenerOp.hostListener l = false →
  ListenerOp.isAnimationListener l = true →
  ListenerOp.targetSlot l = Some slot → ListenerOp.tag l = None →
  nameOp recurse unit baseName compat varNames i w
  = (Throw TypeError,
     withOpVariant unit i
       (Listener
          (ListenerOp.withName l
             ("@" +:+ ListenerOp.name l +:+ "." +:+
              JS.showNullable (ListenerOp.animationPhase l))))
       w).
Proof.
  intros Hu Hop Hvariant Hh Hhost Hanim Hslot Htag.
  enter_nameOp Hu Hop Hvariant.
  pose proof (nameListener_view unit baseName i w u op l slot
                Hu Hop Hh Hhost Hslot) as Hl.
  rewrite Hanim, Htag in Hl. simpl in Hl.
  by rewrite (bind_Throw _ _ _ _ _ Hl).
Qed.

Lemma X4_animation_listener_without_tag_witness :
  let outcome :=
    nameOp (λ _ _, ret ()) 0 "Comp" false ∅ 0
      (bindingWorld (Listener (sampleAnimationListener None))) in
  outcome.1 = Throw TypeError
  ∧ variantAt outcome.2 0 0
    = Some (Listener (ListenerOp.mk "@fade.done" None false None true
                        (Some "done") (Some 2))).
Proof.
  intros outcome. subst outcome.
  rewrite (X4_animation_listener_without_tag (λ _ _, ret ()) 0 "Comp" false ∅ 0
             (bindingWorld (Listener (sampleAnimationListener None))) _ _
             (sampleAnimationListener None) 2
             eq_refl eq_refl eq_refl eq_refl eq_refl eq_refl eq_refl eq_refl).
  split; reflexivity.
Defined.

(** *** The template and repeater cases *)

Lemma length_zero_iff_empty (s : string) :
  bool_decide (String.length s = 0%nat) = bool_decide (s = "").
Proof. by destruct s. Qed.

Lemma nameOp_Template recurse unit baseName compat varNames i w u op xref suffix slot :
  units w !! unit = Some u → CompilationUnit.isView u = true →
  CompilationUnit.ops u !! i = Some op →
  Op.variant op = Template xref suffix (Some slot) →
  nameOp recurse unit baseName compat varNames i w
  = (viewsGet xref ;;
     recurse xref
       (baseName +:+ (if bool_decide (suffix = "") then "" else "_" +:+ suffix) +:+
        "_" +:+ JS.toString slot) ;;
     ret varNames) w.
Proof.
  intros Hu Hview Hop Hvariant. enter_nameOp Hu Hop Hvariant.
  rewrite (bind_Ok _ _ _ _ _ (getUnit_Some _ _ _ Hu)). rewrite Hview.
  change (negb true) with false. cbv iota. rewrite length_zero_iff_empty.
  apply (viewsGet_returns_xref xref (λ c, recurse c _ ;; ret varNames)).
Qed.

(** X5. A [Template] op with slot [slot] in a view: the case is the recursion
    into the child view with base name [<base>_<suffix>_<slot>], or
    [<base>_<slot>] when the suffix is empty; a child view without a function
    name is named from that base. *)
Theorem X5_template_recursion
    recurse unit baseName compat varNames i w u op xref suffix slot :
  units w !! unit = Some u → CompilationUnit.isView u = true →
  CompilationUnit.ops u !! i = Some op →
  Op.variant op = Template xref suffix (Some slot) →
  let childBase :=
    baseName +:+ (if bool_decide (suffix = "") then "" else "_" +:+ suffix) +:+
    "_" +:+ JS.toString slot in
  nameOp recurse unit baseName compat varNames i w
  = (viewsGet xref ;; recurse xref childBase ;; ret varNames) w
  ∧ (∀ cpl fuel uc,
       recurse = (λ child base, addNamesToView cpl (S fuel) child base compat) →
       units w !! xref = Some uc → CompilationUnit.isView uc = true →
       CompilationUnit.fnName uc = None →
       fnNameOf (nameOp recurse unit baseName compat varNames i w).2 xref
       = Some (sanitizeIdentifier (childBase +:+ "_" +:+ fnSuffix cpl))).
Proof.
  intros Hu Hview Hop Hvariant childBase.
  pose proof (nameOp_Template recurse unit baseName compat varNames i w u op
                xref suffix slot Hu Hview Hop Hvariant) as Heq.
  fold childBase in Heq. split; [exact Heq|].
  intros cpl fuel uc -> Huc Hviewc Hfnc. rewrite Heq.
  eapply visit_first_names_view; [done..|]. apply respects_ret.
Qed.

Lemma X5_template_recursion_witness :
  fnNameOf
    (nameOp (λ child base, addNamesToView sampleJob 1 child base true)
       0 "Comp" true ∅ 4 (initialWorld sampleJob)).2 1
  = Some "Comp_ng_template_4_Template"
  ∧ fnNameOf
      (nameOp (λ child base, addNamesToView failingChildJob 1 child base false)
         0 "Comp" false ∅ 1 (initialWorld failingChildJob)).2 1
    = Some "Comp_4_Template".
Proof.
  split.
  - destruct (X5_template_recursion
                (λ child base, addNamesToView sampleJob 1 child base true)
                0 "Comp" true ∅ 4 (initialWorld sampleJob) _ _ 1 "ng_template" 4
                eq_refl eq_refl eq_refl eq_refl) as [_ Hname].
    exact (Hname sampleJob 0%nat _ eq_refl eq_refl eq_refl eq_refl).
  - destruct (X5_template_recursion
                (λ child base, addNamesToView failingChildJob 1 child base false)
                0 "Comp" false ∅ 1 (initialWorld failingChildJob) _ _ 1 "" 4
                eq_refl eq_refl eq_refl eq_refl) as [_ Hname].
    exact (Hname failingChildJob 0%nat _ eq_refl eq_refl eq_refl eq_refl).
Defined.

(** X6. A [Template] or [RepeaterCreate] op in a unit that is not a view: the
    case throws the assertion error and changes nothing, whatever the slot
    and the xrefs of the op are. *)
Theorem X6_template_outside_view
    recurse unit baseName compat varNames i w u op :
  units w !! unit = Some u → CompilationUnit.isView u = false →
  CompilationUnit.ops u !! i = Some op →
  (∃ xref suffix slot, Op.variant op = Template xref suffix slot)
  ∨ (∃ xref emptyView suffix slot,
       Op.variant op = RepeaterCreate xref emptyView suffix slot) →
  nameOp recurse unit baseName compat varNames i w
  = (Throw MustBeCompilingAComponent, w).
Proof.
  intros Hu Hview Hop [(xref & suffix & slot & Hvariant)
                      |(xref & emptyView & suffix & slot & Hvariant)];
    enter_nameOp Hu Hop Hvariant;
    rewrite (bind_Ok _ _ _ _ _ (getUnit_Some _ _ _ Hu)); by rewrite Hview.
Qed.

Lemma X6_template_outside_view_witness :
  nameOp (λ _ _, ret ()) 0 "Comp" false ∅ 0 (hostWorld (Template 1 "" None))
  = (Throw MustBeCompilingAComponent, hostWorld (Template 1 "" None))
  ∧ nameOp (λ _ _, ret ()) 0 "Comp" false ∅ 0
      (hostWorld (RepeaterCreate 1 (Some 2) "For" (Some 5)))
    = (Throw MustBeCompilingAComponent,
       hostWorld (RepeaterCreate 1 (Some 2) "For" (Some 5))).
Proof.
  split.
  - apply (X6_template_outside_view (λ _ _, ret ()) 0 "Comp" false ∅ 0
             (hostWorld (Template 1 "" None)) _ _ eq_refl eq_refl eq_refl).
    left. by eexists _, _, _.
  - apply (X6_template_outside_view (λ _ _, ret ()) 0 "Comp" false ∅ 0
             (hostWorld (RepeaterCreate 1 (Some 2) "For" (Some 5))) _ _
             eq_refl eq_refl eq_refl).
    right. by eexists _, _, _, _.
Defined.

(** X7. A [Template] or [RepeaterCreate] op without a slot in a view: the
    case throws the slot error before any recursion, so nothing changes; for
    a repeater not even the empty view is visited. *)
Theorem X7_template_without_slot
    recurse unit baseName compat varNames i w u op :
  units w !! unit = Some u → CompilationUnit.isView u = true →
  CompilationUnit.ops u !! i = Some op →
  (∃ xref suffix, Op.variant op = Template xref suffix None)
  ∨ (∃ xref emptyView suffix,
       Op.variant op = RepeaterCreate xref emptyView suffix None) →
  nameOp recurse unit baseName compat varNames i w
  = (Throw ExpectedSlotToBeAssigned, w).
Proof.
  intros Hu Hview Hop [(xref & suffix & Hvariant)
                      |(xref & emptyView & suffix & Hvariant)];
    enter_nameOp Hu Hop Hvariant;
    rewrite (bind_Ok _ _ _ _ _ (getUnit_Some _ _ _ Hu)); by rewrite Hview.
Qed.

Lemma X7_template_without_slot_witness :
  nameOp (λ child base, addNamesToView sampleJob 1 child base false)
    0 "Comp" false ∅ 0 (bindingWorld (RepeaterCreate 1 (Some 2) "For" None))
  = (Throw ExpectedSlotToBeAssigned,
     bindingWorld (RepeaterCreate 1 (Some 2) "For" None)).
Proof.
  apply (X7_template_without_slot
           (λ child base, addNamesToView sampleJob 1 child base false)
           0 "Comp" false ∅ 0 (bindingWorld (RepeaterCreate 1 (Some 2) "For" None))
           _ _ eq_refl eq_refl eq_refl).
  right. by eexists _, _, _.
Defined.

Lemma viewsGet_missing w xref :
  (∀ uc, units w !! xref = Some uc → CompilationUnit.isView uc = false) →
  viewsGet xref w = (Throw TypeError, w).
Proof.
  intros Hmissing. unfold viewsGet. destruct (units w !! xref) as [uc|]; [|done].
  by rewrite (Hmissing uc).
Qed.

(** X8. A [Template] op whose xref is not a view of the job, or a
    [RepeaterCreate] op whose empty view (or, without an empty view, whose
    primary view) is not one: the call on the missing view throws a
    [TypeError] at its first line, so nothing changes. *)
Theorem X8_missing_child_view
    recurse unit baseName compat varNames i w u op missing :
  units w !! unit = Some u → CompilationUnit.isView u = true →
  CompilationUnit.ops u !! i = Some op →
  (∀ uc, units w !! missing = Some uc → CompilationUnit.isView uc = false) →
  (∃ suffix slot, Op.variant op = Template missing suffix (Some slot))
  ∨ (∃ xref suffix slot,
       Op.variant op = RepeaterCreate xref (Some missing) suffix (Some slot))
  ∨ (∃ suffix slot, Op.variant op = RepeaterCreate missing None suffix (Some slot)) →
  nameOp recurse unit baseName compat varNames i w = (Throw TypeError, w).
Proof.
  intros Hu Hview Hop Hmissing%viewsGet_missing
    [(suffix & slot & Hvariant)
    |[(xref & suffix & slot & Hvariant)|(suffix & slot & Hvariant)]].
  - rewrite (nameOp_Template _ _ _ _ _ _ _ _ _ _ _ _ Hu Hview Hop Hvariant).
    by apply bind_Throw.
  - rewrite (nameOp_RepeaterCreate _ _ _ _ _ _ _ _ _ _ _ _ _ Hu Hview Hop Hvariant).
    apply bind_Throw. by apply bind_Throw.
  - rewrite (nameOp_RepeaterCreate _ _ _ _ _ _ _ _ _ _ _ _ _ Hu Hview Hop Hvariant).
    rewrite (bind_Ok _ _ _ _ _ (eq_refl : ret () w = (Ok (), w))).
    by apply bind_Throw.
Qed.

Lemma X8_missing_child_view_witness :
  nameOp (λ child base, addNamesToView sampleJob 1 child base false)
    0 "Comp" false ∅ 0 (bindingWorld (Template 9 "" (Some 4)))
  = (Throw TypeError, bindingWorld (Template 9 "" (Some 4))).
Proof.
  apply (X8_missing_child_view
           (λ child base, addNamesToView sampleJob 1 child base false)
           0 "Comp" false ∅ 0 (bindingWorld (Template 9 "" (Some 4))) _ _ 9
           eq_refl eq_refl eq_refl).
  - intros uc Huc. vm_compute in Huc. discriminate.
  - left. by eexists _, _.
Defined.

(** *** Errors end the traversal *)

(** X9. Whatever a case of the first loop throws, [addNamesToView] throws,
    and the heap it leaves is the heap at the throw: the ops after it are not
    visited and the backfill does not run. *)
Theorem X9_throw_in_first_loop_aborts
    cpl fuel unit baseName compat w u i varNames w_i e w' :
  units w !! unit = Some u → (i < length (CompilationUnit.ops u))%nat →
  scanUpTo cpl fuel unit baseName compat i w = (Ok varNames, w_i) →
  nameOp (λ child base, addNamesToView cpl fuel child base compat)
    unit baseName compat varNames i w_i = (Throw e, w') →
  addNamesToView cpl (S fuel) unit baseName compat w = (Throw e, w').
Proof.
  intros Hu Hlt Hscan Hthrow.
  unfold scanUpTo in Hscan. simpl addNamesToView.
  rewrite (bind_Ok _ _ _ _ _ (getUnit_Some _ _ _ Hu)) in Hscan.
  rewrite (bind_Ok _ _ _ _ _ (getUnit_Some _ _ _ Hu)).
  apply bind_inv_Ok in Hscan as ([] & w1 & Hfn & Hloop).
  rewrite (bind_Ok _ _ _ _ _ Hfn).
  apply bind_Throw. rewrite (seq_split_at _ _ Hlt), foldM_app.
  rewrite (bind_Ok _ _ _ _ _ Hloop). simpl foldM.
  by apply bind_Throw.
Qed.

Lemma X9_throw_in_first_loop_aborts_witness :
  let outcome := phaseNaming 2 failingChildJob in
  outcome.1 = Throw ExpectedASlotToBeAssigned
  ∧ variantAt outcome.2 0 0 = Some (Property "@expanded" true)
  ∧ fnNameOf outcome.2 1 = Some "Comp_4_Template"
  ∧ variantAt outcome.2 1 0 = Some (Listener (sampleListener (Some "b") None)).
Proof.
  intros outcome. subst outcome. unfold phaseNaming.
  change (root failingChildJob) with 0.
  change (componentName failingChildJob) with "Comp".
  change (isTemplateDefinitionBuilder (compatibility failingChildJob)) with false.
  rewrite (X9_throw_in_first_loop_aborts failingChildJob 1 0 "Comp" false
             (initialWorld failingChildJob) _ 1 ∅
             (scanUpTo failingChildJob 1 0 "Comp" false 1
                (initialWorld failingChildJob)).2
             ExpectedASlotToBeAssigned
             (nameOp (λ child base, addNamesToView failingChildJob 1 child base false)
                0 "Comp" false ∅ 1
                (scanUpTo failingChildJob 1 0 "Comp" false 1
                   (initialWorld failingChildJob)).2).2
             eq_refl ltac:(simpl; lia) eq_refl eq_refl).
  split; [done|]. split; [by vm_compute|]. split; by vm_compute.
Defined.

(** X10. A throw of the recursive call on a child view is the throw of the
    case, with the heap as the call left it: for the view of a [Template] op,
    for the empty view of a repeater, whose primary view then is not visited,
    and for the primary view of a repeater, visited on the heap [w0] that the
    visit of the empty view, if there is one, has left. *)
Theorem X10_child_throw_propagates
    recurse unit baseName compat varNames i w u op child uc childBase w0 e w' :
  units w !! unit = Some u → CompilationUnit.isView u = true →
  CompilationUnit.ops u !! i = Some op →
  units w0 !! child = Some uc → CompilationUnit.isView uc = true →
  recurse child childBase w0 = (Throw e, w') →
  (w0 = w
   ∧ ∃ suffix slot,
       Op.variant op = Template child suffix (Some slot)
       ∧ childBase = baseName +:+ (if bool_decide (suffix = "") then "" else "_" +:+ suffix)
                     +:+ "_" +:+ JS.toString slot)
  ∨ (w0 = w
     ∧ ∃ xref suffix slot,
         Op.variant op = RepeaterCreate xref (Some child) suffix (Some slot)
         ∧ childBase = baseName +:+ "_" +:+ suffix +:+ "Empty" +:+ "_" +:+
                       JS.toString (slot + 2))
  ∨ (w0 = w
     ∧ ∃ suffix slot,
         Op.variant op = RepeaterCreate child None suffix (Some slot)
         ∧ childBase = baseName +:+ "_" +:+ suffix +:+ "_" +:+ JS.toString (slot + 1))
  ∨ (∃ emptyView ue suffix slot,
       Op.variant op = RepeaterCreate child (Some emptyView) suffix (Some slot)
       ∧ units w !! emptyView = Some ue ∧ CompilationUnit.isView ue = true
       ∧ recurse emptyView
           (baseName +:+ "_" +:+ suffix +:+ "Empty" +:+ "_" +:+ JS.toString (slot + 2)) w
         = (Ok (), w0)
       ∧ childBase = baseName +:+ "_" +:+ suffix +:+ "_" +:+ JS.toString (slot + 1)) →
  nameOp recurse unit baseName compat varNames i w = (Throw e, w').
Proof.
  intros Hu Hview Hop Huc Hviewc Hthrow
    [(-> & suffix & slot & Hvariant & ->)
    |[(-> & xref & suffix & slot & Hvariant & ->)
     |[(-> & suffix & slot & Hvariant & ->)
      |(emptyView & ue & suffix & slot & Hvariant & Hue & Hviewe & Hempty & ->)]]].
  - rewrite (nameOp_Template _ _ _ _ _ _ _ _ _ _ _ _ Hu Hview Hop Hvariant).
    rewrite (bind_Ok _ _ _ _ _ (viewsGet_Some _ _ _ Huc Hviewc)).
    by apply bind_Throw.
  - rewrite (nameOp_RepeaterCreate _ _ _ _ _ _ _ _ _ _ _ _ _ Hu Hview Hop Hvariant).
    apply bind_Throw.
    rewrite (bind_Ok _ _ _ _ _ (viewsGet_Some _ _ _ Huc Hviewc)).
    exact Hthrow.
  - rewrite (nameOp_RepeaterCreate _ _ _ _ _ _ _ _ _ _ _ _ _ Hu Hview Hop Hvariant).
    unfold bind at 1. simpl.
    rewrite (bind_Ok _ _ _ _ _ (viewsGet_Some _ _ _ Huc Hviewc)).
    by apply bind_Throw.
  - rewrite (nameOp_RepeaterCreate _ _ _ _ _ _ _ _ _ _ _ _ _ Hu Hview Hop Hvariant).
    assert ((viewsGet emptyView ;;
             recurse emptyView
               (baseName +:+ "_" +:+ suffix +:+ "Empty" +:+ "_" +:+
                JS.toString (slot + 2))) w = (Ok (), w0)) as Hfirst.
    { by rewrite (bind_Ok _ _ _ _ _ (viewsGet_Some _ _ _ Hue Hviewe)). }
    rewrite (bind_Ok _ _ _ _ _ Hfirst).
    rewrite (bind_Ok _ _ _ _ _ (viewsGet_Some _ _ _ Huc Hviewc)).
    by apply bind_Throw.
Qed.

Lemma X10_child_throw_propagates_witness :
  let template :=
    nameOp (λ child base, addNamesToView failingChildJob 1 child base false)
      0 "Comp" false ∅ 1 (initialWorld failingChildJob) in
  let repeater :=
    nameOp (λ child base, addNamesToView failingPrimaryJob 1 child base false)
      0 "Comp" false ∅ 0 (initialWorld failingPrimaryJob) in
  template.1 = Throw ExpectedASlotToBeAssigned
  ∧ repeater.1 = Throw ExpectedASlotToBeAssigned
  ∧ fnNameOf repeater.2 2 = Some "Comp_ForEmpty_7_Template"
  ∧ fnNameOf repeater.2 1 = Some "Comp_For_6_Template".
Proof.
  intros template repeater. subst template repeater. split.
  - rewrite (X10_child_throw_propagates
               (λ child base, addNamesToView failingChildJob 1 child base false)
               0 "Comp" false ∅ 1 (initialWorld failingChildJob) _ _ 1 _ "Comp_4"
               (initialWorld failingChildJob) ExpectedASlotToBeAssigned
               (addNamesToView failingChildJob 1 1 "Comp_4" false
                  (initialWorld failingChildJob)).2
               eq_refl eq_refl eq_refl eq_refl eq_refl eq_refl).
    + reflexivity.
    + left. split; [done|]. by exists "", 4.
  - rewrite (X10_child_throw_propagates
               (λ child base, addNamesToView failingPrimaryJob 1 child base false)
               0 "Comp" false ∅ 0 (initialWorld failingPrimaryJob) _ _ 1 _ "Comp_For_6"
               (addNamesToView failingPrimaryJob 1 2 "Comp_ForEmpty_7" false
                  (initialWorld failingPrimaryJob)).2
               ExpectedASlotToBeAssigned
               (addNamesToView failingPrimaryJob 1 1 "Comp_For_6" false
                  (addNamesToView failingPrimaryJob 1 2 "Comp_ForEmpty_7" false
                     (initialWorld failingPrimaryJob)).2).2
               eq_refl eq_refl eq_refl eq_refl eq_refl eq_refl).
    + split; [reflexivity|]. split; by vm_compute.
    + right. right. right. eexists 2, _, "For", 5.
      split; [reflexivity|]. split; [reflexivity|]. split; [reflexivity|].
      split; reflexivity.
Defined.

(** *** What the traversal keeps *)

Lemma writes_units_None w w' unit :
  rtc writes w w' → units w !! unit = None → units w' !! unit = None.
Proof.
  intros Hrtc Hnone. destruct (units w' !! unit) as [u'|] eqn:Hu'; [|done].
  destruct (writes_units_back _ _ _ _ Hrtc Hu') as (u & Hu & _). congruence.
Qed.

Lemma writes_variables_None w w' variable :
  rtc writes w w' → variables w !! variable = None → variables w' !! variable = None.
Proof.
  induction 1 as [w|w w1 w' Hstep _ IH]; [done|]. intros Hnone. apply IH.
  destruct Hstep as [w x ux ux' Hx Hev|w y vy Hy Hname]; simpl; [done|].
  rewrite lookup_insert_ne; [done|]. intros ->. congruence.
Qed.

Lemma unitEvolves_length u u' :
  unitEvolves u u' →
  length (CompilationUnit.ops u') = length (CompilationUnit.ops u).
Proof.
  intros (_ & _ & Hsk).
  by rewrite <- (length_fmap skeletonOfOp (CompilationUnit.ops u')), Hsk, length_fmap.
Qed.

Lemma unitEvolves_skeletonOfOp u u' i op :
  unitEvolves u u' → CompilationUnit.ops u !! i = Some op →
  ∃ op', CompilationUnit.ops u' !! i = Some op' ∧ skeletonOfOp op' = skeletonOfOp op.
Proof.
  intros (_ & _ & Hsk) Hop.
  assert ((skeletonOfOp <$> CompilationUnit.ops u') !! i = Some (skeletonOfOp op)) as Hi.
  { by rewrite Hsk, list_lookup_fmap, Hop. }
  rewrite list_lookup_fmap in Hi.
  destruct (CompilationUnit.ops u' !! i) as [op'|]; [|done].
  exists op'. split; [done|].
  by apply (inj Some).
Qed.

(** X11. Whatever its outcome, [addNamesToView] only writes names: every unit
    of the heap is still there and is a view if it was one, it has as many
    ops as before, each op has its kind and every field but the names, each
    read has its xref, and no unit has been added. *)
Theorem X11_traversal_keeps_structure cpl fuel unit baseName compat w :
  let w' := (addNamesToView cpl fuel unit baseName compat w).2 in
  (∀ x u,
     units w !! x = Some u →
     ∃ u', units w' !! x = Some u'
           ∧ CompilationUnit.isView u' = CompilationUnit.isView u
           ∧ length (CompilationUnit.ops u') = length (CompilationUnit.ops u)
           ∧ ∀ i op, CompilationUnit.ops u !! i = Some op →
                     ∃ op', CompilationUnit.ops u' !! i = Some op'
                            ∧ skeletonOfOp op' = skeletonOfOp op)
  ∧ (∀ x, units w !! x = None → units w' !! x = None).
Proof.
  intros w'. subst w'.
  pose proof (respects_addNamesToView cpl fuel unit baseName compat w) as Hrtc.
  split.
  - intros x u Hu. destruct (writes_units _ _ _ _ Hrtc Hu) as (u' & Hu' & Hev).
    exists u'. split; [done|]. split; [apply Hev|].
    split; [by apply unitEvolves_length|].
    intros i op. by apply unitEvolves_skeletonOfOp.
  - intros x. by apply writes_units_None.
Qed.

(** X12. Whatever its outcome, [addNamesToView] keeps every semantic variable
    with its kind, never changes a name that a variable already has, adds no
    variable, and never lowers the counter. *)
Theorem X12_traversal_keeps_variables cpl fuel unit baseName compat w :
  let w' := (addNamesToView cpl fuel unit baseName compat w).2 in
  (∀ variable v,
     variables w !! variable = Some v →
     ∃ v', variables w' !! variable = Some v'
           ∧ SemanticVariable.kind v' = SemanticVariable.kind v
           ∧ ∀ name, SemanticVariable.name v = Some name →
                     SemanticVariable.name v' = Some name)
  ∧ (∀ variable, variables w !! variable = None → variables w' !! variable = None)
  ∧ index w ≤ index w'.
Proof.
  intros w'. subst w'.
  pose proof (respects_addNamesToView cpl fuel unit baseName compat w) as Hrtc.
  split; [|split].
  - intros variable v. by apply writes_variables.
  - intros variable. by apply writes_variables_None.
  - by apply writes_index.
Qed.

Lemma writes_counter w w' :
  rtc writes w w' →
  index w' + N.of_nat (size (unnamedVariables w'))
  = index w + N.of_nat (size (unnamedVariables w)).
Proof.
  induction 1 as [w|w w1 w' Hstep _ IH]; [done|]. rewrite IH. clear IH.
  destruct Hstep as [w x ux ux' Hx Hev|w y vy Hy Hname]; [done|].
  unfold unnamedVariables. simpl.
  rewrite map_filter_insert_False by (simpl; congruence).
  rewrite map_filter_delete.
  assert (filter (λ kv, SemanticVariable.name kv.2 = None) (variables w) !! y = Some vy)
    as Hy'.
  { by apply map_lookup_filter_Some. }
  rewrite map_size_delete_Some by (by eexists).
  pose proof (map_size_ne_0_lookup_2 _ _ (ex_intro _ vy Hy')) as Hsize.
  lia.
Qed.

(** X13. The counter counts the variables that get a name: across any run of
    [addNamesToView] the counter grows by exactly the number of variables
    that were unnamed before and are named after. *)
Theorem X13_counter_counts_named_variables cpl fuel unit baseName compat w :
  let w' := (addNamesToView cpl fuel unit baseName compat w).2 in
  index w' + N.of_nat (size (unnamedVariables w'))
  = index w + N.of_nat (size (unnamedVariables w)).
Proof.
  intros w'. apply writes_counter. apply respects_addNamesToView.
Qed.

(** X14. Every name given during a run of the pass is [ctx_r<k>] with [k]
    below the final counter for a context variable, and [<identifier>_r<k>]
    or [_r<k>] with [k] at most the final counter for the other kinds. *)
Theorem X14_allocated_name_format cpl fuel variable name :
  let w' := (phaseNaming fuel cpl).2 in
  namedSince (initialWorld cpl) w' variable name →
  ∃ kind k,
    kindOfVariable (initialWorld cpl) variable = Some kind
    ∧ name = prefixOfKind kind +:+ "_r" +:+ JS.toString k
    ∧ if isContext kind then k < index w' else k ≤ index w'.
Proof.
  intros w' Hnamed. subst w'.
  assert (rtc writes (initialWorld cpl) (phaseNaming fuel cpl).2) as Hrtc.
  { apply respects_addNamesToView. }
  destruct (names_invariant _ _ Hrtc) as [Hbelow _].
  destruct (Hbelow _ _ Hnamed) as (kind & k & Hkind & Hname & Hrange).
  exists kind, k. split; [|done].
  destruct Hnamed as ([v Hv] & _ & _). unfold kindOfVariable in *.
  destruct (writes_variables _ _ _ _ Hrtc Hv) as (v' & Hv' & Hsame & _).
  rewrite Hv' in Hkind. rewrite Hv. simpl in *. congruence.
Qed.

Lemma X14_allocated_name_format_witness :
  ∃ kind k,
    kindOfVariable (initialWorld sampleJob) 102 = Some kind
    ∧ "_r3" = prefixOfKind kind +:+ "_r" +:+ JS.toString k
    ∧ if isContext kind then k < index (phaseNaming 2 sampleJob).2
      else k ≤ index (phaseNaming 2 sampleJob).2.
Proof.
  apply (X14_allocated_name_format sampleJob 2 102 "_r3").
  split; [by eexists|]. by vm_compute.
Defined.

(** X15. A variable keeps the name it was given: after [getVariableName] has
    returned a name for it, whatever the traversal does next,
    [getVariableName] returns that name again and changes nothing. *)
Theorem X15_variable_name_is_stable
    variable w name w1 cpl fuel unit baseName compat :
  getVariableName variable w = (Ok name, w1) →
  let w2 := (addNamesToView cpl fuel unit baseName compat w1).2 in
  getVariableName variable w2 = (Ok name, w2).
Proof.
  intros [_ Hname]%getVariableName_names w2. subst w2.
  pose proof (respects_addNamesToView cpl fuel unit baseName compat w1) as Hrtc.
  unfold nameOfVariable in Hname.
  destruct (variables w1 !! variable) as [v|] eqn:Hv; [|done]. simpl in Hname.
  destruct (writes_variables _ _ _ _ Hrtc Hv) as (v' & Hv' & _ & Hkeep).
  rewrite (getVariableName_run _ _ _ Hv'). by rewrite (Hkeep _ Hname).
Qed.

Lemma X15_variable_name_is_stable_witness :
  let w1 := (getVariableName 100 (initialWorld sampleJob)).2 in
  let w2 := (addNamesToView sampleJob 2 0 "Comp" true w1).2 in
  getVariableName 100 w2 = (Ok "item_r1", w2).
Proof.
  intros w1 w2. subst w1 w2.
  apply (X15_variable_name_is_stable 100 (initialWorld sampleJob) "item_r1").
  reflexivity.
Defined.

(** *** Declarations and reads *)

Lemma nameOp_VariableOp_entry recurse unit baseName compat varNames i w u op xref variable
    varNames' w' :
  units w !! unit = Some u → CompilationUnit.ops u !! i = Some op →
  Op.variant op = VariableOp xref variable →
  nameOp recurse unit baseName compat varNames i w = (Ok varNames', w') →
  is_Some (varNames' !! xref).
Proof.
  intros Hu Hop Hvariant. enter_nameOp Hu Hop Hvariant.
  intros (name & w1 & _ & [= <- _])%bind_inv_Ok. rewrite lookup_insert_eq. by eexists.
Qed.

Lemma nameOp_table_grows recurse unit baseName compat varNames i w varNames' w' xref :
  nameOp recurse unit baseName compat varNames i w = (Ok varNames', w') →
  is_Some (varNames !! xref) → is_Some (varNames' !! xref).
Proof.
  intros Hrun Hin.
  destruct (nameOp_table _ _ _ _ _ _ _ _ _ Hrun)
    as [->|(u & op & x & variable & n & _ & _ & _ & _ & ->)]; [done|].
  destruct (decide (x = xref)) as [->|Hne].
  - rewrite lookup_insert_eq. by eexists.
  - by rewrite lookup_insert_ne.
Qed.

(** The table of the first loop has an entry for every xref that a
    [Variable] op at a visited position declares. *)
Lemma foldM_nameOp_table_complete recurse unit baseName compat indices :
  (∀ x b, respects (recurse x b)) →
  ∀ varNames w varNames' w',
    foldM (nameOp recurse unit baseName compat) varNames indices w
    = (Ok varNames', w') →
    (∀ xref, is_Some (varNames !! xref) → is_Some (varNames' !! xref))
    ∧ ∀ i u op xref variable,
        i ∈ indices → units w !! unit = Some u →
        CompilationUnit.ops u !! i = Some op →
        Op.variant op = VariableOp xref variable →
        is_Some (varNames' !! xref).
Proof.
  intros Hrec. induction indices as [|i indices IH];
    intros varNames w varNames' w' Hrun; simpl in Hrun.
  - injection Hrun as <- <-. split; [done|]. intros i u op xref variable Hi.
    by apply elem_of_nil in Hi.
  - apply bind_inv_Ok in Hrun as (varNames1 & w1 & Hop & Hrest).
    destruct (IH _ _ _ _ Hrest) as [Hgrows Hcomplete].
    pose proof (respects_run _ _ _ _
                  (respects_nameOp recurse unit baseName compat varNames i Hrec) Hop)
      as Hw1.
    split.
    + intros xref Hin. apply Hgrows. by eapply nameOp_table_grows.
    + intros j u op xref variable [->|Hj]%elem_of_cons Hu Hj' Hvariant.
      * apply Hgrows. by eapply nameOp_VariableOp_entry.
      * destruct (writes_units _ _ _ _ Hw1 Hu) as (u1 & Hu1 & Hev).
        destruct (unitEvolves_op _ _ _ _ Hev Hj') as (op1 & Hop1 & Hsk).
        apply (Hcomplete j u1 op1 xref variable); [done..|].
        rewrite Hvariant in Hsk. by destruct (Op.variant op1).
Qed.

(** X16. When the first loop of [addNamesToView] has run through all ops of
    the unit, its table has an entry for every xref that a [Variable] op of
    the unit declares, wherever the op stands; the call then is the backfill
    with that table, and the backfill can only throw on an xref that the
    unit does not declare. *)
Theorem X16_declarations_reach_all_reads
    cpl fuel unit baseName compat w u varNames w2 :
  units w !! unit = Some u →
  scanUpTo cpl fuel unit baseName compat (length (CompilationUnit.ops u)) w
  = (Ok varNames, w2) →
  (∀ xref, declares u xref → is_Some (varNames !! xref))
  ∧ addNamesToView cpl (S fuel) unit baseName compat w = backfill unit varNames w2
  ∧ ∀ xref, (backfill unit varNames w2).1 = Throw (VariableNotYetNamed xref) →
            ¬ declares u xref.
Proof.
  intros Hu Hscan.
  assert (∀ xref, declares u xref → is_Some (varNames !! xref)) as Hdeclared.
  { unfold scanUpTo in Hscan.
    rewrite (bind_Ok _ _ _ _ _ (getUnit_Some _ _ _ Hu)) in Hscan.
    apply bind_inv_Ok in Hscan as ([] & w1 & Hfn & Hloop).
    destruct (nameFunction_run _ _ _ _ _ _ Hu Hfn) as [Hw1 _].
    intros xref (i & op & variable & Hop & Hvariant).
    destruct (writes_units _ _ _ _ Hw1 Hu) as (u1 & Hu1 & Hev).
    destruct (unitEvolves_op _ _ _ _ Hev Hop) as (op1 & Hop1 & Hsk).
    eapply (foldM_nameOp_table_complete _ _ _ _ _ (λ x b, respects_addNamesToView _ _ _ _ _)
              _ _ _ _ Hloop); [|exact Hu1|exact Hop1|].
    - apply elem_of_seq. split; [lia|]. simpl. by eapply lookup_lt_Some.
    - rewrite Hvariant in Hsk. by destruct (Op.variant op1). }
  split; [exact Hdeclared|]. split.
  - unfold scanUpTo in Hscan. simpl addNamesToView.
    rewrite (bind_Ok _ _ _ _ _ (getUnit_Some _ _ _ Hu)) in Hscan.
    rewrite (bind_Ok _ _ _ _ _ (getUnit_Some _ _ _ Hu)).
    apply bind_inv_Ok in Hscan as ([] & w1 & Hfn & Hloop).
    rewrite (bind_Ok _ _ _ _ _ Hfn). by rewrite (bind_Ok _ _ _ _ _ Hloop).
  - intros xref Hthrow Hdecl. apply Hdeclared in Hdecl as [name Hname].
    destruct (units w2 !! unit) as [u2|] eqn:Hu2.
    + rewrite (backfill_run _ _ _ _ Hu2) in Hthrow. simpl in Hthrow.
      destruct (backfillOps varNames (CompilationUnit.ops u2)) as [ops [y|]] eqn:Hrun;
        simpl in Hthrow; [|done].
      injection Hthrow as ->.
      destruct (backfillOps_Some _ _ _ _ Hrun) as [_ Hno]. congruence.
    + unfold backfill, bind, getUnit in Hthrow. by rewrite Hu2 in Hthrow.
Qed.

Lemma X16_declarations_reach_all_reads_witness :
  let outcome := scanUpTo sampleJob 1 0 "Comp" true 7 (initialWorld sampleJob) in
  addNamesToView sampleJob 2 0 "Comp" true (initialWorld sampleJob)
  = backfill 0 {[ 10 := "item_r1"; 11 := "ctx_r1" ]} outcome.2.
Proof.
  intros outcome.
  assert (outcome = (Ok {[ 10 := "item_r1"; 11 := "ctx_r1" ]}, outcome.2)) as Hrun.
  { by vm_compute. }
  by destruct (X16_declarations_reach_all_reads sampleJob 1 0 "Comp" true
                 (initialWorld sampleJob) sampleRoot _ _ eq_refl Hrun)
    as (_ & Heq & _).
Defined.

Lemma backfillExpressions_all_named table (es : list Expression) :
  (∀ xref, ReadVariableExpr xref None ∉ es) →
  backfillExpressions table es = (es, None).
Proof.
  induction es as [|e es IH]; intros Hnamed; [done|]. simpl.
  rewrite IH by (intros x Hx; apply (Hnamed x); by apply elem_of_cons; right).
  destruct e as [x [n|]|]; [done| |done].
  destruct (Hnamed x). by apply elem_of_cons; left.
Qed.

Lemma backfillOps_all_named table (ops : list Op.t) :
  (∀ op xref, op ∈ ops → ReadVariableExpr xref None ∉ Op.expressions op) →
  backfillOps table ops = (ops, None).
Proof.
  induction ops as [|op ops IH]; intros Hnamed; [done|]. simpl.
  rewrite backfillExpressions_all_named
    by (intros x; apply Hnamed; by apply elem_of_cons; left).
  rewrite IH by (intros op' x Hop'; apply Hnamed; by apply elem_of_cons; right).
  by destruct op.
Qed.

(** A backfill that returns leaves no unnamed read in the unit. *)
Lemma backfill_leaves_reads_named unit varNames w u w1 :
  units w !! unit = Some u → backfill unit varNames w = (Ok (), w1) →
  ∃ u1, w1 = mkWorld (<[unit := u1]> (units w)) (variables w) (index w)
        ∧ ∀ op xref, op ∈ CompilationUnit.ops u1 →
                     ReadVariableExpr xref None ∉ Op.expressions op.
Proof.
  intros Hu Hrun.
  pose proof (backfill_of_reads unit varNames w u Hu) as Hreads.
  cbv zeta in Hreads. rewrite Hrun in Hreads. simpl in Hreads.
  destruct Hreads as (_ & _ & Hok & _). destruct (Hok eq_refl) as [-> Hall].
  eexists. split; [done|]. simpl.
  intros op1 x (op & -> & Hop)%list_elem_of_fmap (e & He & Hin)%list_elem_of_fmap.
  apply list_elem_of_lookup in Hop as [i Hi].
  destruct e as [y [n|]|]; simpl in He; try done.
  injection He as -> Hnone.
  destruct (Hall y) as [name Hname]; [by exists i, op|]. congruence.
Qed.

(** X17. The backfill is idempotent: after a backfill of a unit that has
    returned, a backfill of that unit with any table returns and changes
    nothing. *)
Theorem X17_backfill_idempotent unit varNames w u w1 table :
  units w !! unit = Some u → backfill unit varNames w = (Ok (), w1) →
  backfill unit table w1 = (Ok (), w1).
Proof.
  intros Hu Hrun.
  destruct (backfill_leaves_reads_named _ _ _ _ _ Hu Hrun) as (u1 & -> & Hnamed).
  erewrite backfill_run; [|simpl; apply lookup_insert_eq]. simpl.
  rewrite (backfillOps_all_named _ _ Hnamed). simpl.
  rewrite insert_insert_eq. by destruct u1.
Qed.

Lemma X17_backfill_idempotent_witness :
  let w1 := (backfill 0 {[ 10 := "item_r1" ]} readsWorld).2 in
  backfill 0 ∅ w1 = (Ok (), w1).
Proof.
  intros w1. subst w1.
  by apply (X17_backfill_idempotent 0 {[ 10 := "item_r1" ]} readsWorld _ _ ∅ eq_refl).
Defined.

(** X18. When [addNamesToView] returns, every variable read of the unit has
    a name. *)
Theorem X18_reads_named_on_return cpl fuel unit baseName compat w w' i j xref name :
  addNamesToView cpl (S fuel) unit baseName compat w = (Ok (), w') →
  expressionAt w' unit i j = Some (ReadVariableExpr xref name) →
  is_Some name.
Proof.
  intros Hrun. simpl in Hrun.
  apply bind_inv_Ok in Hrun as (u & w0 & _ & Hrun).
  apply bind_inv_Ok in Hrun as ([] & w1 & _ & Hrun).
  apply bind_inv_Ok in Hrun as (varNames & w2 & _ & Hback).
  destruct (units w2 !! unit) as [u2|] eqn:Hu2;
    [|by unfold backfill, bind, getUnit in Hback; rewrite Hu2 in Hback].
  destruct (backfill_leaves_reads_named _ _ _ _ _ Hu2 Hback) as (u' & -> & Hnamed).
  unfold expressionAt. simpl. rewrite lookup_insert_eq. simpl.
  destruct (CompilationUnit.ops u' !! i) as [op|] eqn:Hop; [|done]. simpl.
  intros Hj. destruct name as [name|]; [by eexists|].
  destruct (Hnamed op xref).
  - apply list_elem_of_lookup. by exists i.
  - apply list_elem_of_lookup. by exists j.
Qed.

Lemma X18_reads_named_on_return_witness :
  let w' := (phaseNaming 2 sampleJob).2 in
  expressionAt w' 0 2 0 = Some (ReadVariableExpr 11 (Some "ctx_r1"))
  ∧ is_Some (Some "ctx_r1").
Proof.
  intros w'. subst w'.
  assert (expressionAt (phaseNaming 2 sampleJob).2 0 2 0
          = Some (ReadVariableExpr 11 (Some "ctx_r1"))) as Hread by (by vm_compute).
  split; [exact Hread|].
  apply (X18_reads_named_on_return sampleJob 1 0 "Comp" true (initialWorld sampleJob)
           (phaseNaming 2 sampleJob).2 2 0 11 (Some "ctx_r1")); [|exact Hread].
  by vm_compute.
Defined.

(** X19. The recursion ends on a finite unit tree: when no path below the
    root has more than [n] edges, the phase does not recurse deeper than
    [S n] calls, and its outcome is the same under every larger bound. *)
Theorem X19_phase_ends_on_finite_tree cpl n fuel :
  heightAtMost (initialWorld cpl) n (root cpl) → (n < fuel)%nat →
  isOutOfFuel (phaseNaming (S n) cpl).1 = false
  ∧ phaseNaming fuel cpl = phaseNaming (S n) cpl.
Proof.
  intros Hheight Hlt.
  pose proof (addNamesToView_enough_fuel cpl n (root cpl) (componentName cpl)
                (isTemplateDefinitionBuilder (compatibility cpl)) _ Hheight) as Hfuel.
  fold (phaseNaming (S n) cpl) in Hfuel.
  destruct (phaseNaming (S n) cpl) as [r w'] eqn:Hrun. simpl in Hfuel.
  split.
  - destruct r as [|e]; [done|]. by destruct e.
  - apply (phaseNaming_more_fuel cpl (S n)); [lia|done|done].
Qed.

Lemma X19_phase_ends_on_finite_tree_witness :
  isOutOfFuel (phaseNaming 2 sampleJob).1 = false
  ∧ phaseNaming 9 sampleJob = phaseNaming 2 sampleJob.
Proof.
  apply (X19_phase_ends_on_finite_tree sampleJob 1 9); [|lia].
  intros child (u & i & op & Hu & Hop & Href) child' (u' & i' & op' & Hu' & Hop' & Href').
  vm_compute in Hu. injection Hu as <-.
  destruct i as [|[|[|[|[|[|[|i]]]]]]]; try done;
    injection Hop as <-; simpl in Href; try done.
  - subst child. vm_compute in Hu'. injection Hu' as <-.
    destruct i' as [|[|i']]; try done; by injection Hop' as <-.
  - assert (child = 2 ∨ child = 3) as [-> | ->]
      by (destruct Href as [<-|[= <-]]; auto);
      vm_compute in Hu'; injection Hu' as <-; done.
Defined.

(** *** Stripping [!important] *)

Lemma prefix_substring0 k s : String.prefix (JS.substring0 k s) s = true.
Proof.
  revert s. induction k as [|k IH]; intros [|c s]; simpl; try done.
  destruct (ascii_dec c c); [apply IH|done].
Qed.

Lemma prefix_refl s : String.prefix s s = true.
Proof. induction s as [|c s IH]; simpl; [done|]. by destruct (ascii_dec c c). Qed.

Lemma prefix_trans p t s :
  String.prefix p t = true → String.prefix t s = true → String.prefix p s = true.
Proof.
  revert t s. induction p as [|a p IH]; intros [|b t] [|c s]; simpl; try done.
  destruct (ascii_dec a b) as [->|]; [|done].
  destruct (ascii_dec b c) as [->|]; [|done]. apply IH.
Qed.

Lemma indexOf_lower_bound s needle : (-1 ≤ JS.indexOf s needle)%Z.
Proof.
  induction s as [|c s IH]; rewrite indexOf_unfold;
    destruct (String.prefix needle _); try lia.
  destruct (Z.ltb_spec (JS.indexOf s needle) 0); lia.
Qed.

(** There is no occurrence before the first one. *)
Lemma indexOf_before_first s needle :
  needle ≠ "" → (0 ≤ JS.indexOf s needle)%Z →
  JS.indexOf (JS.substring0 (Z.to_nat (JS.indexOf s needle)) s) needle = (-1)%Z.
Proof.
  intros Hneedle.
  assert (JS.indexOf "" needle = (-1)%Z) as Hempty by (by destruct needle).
  induction s as [|c s IH]; [rewrite Hempty; lia|].
  rewrite (indexOf_unfold (String c s)).
  destruct (String.prefix needle (String c s)) eqn:Hp; [done|].
  destruct (Z.ltb_spec (JS.indexOf s needle) 0) as [|Hfound]; [lia|]. intros _.
  rewrite Z2Nat.inj_add, Nat.add_1_r by lia. simpl JS.substring0.
  rewrite indexOf_unfold.
  destruct (String.prefix needle (String c (JS.substring0 _ s))) eqn:Hp'.
  - assert (String.prefix needle (String c s) = true) as Hp''; [|congruence].
    apply (prefix_trans _ _ _ Hp'). simpl.
    destruct (ascii_dec c c); [apply prefix_substring0|done].
  - by rewrite (IH Hfound).
Qed.

(** X20. What [stripImportant] returns is a prefix of its argument that has
    no [!important] in it, so that stripping twice is stripping once. *)
Theorem X20_stripImportant_leaves_no_marker name :
  String.prefix (stripImportant name) name = true
  ∧ JS.indexOf (stripImportant name) "!important" = (-1)%Z
  ∧ stripImportant (stripImportant name) = stripImportant name.
Proof.
  assert (JS.indexOf (stripImportant name) "!important" = (-1)%Z) as Hnone.
  { unfold stripImportant.
    pose proof (indexOf_lower_bound name "!important").
    destruct (Z.gtb_spec (JS.indexOf name "!important") (-1)).
    - apply indexOf_before_first; [done|lia].
    - lia. }
  split; [|split; [done|]].
  - unfold stripImportant. destruct (_ >? _)%Z.
    + apply prefix_substring0.
    + apply prefix_refl.
  - unfold stripImportant at 1. by rewrite Hnone.
Qed.
